(** * Switchable item storage: the repository contract and its three backends

    A shallow embedding of [app/schemas.py], [app/repositories/*.py],
    [app/database.py], [app/dependencies.py] and the routes of [app/main.py].

    Conventions of the embedding.
    - Python [int] is [Z]; Python [float] is the kernel's binary64 [float],
      compared with the IEEE operations the interpreter uses.
    - Python [str] is [string]; a character is a code point in the range
      U+0000..U+00FF, on which [str.lower] is the Latin-1 case folding.
    - [Optional[T]] is [option T]; a call that may raise returns [result].
    - A pydantic model is a record of its field values.  [ItemCreate] also
      remembers whether [description] was passed to the constructor, which is
      what [model_dump(exclude_unset=True)] looks at.  Field constraints are
      checked where a model is built from outside data, so they are kept as
      the predicates [ItemCreate.valid] and [Item.valid] rather than re-run by
      every constructor call: a draft handed to a repository was built under
      them, and so was every item made from one.  Reading back a JSON text
      is where they can fail on such data, and there they are checked.
    - SQLite and Redis are modelled for the statements and commands that the
      repositories issue, on a SQLite file that holds the table of [init_db]
      and a Redis server that answers.  An id bound to a statement has to fit
      the signed 64 bits of the id column.  The counters themselves, the
      AUTOINCREMENT sequence and the key that [INCR] steps, are left
      unbounded: they go up by one per creation.  An integer is written out
      as text in full, whatever its length.
    - What a library raises is kept where the code can meet it: pydantic on
      reading back a JSON text, the SQLite driver on binding an id and on
      [LIKE], the Redis client on building a client from a URL.
    - A request is served as the framework does it: the dependency first,
      then the declared constraints on the parameters, then the endpoint. *)

From Stdlib Require Import Ascii String Floats.
From stdpp Require Import gmap strings list fin_maps sorting pretty.

Local Open Scope Z_scope.

(** ** Results of calls that may raise *)

(** The exceptions that the code and the libraries under it raise.
    [ValueError] carries the text that tells its message from another:
    the storage type that is not known, or what the Redis client says of a
    URL it refuses.  [ValidationError] is pydantic's, [ResponseError] is the
    Redis server's answer to a command on a value of the wrong kind,
    [OverflowError] and [OperationalError] are the SQLite driver's. *)
Inductive exn :=
| ValueError (value : string)
| ValidationError
| ResponseError
| OverflowError
| OperationalError.

Inductive result (A : Type) :=
| Ok (a : A)
| Raise (e : exn).
Arguments Ok {A} a.
Arguments Raise {A} e.

#[export] Instance result_ret : MRet result := @Ok.

#[export] Instance result_bind : MBind result := λ A B k r,
  match r with
  | Ok a => k a
  | Raise e => Raise e
  end.

(** ** The Python operations the repositories rely on *)

Module Py.

(** [bool(s)] for a string: false exactly on the empty string. *)
Definition truthy_str (s : string) : bool :=
  match s with
  | EmptyString => false
  | String _ _ => true
  end.

(** [bool(x)] for a float: false exactly when [x == 0.0]. *)
Definition truthy_float (x : float) : bool := negb (PrimFloat.eqb x 0%float).

(** [str.lower] on one code point below U+0100: A..Z and the capital letters
    U+00C0..U+00DE without the multiplication sign move up by 32. *)
Definition lower_char (c : ascii) : ascii :=
  let n := N_of_ascii c in
  if ((65 <=? n) && (n <=? 90))%N
     || ((192 <=? n) && (n <=? 222) && negb (n =? 215))%N
  then ascii_of_N (n + 32)
  else c.

Fixpoint lower (s : string) : string :=
  match s with
  | EmptyString => EmptyString
  | String c s' => String (lower_char c) (lower s')
  end.

(** [sub in s]: [sub] occurs in [s] at some offset. *)
Fixpoint contains (sub s : string) : bool :=
  String.prefix sub s
  || match s with
     | EmptyString => false
     | String _ s' => contains sub s'
     end.

End Py.

(** ** app/schemas.py *)

(** A field with a default: left out of the constructor call, or given. *)
Inductive field (A : Type) :=
| Unset
| Given (a : A).
Arguments Unset {A}.
Arguments Given {A} a.

(** The keyword dictionary produced by [model_dump(exclude_unset=True)] and
    consumed by [model_copy(update=...)]: one optional entry per field. *)
Record fields := {
  f_name : option string;
  f_description : option (option string);
  f_price : option float
}.

Module ItemCreate.

Record t := {
  name : string;
  description_field : field (option string);
  price : float
}.

(** Reading [description]: the default [None] when it was not passed. *)
Definition description (d : t) : option string :=
  match description_field d with
  | Unset => None
  | Given v => v
  end.

(** [Field(min_length=3, max_length=50)], [Field(None, max_length=200)] and
    [Field(gt=0)]. *)
Definition valid_name (s : string) : bool :=
  (3 <=? String.length s)%nat && (String.length s <=? 50)%nat.

Definition valid_description (o : option string) : bool :=
  match o with
  | None => true
  | Some s => (String.length s <=? 200)%nat
  end.

Definition valid_price (p : float) : bool := PrimFloat.ltb 0%float p.

Definition valid (d : t) : bool :=
  valid_name (name d) && valid_description (description d)
  && valid_price (price d).

(** [model_dump()]: every field, defaults included. *)
Definition model_dump (d : t) : string * option string * float :=
  (name d, description d, price d).

(** [model_dump(exclude_unset=True)]: only the fields passed to the
    constructor; [name] and [price] are required, so always there. *)
Definition model_dump_exclude_unset (d : t) : fields :=
  {| f_name := Some (name d);
     f_description :=
       match description_field d with
       | Unset => None
       | Given v => Some v
       end;
     f_price := Some (price d) |}.

End ItemCreate.

Module Item.

Record t := {
  id : Z;
  name : string;
  description : option string;
  price : float
}.

Definition valid (it : t) : bool :=
  ItemCreate.valid_name (name it)
  && ItemCreate.valid_description (description it)
  && ItemCreate.valid_price (price it).

(** [Item(id=i, **item_create.model_dump())]. *)
Definition of_dump (i : Z) (kw : string * option string * float) : t :=
  let '(n, d, p) := kw in
  {| id := i; name := n; description := d; price := p |}.

(** [self.model_copy(update=kw)]: a copy in which the entries of [kw]
    overwrite the fields of the same name. *)
Definition model_copy (it : t) (kw : fields) : t :=
  {| id := id it;
     name := default (name it) (f_name kw);
     description := default (description it) (f_description kw);
     price := default (price it) (f_price kw) |}.

(** Whether the JSON text of [it] validates as an [Item] again: the field
    constraints hold, and the price is finite, since [model_dump_json]
    writes a float that is not finite as [null]. *)
Definition readable (it : t) : bool :=
  valid it && PrimFloat.ltb (price it) infinity.

End Item.

(** The body of the filtering loop, which [InMemoryRepository.list_items] and
    [RedisRepository.list_items] both run on each item: the two flags start
    true and each [if] may clear one. *)
Definition item_matches (name_filter : option string) (min_price : option float)
    (item : Item.t) : bool :=
  let match_name :=
    match name_filter with
    | Some f =>
        if Py.truthy_str f
           && negb (Py.contains (Py.lower f) (Py.lower (Item.name item)))
        then false else true
    | None => true
    end in
  let match_price :=
    match min_price with
    | Some m =>
        if Py.truthy_float m && PrimFloat.ltb (Item.price item) m
        then false else true
    | None => true
    end in
  match_name && match_price.

(** ** app/repositories/base.py *)

Class BaseRepository (R : Type) := {
  get_item : Z → R → result (option Item.t);
  list_items : option string → option float → R → result (list Item.t);
  create_item : ItemCreate.t → R → result (Item.t * R);
  update_item : Z → ItemCreate.t → R → result (option Item.t * R);
  delete_item : Z → R → result (bool * R)
}.

(** ** app/repositories/in_memory.py *)

Module InMemoryRepository.

Record t := {
  items : gmap Z Item.t;
  next_id : Z
}.

Definition init : t := {| items := ∅; next_id := 1 |}.

(** [self.items.values()].  The dictionary is a finite map here, so the
    values come in an order of the map's own, not in insertion order. *)
Definition values (self : t) : list Item.t := (map_to_list (items self)).*2.

Definition get_item (item_id : Z) (self : t) : option Item.t :=
  items self !! item_id.

Definition list_items (name_filter : option string) (min_price : option float)
    (self : t) : list Item.t :=
  List.filter (item_matches name_filter min_price) (values self).

Definition create_item (item_create : ItemCreate.t) (self : t) : Item.t * t :=
  let item := Item.of_dump (next_id self) (ItemCreate.model_dump item_create) in
  (item, {| items := <[next_id self := item]> (items self);
            next_id := next_id self + 1 |}).

Definition update_item (item_id : Z) (item_update : ItemCreate.t) (self : t)
    : option Item.t * t :=
  match items self !! item_id with
  | Some current_item =>
      let updated_data := ItemCreate.model_dump_exclude_unset item_update in
      let updated_item := Item.model_copy current_item updated_data in
      (Some updated_item,
       {| items := <[item_id := updated_item]> (items self);
          next_id := next_id self |})
  | None => (None, self)
  end.

Definition delete_item (item_id : Z) (self : t) : bool * t :=
  match items self !! item_id with
  | Some _ =>
      (true, {| items := delete item_id (items self);
                next_id := next_id self |})
  | None => (false, self)
  end.

End InMemoryRepository.

#[export] Instance in_memory_repository : BaseRepository InMemoryRepository.t := {
  get_item i s := Ok (InMemoryRepository.get_item i s);
  list_items nf mp s := Ok (InMemoryRepository.list_items nf mp s);
  create_item d s := Ok (InMemoryRepository.create_item d s);
  update_item i d s := Ok (InMemoryRepository.update_item i d s);
  delete_item i s := Ok (InMemoryRepository.delete_item i s)
}.

(** ** The Redis commands used by app/repositories/redis_repo.py *)

Module Redis.

(** A string value, by what wrote it: the decimal text of an integer (what
    [INCR] leaves) or the JSON text that [Item.model_dump_json] writes for
    an item.  Either text is non-empty, so a fetched value is always
    truthy. *)
Inductive value :=
| Int (n : Z)
| Json (doc : Item.t).

(** The keyspace of the server behind the shared client. *)
Record t := { keys : gmap string value }.

Definition init : t := {| keys := ∅ |}.

(** [INCR key]: a missing key counts as 0; a value that is not an integer is
    an error. *)
Definition incr (key : string) (db : t) : result (Z * t) :=
  match keys db !! key with
  | None => Ok (1, {| keys := <[key := Int 1]> (keys db) |})
  | Some (Int n) => Ok (n + 1, {| keys := <[key := Int (n + 1)]> (keys db) |})
  | Some (Json _) => Raise ResponseError
  end.

Definition get (key : string) (db : t) : option value := keys db !! key.

Definition set (key : string) (v : value) (db : t) : t :=
  {| keys := <[key := v]> (keys db) |}.

(** [DEL key]: the number of keys removed. *)
Definition delete (key : string) (db : t) : Z * t :=
  match keys db !! key with
  | Some _ => (1, {| keys := base.delete key (keys db) |})
  | None => (0, db)
  end.

(** [scan_iter(prefix + "*")] for a prefix without glob metacharacters: the
    keys that start with it. *)
Definition scan_iter (prefix : string) (db : t) : list string :=
  List.filter (String.prefix prefix) (map_to_list (keys db)).*1.

Definition mget (ks : list string) (db : t) : list (option value) :=
  (λ k, keys db !! k) <$> ks.

End Redis.

(** [item.model_dump_json()] and [Item.model_validate_json(data)].
    [Redis.Json item] is the text that [model_dump_json] writes for [item].
    It validates as [item] again when [item] is readable: a price that is
    not finite was written as [null], which is no float, and the field
    constraints are checked on what was read.  The text of an integer is no
    item at all. *)
Definition model_dump_json (item : Item.t) : Redis.value := Redis.Json item.

Definition model_validate_json (data : Redis.value) : result Item.t :=
  match data with
  | Redis.Json item =>
      if Item.readable item then Ok item else Raise ValidationError
  | Redis.Int _ => Raise ValidationError
  end.

(** ** app/repositories/redis_repo.py *)

Module RedisRepository.

Definition key_prefix : string := "item:".
Definition next_id_key : string := "next_item_id".

(** [f"{self.key_prefix}{item_id}"]. *)
Definition item_key (item_id : Z) : string := key_prefix +:+ pretty item_id.

Definition _get_next_id (db : Redis.t) : result (Z * Redis.t) :=
  Redis.incr next_id_key db.

Definition get_item (item_id : Z) (db : Redis.t) : result (option Item.t) :=
  match Redis.get (item_key item_id) db with
  | Some item_data => item ← model_validate_json item_data; Ok (Some item)
  | None => Ok None
  end.

(** The loop over the fetched values: a missing value is skipped, a value is
    decoded and kept when it passes the filters. *)
Fixpoint collect (name_filter : option string) (min_price : option float)
    (items_data : list (option Redis.value)) : result (list Item.t) :=
  match items_data with
  | [] => Ok []
  | None :: rest => collect name_filter min_price rest
  | Some item_data :: rest =>
      item ← model_validate_json item_data;
      items ← collect name_filter min_price rest;
      Ok (if item_matches name_filter min_price item
          then item :: items else items)
  end.

Definition list_items (name_filter : option string) (min_price : option float)
    (db : Redis.t) : result (list Item.t) :=
  let all_keys := Redis.scan_iter key_prefix db in
  match all_keys with
  | [] => Ok []
  | _ :: _ => collect name_filter min_price (Redis.mget all_keys db)
  end.

Definition create_item (item_create : ItemCreate.t) (db : Redis.t)
    : result (Item.t * Redis.t) :=
  '(item_id, db) ← _get_next_id db;
  let item := Item.of_dump item_id (ItemCreate.model_dump item_create) in
  Ok (item, Redis.set (item_key item_id) (model_dump_json item) db).

Definition update_item (item_id : Z) (item_update : ItemCreate.t) (db : Redis.t)
    : result (option Item.t * Redis.t) :=
  existing ← get_item item_id db;
  match existing with
  | Some existing_item =>
      let updated_data := ItemCreate.model_dump_exclude_unset item_update in
      let updated_item := Item.model_copy existing_item updated_data in
      Ok (Some updated_item,
          Redis.set (item_key item_id) (model_dump_json updated_item) db)
  | None => Ok (None, db)
  end.

Definition delete_item (item_id : Z) (db : Redis.t) : result (bool * Redis.t) :=
  let '(result, db) := Redis.delete (item_key item_id) db in
  Ok (0 <? result, db).

End RedisRepository.

#[export] Instance redis_repository : BaseRepository Redis.t := {
  get_item := RedisRepository.get_item;
  list_items := RedisRepository.list_items;
  create_item := RedisRepository.create_item;
  update_item := RedisRepository.update_item;
  delete_item := RedisRepository.delete_item
}.

(** ** The SQLite statements used by app/repositories/sqlite.py *)

Module Sqlite.

(** The non-key columns of table [items]: [name TEXT NOT NULL],
    [description TEXT], [price REAL NOT NULL]. *)
Record row := {
  name : string;
  description : option string;
  price : float
}.

(** The table, keyed by [id INTEGER PRIMARY KEY AUTOINCREMENT], and the
    largest id ever handed out, which the engine keeps in
    [sqlite_sequence]. *)
Record t := {
  items : gmap Z row;
  sqlite_sequence : Z
}.

(** An empty database after [init_db]. *)
Definition init : t := {| items := ∅; sqlite_sequence := 0 |}.

(** [LOWER] folds the 26 ASCII capitals only. *)
Definition lower_char (c : ascii) : ascii :=
  let n := N_of_ascii c in
  if ((65 <=? n) && (n <=? 90))%N then ascii_of_N (n + 32) else c.

Fixpoint lower (s : string) : string :=
  match s with
  | EmptyString => EmptyString
  | String c s' => String (lower_char c) (lower s')
  end.

(** The text functions of the engine read a string the way C does, up to
    its first U+0000. *)
Fixpoint c_str (s : string) : string :=
  match s with
  | EmptyString => EmptyString
  | String c s' =>
      if (N_of_ascii c =? 0)%N then EmptyString else String c (c_str s')
  end.

(** [s LIKE pattern], on the two texts as [c_str] gives them: [%] stands for
    any run of characters, [_] for any one character, and any other
    character for itself up to ASCII case. *)
Fixpoint like (pattern s : string) : bool :=
  match pattern with
  | EmptyString =>
      match s with
      | EmptyString => true
      | String _ _ => false
      end
  | String "%" pattern' =>
      (fix skip (s : string) : bool :=
         like pattern' s
         || match s with
            | EmptyString => false
            | String _ s' => skip s'
            end) s
  | String "_" pattern' =>
      match s with
      | EmptyString => false
      | String _ s' => like pattern' s'
      end
  | String c pattern' =>
      match s with
      | EmptyString => false
      | String d s' =>
          bool_decide (lower_char c = lower_char d) && like pattern' s'
      end
  end.

(** A float bound to a [?]: NaN is bound as NULL, written [None]. *)
Definition bind_float (f : float) : option float :=
  if PrimFloat.is_nan f then None else Some f.

(** An integer bound to a [?]: the column type is a signed 64-bit integer,
    and the driver raises [OverflowError] on an integer outside its range,
    before the statement runs. *)
Definition bind_int (n : Z) : result Z :=
  if (- 2 ^ 63 <=? n) && (n <? 2 ^ 63) then Ok n else Raise OverflowError.

(** The number of bytes of the UTF-8 text of a string of code points below
    U+0100: one below U+0080, two from there on. *)
Fixpoint utf8_length (s : string) : Z :=
  match s with
  | EmptyString => 0
  | String c s' => (if (N_of_ascii c <? 128)%N then 1 else 2) + utf8_length s'
  end.

(** The longest pattern, in bytes, that [LIKE] takes. *)
Definition like_pattern_limit : Z := 50000.

(** The conditions that [list_items] appends to [WHERE 1=1], each with the
    value bound to its [?]. *)
Inductive condition :=
| LowerNameLikeLower (param : string)
| PriceGe (param : option float).

(** Three-valued truth of one condition on one row; [None] is NULL. *)
Definition eval (c : condition) (r : row) : option bool :=
  match c with
  | LowerNameLikeLower param =>
      Some (like (c_str (lower param)) (c_str (lower (name r))))
  | PriceGe (Some bound) => Some (PrimFloat.leb bound (price r))
  | PriceGe None => None
  end.

(** [a AND b] in three-valued logic. *)
Definition and3 (a b : option bool) : option bool :=
  match a, b with
  | Some false, _ | _, Some false => Some false
  | Some true, Some true => Some true
  | _, _ => None
  end.

(** [WHERE 1=1 AND c1 AND ...] keeps the rows on which the conjunction is
    true, not false and not NULL. *)
Definition where_ (cs : list condition) (r : row) : bool :=
  match foldl (λ acc c, and3 acc (eval c r)) (Some true) cs with
  | Some true => true
  | _ => false
  end.

Definition by_id (a b : Z * row) : Prop := a.1 ≤ b.1.

#[export] Instance by_id_dec : RelDecision by_id.
Proof. intros a b. unfold by_id. apply _. Defined.

(** Whether the query fails with "LIKE or GLOB pattern too complex": a
    pattern over the limit is refused when [LIKE] is evaluated, which is on
    the first row of the scan, so on any table that has a row. *)
Definition like_fails (cs : list condition) (db : t) : bool :=
  existsb (λ c, match c with
                | LowerNameLikeLower param =>
                    like_pattern_limit <? utf8_length param
                | PriceGe _ => false
                end) cs
  && match map_to_list (items db) with
     | [] => false
     | _ :: _ => true
     end.

(** [SELECT id, name, description, price FROM items WHERE 1=1 ... ORDER BY
    id], when it does not fail. *)
Definition select_where_order_by_id (cs : list condition) (db : t)
    : list (Z * row) :=
  merge_sort by_id (List.filter (λ kr, where_ cs kr.2) (map_to_list (items db))).

(** [SELECT id, name, description, price FROM items WHERE id = ?], then
    [fetchone], for an id that [bind_int] has bound; so are [update_by_id]
    and [delete_by_id]. *)
Definition select_by_id (item_id : Z) (db : t) : option (Z * row) :=
  (λ r, (item_id, r)) <$> items db !! item_id.

Definition max_rowid (db : t) : Z :=
  foldr Z.max 0 (map_to_list (items db)).*1.

(** [INSERT INTO items (name, description, price) VALUES (?, ?, ?)]: with
    AUTOINCREMENT the new id is one more than the largest id that has ever
    been in the table.  Returns [lastrowid]. *)
Definition insert (r : row) (db : t) : Z * t :=
  let rowid := Z.max (sqlite_sequence db) (max_rowid db) + 1 in
  (rowid, {| items := <[rowid := r]> (items db); sqlite_sequence := rowid |}).

(** [UPDATE items SET name = ?, description = ?, price = ? WHERE id = ?].
    Returns [rowcount]. *)
Definition update_by_id (r : row) (item_id : Z) (db : t) : Z * t :=
  match items db !! item_id with
  | Some _ =>
      (1, {| items := <[item_id := r]> (items db);
             sqlite_sequence := sqlite_sequence db |})
  | None => (0, db)
  end.

(** [DELETE FROM items WHERE id = ?].  Returns [rowcount]. *)
Definition delete_by_id (item_id : Z) (db : t) : Z * t :=
  match items db !! item_id with
  | Some _ =>
      (1, {| items := delete item_id (items db);
             sqlite_sequence := sqlite_sequence db |})
  | None => (0, db)
  end.

End Sqlite.

(** ** app/repositories/sqlite.py *)

Module SQLiteRepository.

(** [Item(id=row[0], name=row[1], description=row[2], price=row[3])]. *)
Definition item_of_row (r : Z * Sqlite.row) : Item.t :=
  {| Item.id := r.1;
     Item.name := Sqlite.name r.2;
     Item.description := Sqlite.description r.2;
     Item.price := Sqlite.price r.2 |}.

Definition get_item (item_id : Z) (db : Sqlite.t) : option Item.t :=
  match Sqlite.select_by_id item_id db with
  | Some r => Some (item_of_row r)
  | None => None
  end.

(** The conditions that [list_items] appends to the query, in order, each
    with the value it appends to [params]. *)
Definition conditions (name_filter : option string) (min_price : option float)
    : list Sqlite.condition :=
  let query := [] in
  let query :=
    match name_filter with
    | Some f =>
        if Py.truthy_str f
        then query ++ [Sqlite.LowerNameLikeLower ("%" +:+ f +:+ "%")]
        else query
    | None => query
    end in
  let query :=
    match min_price with
    | Some m =>
        if Py.truthy_float m
        then query ++ [Sqlite.PriceGe (Sqlite.bind_float m)]
        else query
    | None => query
    end in
  query.

Definition list_items (name_filter : option string) (min_price : option float)
    (db : Sqlite.t) : list Item.t :=
  item_of_row
    <$> Sqlite.select_where_order_by_id (conditions name_filter min_price) db.

(** The values [(item.name, item.description, item.price)] bound to the
    three column parameters of [INSERT] and [UPDATE]. *)
Definition row_of_draft (item : ItemCreate.t) : Sqlite.row :=
  {| Sqlite.name := ItemCreate.name item;
     Sqlite.description := ItemCreate.description item;
     Sqlite.price := ItemCreate.price item |}.

Definition create_item (item_create : ItemCreate.t) (db : Sqlite.t)
    : Item.t * Sqlite.t :=
  let '(lastrowid, db) := Sqlite.insert (row_of_draft item_create) db in
  (Item.of_dump lastrowid (ItemCreate.model_dump item_create), db).

Definition update_item (item_id : Z) (item_update : ItemCreate.t)
    (db : Sqlite.t) : option Item.t * Sqlite.t :=
  let '(rowcount, db) :=
    Sqlite.update_by_id (row_of_draft item_update) item_id db in
  if 0 <? rowcount then (get_item item_id db, db) else (None, db).

Definition delete_item (item_id : Z) (db : Sqlite.t) : bool * Sqlite.t :=
  let '(rowcount, db) := Sqlite.delete_by_id item_id db in
  (0 <? rowcount, db).

End SQLiteRepository.

(** The methods as a caller meets them.  [db.execute] binds the parameters
    and then runs the statement: an id outside the signed 64-bit range
    raises [OverflowError] in the binding, and a name filter whose pattern
    [LIKE] refuses raises [OperationalError] in the run; in either case
    nothing was written.  The definitions of [SQLiteRepository] above say
    what the statement does once it runs. *)
#[export] Instance sqlite_repository : BaseRepository Sqlite.t := {
  get_item i db :=
    item_id ← Sqlite.bind_int i; Ok (SQLiteRepository.get_item item_id db);
  list_items nf mp db :=
    if Sqlite.like_fails (SQLiteRepository.conditions nf mp) db
    then Raise OperationalError
    else Ok (SQLiteRepository.list_items nf mp db);
  create_item d db := Ok (SQLiteRepository.create_item d db);
  update_item i d db :=
    item_id ← Sqlite.bind_int i; Ok (SQLiteRepository.update_item item_id d db);
  delete_item i db :=
    item_id ← Sqlite.bind_int i; Ok (SQLiteRepository.delete_item item_id db)
}.

(** ** app/config.py and app/dependencies.py *)

(** [class StorageType(str, Enum)]: each member is the string it is declared
    with, and compares equal to it. *)
Module StorageType.
Definition IN_MEMORY : string := "in_memory".
Definition SQLITE : string := "sqlite".
Definition REDIS : string := "redis".
End StorageType.

Record Settings := {
  STORAGE_TYPE : string;
  REDIS_URL : option string;
  SQLITE_DATABASE_URL : string
}.

(** A client of the Redis server at [url]. *)
Record RedisClient := { url : string }.

(** The schemes that the client knows. *)
Definition redis_scheme (u : string) : bool :=
  String.prefix "redis://" u || String.prefix "rediss://" u
  || String.prefix "unix://" u.

Definition scheme_message : string :=
  "Redis URL must specify one of the following schemes (redis://, rediss://, unix://)".

(** [Redis.from_url(url)]: no connection is made yet, but the URL is read,
    and [ValueError] is raised when it is [None] or names none of the
    schemes.  A URL that names one of them is taken as well-formed: the
    port and the options that may follow are not read here. *)
Definition from_url (u : option string) : result RedisClient :=
  match u with
  | Some u =>
      if redis_scheme u then Ok {| url := u |}
      else Raise (ValueError scheme_message)
  | None => Raise (ValueError scheme_message)
  end.

(** What [get_repository] yields: a new in-memory repository, a SQLite
    repository, or a Redis repository around the shared client. *)
Inductive repository :=
| InMemoryRepository_ (self : InMemoryRepository.t)
| SQLiteRepository_
| RedisRepository_ (redis_client : RedisClient).

(** [get_repository], with the module-level [_redis_client] passed in and
    out. *)
Definition get_repository (settings : Settings) (_redis_client : option RedisClient)
    : result repository * option RedisClient :=
  if String.eqb (STORAGE_TYPE settings) StorageType.IN_MEMORY then
    (Ok (InMemoryRepository_ InMemoryRepository.init), _redis_client)
  else if String.eqb (STORAGE_TYPE settings) StorageType.SQLITE then
    (Ok SQLiteRepository_, _redis_client)
  else if String.eqb (STORAGE_TYPE settings) StorageType.REDIS then
    match _redis_client with
    | None =>
        match from_url (REDIS_URL settings) with
        | Ok c => (Ok (RedisRepository_ c), Some c)
        | Raise e => (Raise e, None)
        end
    | Some c => (Ok (RedisRepository_ c), Some c)
    end
  else
    (Raise (ValueError (STORAGE_TYPE settings)), _redis_client).

(** ** Histories of calls *)

(** A call of the contract, and what it answered. *)
Inductive call :=
| Get (item_id : Z)
| List_ (name_filter : option string) (min_price : option float)
| Create (item : ItemCreate.t)
| Update (item_id : Z) (item : ItemCreate.t)
| Delete (item_id : Z).

Inductive reply :=
| Got (o : option Item.t)
| Listed (l : list Item.t)
| Created (item : Item.t)
| Updated (o : option Item.t)
| Deleted (b : bool).

Section histories.

Context {R : Type} `{BaseRepository R}.

Definition step (c : call) (s : R) : result (reply * R) :=
  match c with
  | Get i => o ← get_item i s; Ok (Got o, s)
  | List_ nf mp => l ← list_items nf mp s; Ok (Listed l, s)
  | Create d => '(it, s') ← create_item d s; Ok (Created it, s')
  | Update i d => '(o, s') ← update_item i d s; Ok (Updated o, s')
  | Delete i => '(b, s') ← delete_item i s; Ok (Deleted b, s')
  end.

(** Running a list of calls in order, from [s], keeping each call with its
    reply. *)
Fixpoint run (cs : list call) (s : R) : result (list (call * reply) * R) :=
  match cs with
  | [] => Ok ([], s)
  | c :: cs =>
      '(r, s) ← step c s;
      '(tr, s) ← run cs s;
      Ok ((c, r) :: tr, s)
  end.

(** The life of a store: the calls are made in order, whatever they answer.
    A call that returns is kept with its reply.  A call that raises is left
    out, and the store stays as it was: in each backend what raises (binding
    an id, [LIKE] on a row, validating what was read) comes before any
    write. *)
Fixpoint live (cs : list call) (s : R) : list (call * reply) * R :=
  match cs with
  | [] => ([], s)
  | c :: cs =>
      match step c s with
      | Ok (r, s') => let '(tr, s'') := live cs s' in ((c, r) :: tr, s'')
      | Raise _ => live cs s
      end
  end.

End histories.

(** The ids handed out by the creations of a history, oldest first. *)
Fixpoint created (tr : list (call * reply)) : list Z :=
  match tr with
  | [] => []
  | (_, Created it) :: tr => Item.id it :: created tr
  | _ :: tr => created tr
  end.

(** The ids whose deletion answered true. *)
Fixpoint deleted (tr : list (call * reply)) : list Z :=
  match tr with
  | [] => []
  | (Delete i, Deleted true) :: tr => i :: deleted tr
  | _ :: tr => deleted tr
  end.

(** ** Calls that the schema lets through *)

(** The draft of a creation or of an update satisfies the field
    constraints. *)
Definition valid_call (c : call) : Prop :=
  match c with
  | Create d | Update _ d => ItemCreate.valid d = true
  | _ => True
  end.

(** ** Drafts that read back as written *)

(** A draft that the schema lets through and whose price is finite.  The
    schema lets an infinite price through ([gt=0] holds of it), but
    [model_dump_json] writes a float that is not finite as [null], which
    [model_validate_json] rejects for [price]; so what is said below about
    reading back what was written is said of finite prices. *)
Definition storable (d : ItemCreate.t) : bool :=
  ItemCreate.valid d && PrimFloat.ltb (ItemCreate.price d) infinity.

Definition storable_call (c : call) : Prop :=
  match c with
  | Create d | Update _ d => storable d = true
  | _ => True
  end.

(** ** What each backend has to provide for the reasoning on histories *)

(** A backend comes with its empty store, the invariant that its stores keep
    through every call that returns, and the highest id it has handed out.
    It also says which calls it [accepts], the calls that return on a store
    that is [ready]: a call outside them may raise, and a call that returned
    may still leave a store on which a later call raises. *)
Class Backend (R : Type) `{BaseRepository R} := {
  init : R;
  inv : R → Prop;
  last_id : R → Z;
  ready : R → Prop;
  accepts : call → Prop
}.

(** The laws of one step, proved below for each backend: what a call that
    returned has done, and that an accepted call on a ready store returns. *)
Class BackendLaws (R : Type) `{Backend R} := {
  inv_init : inv init;
  ready_init : ready init;
  init_absent s i o : get_item i s = Ok o → get_item i init = Ok None;
  get_law s i it :
    inv s → get_item i s = Ok (Some it) → Item.id it = i ∧ i ≤ last_id s;
  create_law s d it s' :
    inv s → create_item d s = Ok (it, s') →
    it = Item.of_dump (last_id s + 1) (ItemCreate.model_dump d)
    ∧ inv s' ∧ last_id s' = last_id s + 1
    ∧ ∀ j, j ≠ last_id s + 1 → get_item j s' = get_item j s;
  update_law s i d o s' :
    inv s → update_item i d s = Ok (o, s') →
    inv s' ∧ last_id s' = last_id s
    ∧ (o = None ↔ get_item i s = Ok None)
    ∧ (o = None → s' = s)
    ∧ (∀ o', get_item i s' = Ok o' → o' = o)
    ∧ (∀ it, o = Some it → Item.id it = i)
    ∧ ∀ j, j ≠ i → get_item j s' = get_item j s;
  delete_law s i b s' :
    inv s → delete_item i s = Ok (b, s') →
    inv s' ∧ last_id s' = last_id s
    ∧ (b = false ↔ get_item i s = Ok None)
    ∧ (b = true → i ≤ last_id s)
    ∧ get_item i s' = Ok None
    ∧ ∀ j, j ≠ i → get_item j s' = get_item j s;
  get_ok s i :
    inv s → ready s → accepts (Get i) → ∃ o, get_item i s = Ok o;
  list_ok s nf mp :
    inv s → ready s → accepts (List_ nf mp) → ∃ l, list_items nf mp s = Ok l;
  create_ok s d :
    inv s → accepts (Create d) →
    ∃ it s', create_item d s = Ok (it, s') ∧ (ready s → ready s')
             ∧ (accepts (Get (Item.id it)) →
                get_item (Item.id it) s' = Ok (Some it));
  update_ok s i d :
    inv s → ready s → accepts (Update i d) →
    ∃ o s', update_item i d s = Ok (o, s') ∧ ready s'
            ∧ get_item i s' = Ok o;
  delete_ok s i :
    inv s → accepts (Delete i) →
    ∃ b s', delete_item i s = Ok (b, s') ∧ (ready s → ready s')
}.

(** The in-memory repository: ids are keys, below the counter.  It accepts
    every call. *)
#[export] Instance in_memory_backend : Backend InMemoryRepository.t := {
  init := InMemoryRepository.init;
  inv s :=
    ∀ k it, InMemoryRepository.items s !! k = Some it →
            Item.id it = k ∧ k < InMemoryRepository.next_id s;
  last_id s := InMemoryRepository.next_id s - 1;
  ready s := True;
  accepts c := True
}.

(** The calls that the SQLite repository accepts: an id is in the signed
    64-bit range, and the pattern of a name filter is within the limit of
    [LIKE]. *)
Definition sqlite_accepts (c : call) : Prop :=
  match c with
  | Get i | Update i _ | Delete i => Sqlite.bind_int i = Ok i
  | List_ (Some f) _ =>
      Sqlite.utf8_length ("%" +:+ f +:+ "%") ≤ Sqlite.like_pattern_limit
  | List_ None _ | Create _ => True
  end.

(** The SQLite database: no row id is above the recorded sequence. *)
#[export] Instance sqlite_backend : Backend Sqlite.t := {
  init := Sqlite.init;
  inv db :=
    0 ≤ Sqlite.sqlite_sequence db
    ∧ ∀ k r, Sqlite.items db !! k = Some r → k ≤ Sqlite.sqlite_sequence db;
  last_id db := Sqlite.sqlite_sequence db;
  ready db := True;
  accepts := sqlite_accepts
}.

(** The Redis keyspace: the counter key holds an integer when present, and
    every key under the item prefix holds the JSON text of the item whose id
    names the key, an id that the counter has reached.  It is ready when
    every item in it is readable, and the repository accepts the drafts that
    read back as written. *)
Definition redis_counter (db : Redis.t) : Z :=
  match Redis.keys db !! RedisRepository.next_id_key with
  | Some (Redis.Int n) => n
  | _ => 0
  end.

#[export] Instance redis_backend : Backend Redis.t := {
  init := Redis.init;
  inv db :=
    (∀ doc, Redis.keys db !! RedisRepository.next_id_key ≠ Some (Redis.Json doc))
    ∧ ∀ key v, Redis.keys db !! key = Some v →
               String.prefix RedisRepository.key_prefix key = true →
               ∃ it, v = Redis.Json it
                     ∧ key = RedisRepository.item_key (Item.id it)
                     ∧ Item.id it ≤ redis_counter db;
  last_id := redis_counter;
  ready db :=
    ∀ key it, Redis.keys db !! key = Some (Redis.Json it) →
              String.prefix RedisRepository.key_prefix key = true →
              Item.readable it = true;
  accepts := storable_call
}.

(** ** The claims of the contract, stated for any backend *)

Section contract.

Context (R : Type) `{Backend R}.

(** Partial update: on an existing id the stored record takes the fields the
    draft sets and keeps the others, and that record is both what [update]
    returns and what [get] returns afterwards. *)
Definition partial_update_contract : Prop :=
  ∀ (s : R) i d it,
    get_item i s = Ok (Some it) →
    ∃ it' s',
      update_item i d s = Ok (Some it', s')
      ∧ get_item i s' = Ok (Some it')
      ∧ Item.id it' = Item.id it
      ∧ Item.name it' = ItemCreate.name d
      ∧ Item.price it' = ItemCreate.price d
      ∧ Item.description it'
        = match ItemCreate.description_field d with
          | Unset => Item.description it
          | Given v => v
          end.

(** A minimum price equal to zero filters nothing. *)
Definition zero_min_price_contract : Prop :=
  ∀ (s : R) nf m,
    PrimFloat.eqb m 0 = true →
    list_items nf (Some m) s = list_items nf None s.

(** A minimum price [m] keeps, among the items [l0] listed without it,
    exactly those priced at least that much. *)
Definition min_price_bound (s : R) (nf : option string) (m : float)
    (l0 : list Item.t) : Prop :=
  ∃ l, list_items nf (Some m) s = Ok l
       ∧ ∀ it, it ∈ l ↔ it ∈ l0 ∧ PrimFloat.leb m (Item.price it) = true.

(** That is what a minimum price above zero does, when the items listed
    without it satisfy the price constraint of the schema. *)
Definition positive_min_price_contract : Prop :=
  ∀ (s : R) nf m l0,
    list_items nf None s = Ok l0 →
    (∀ it, it ∈ l0 → ItemCreate.valid_price (Item.price it) = true) →
    PrimFloat.ltb 0 m = true →
    min_price_bound s nf m l0.

(** An empty name filter filters nothing. *)
Definition empty_name_filter_contract : Prop :=
  ∀ (s : R) mp, list_items (Some EmptyString) mp s = list_items None mp s.

(** A name filter keeps, among the items listed without it, exactly those
    whose lowercased name contains the lowercased filter. *)
Definition name_filter_contract : Prop :=
  ∀ (s : R) f mp l0,
    list_items None mp s = Ok l0 →
    ∃ l, list_items (Some f) mp s = Ok l
         ∧ ∀ it, it ∈ l
                 ↔ it ∈ l0
                   ∧ Py.contains (Py.lower f) (Py.lower (Item.name it)) = true.

(** Updating an absent id answers [None] and leaves the store as it was. *)
Definition update_absent_contract : Prop :=
  ∀ (s : R) i d,
    get_item i s = Ok None → update_item i d s = Ok (None, s).

(** [delete] answers true exactly when the id was there, the id is gone
    afterwards, and deleting again answers false. *)
Definition delete_at (s : R) (i : Z) : Prop :=
  ∃ b s',
    delete_item i s = Ok (b, s')
    ∧ (b = true ↔ get_item i s ≠ Ok None)
    ∧ get_item i s' = Ok None
    ∧ delete_item i s' = Ok (false, s').

Definition delete_contract : Prop := ∀ (s : R) i, delete_at s i.

(** What one more call does to the ids when it returns, after a life with
    history [tr] that ended in store [s]. *)
Definition id_step (tr : list (call * reply)) (s : R) (c : call) : Prop :=
  ∀ r s',
    step c s = Ok (r, s') →
    last_id s ≤ last_id s'
    ∧ match c, r with
      | Create _, Created it =>
          (Item.id it ∉ created tr)
          ∧ last_id s < Item.id it
          ∧ last_id s' = Item.id it
      | Update i _, Updated o =>
          last_id s' = last_id s
          ∧ (∀ it, o = Some it → Item.id it = i)
          ∧ ∀ o', get_item i s' = Ok o' → o' = o
      | Delete _, Deleted _ => last_id s' = last_id s
      | Get _, Got _ | List_ _ _, Listed _ => s' = s
      | _, _ => False
      end.

(** Ids over the life of a backend, whatever the calls [cs] made on it from
    the empty store, those that raised included: the ids the creations
    returned are strictly increasing, so no id comes back, whatever was
    deleted in between; an item is read under the id it was created with;
    and the next call, when it returns, never lowers the highest id handed
    out, leaves it alone when it is an update or a delete, returns the id it
    was given when it is an update, and returns an id above the highest when
    it is a creation. *)
Definition id_history (cs : list call) : Prop :=
  let '(tr, s) := live cs init in
  StronglySorted Z.lt (created tr)
  ∧ (∀ i it, get_item i s = Ok (Some it) →
             Item.id it = i ∧ i ∈ created tr)
  ∧ ∀ c, id_step tr s c.

Definition id_contract : Prop := ∀ cs : list call, id_history cs.

(** Every call of [cs] returns, made in order from the empty store. *)
Definition all_return (cs : list call) : Prop := (live cs init).1.*1 = cs.

(** Creation after a life of calls [cs] from the empty store, all with valid
    drafts, for a valid draft that the backend accepts: the draft is stored
    under an id that no earlier creation returned, with the fields of the
    draft, and is read back as created; an id that was never created, or
    whose deletion answered true, reads as absent.  The two readings are
    said of the ids that the backend accepts in a [get]. *)
Definition create_after (cs : list call) (d : ItemCreate.t) : Prop :=
  let '(tr, s) := live cs init in
  ∃ it s',
    create_item d s = Ok (it, s')
    ∧ Item.name it = ItemCreate.name d
    ∧ Item.description it = ItemCreate.description d
    ∧ Item.price it = ItemCreate.price d
    ∧ (Item.id it ∉ created tr)
    ∧ (accepts (Get (Item.id it)) → get_item (Item.id it) s' = Ok (Some it))
    ∧ ∀ i, accepts (Get i) → (i ∉ created tr) ∨ i ∈ deleted tr →
           get_item i s = Ok None.

Definition create_contract : Prop :=
  ∀ (cs : list call) d,
    Forall valid_call cs → ItemCreate.valid d = true → accepts (Create d) →
    create_after cs d.

(** Listing without filters, after a life of calls [cs] from the empty
    store: when the listing returns, it holds exactly the items that [get]
    finds, among those whose id the backend accepts in a [get]. *)
Definition listed_store (cs : list call) : Prop :=
  let '(tr, s) := live cs init in
  ∀ l, list_items None None s = Ok l →
       ∀ it, accepts (Get (Item.id it)) →
             it ∈ l ↔ get_item (Item.id it) s = Ok (Some it).

Definition list_all_contract : Prop := ∀ cs : list call, listed_store cs.

(** What a run with history [tr] from a store [s] to a store [s'] keeps: the
    invariant holds at the end, the highest id did not go down, the ids
    created are strictly increasing and all above the ids handed out before,
    and an item found at the end was there at the start or created during
    the run, and its deletion never answered true. *)
Definition run_summary (s : R) (tr : list (call * reply)) (s' : R) : Prop :=
  inv s' ∧ (last_id s ≤ last_id s')
  ∧ StronglySorted Z.lt (created tr)
  ∧ (∀ i, i ∈ created tr → (last_id s < i ≤ last_id s'))
  ∧ (∀ i, get_item i s' ≠ Ok None →
          (i ∉ deleted tr) ∧ (get_item i s ≠ Ok None ∨ i ∈ created tr)).

End contract.

(** ** Plain name filters *)

(** The two characters that [LIKE] reads as wildcards. *)
Definition wildcard (c : ascii) : bool :=
  match c with
  | "%"%char | "_"%char => true
  | _ => false
  end.

(** A character below U+0080. *)
Definition ascii_char (c : ascii) : bool := (N_of_ascii c <? 128)%N.

(** Every character of [s] passes [P]. *)
Fixpoint all_chars (P : ascii → bool) (s : string) : bool :=
  match s with
  | EmptyString => true
  | String c s' => P c && all_chars P s'
  end.

(** A character from U+0001 to U+007F: ASCII, and not the U+0000 at which
    the engine stops reading a text. *)
Definition text_char (c : ascii) : bool :=
  (0 <? N_of_ascii c)%N && ascii_char c.

(** A filter of such characters, none of them a wildcard. *)
Definition plain (f : string) : bool :=
  all_chars (λ c, text_char c && negb (wildcard c)) f.

(** ** app/dependencies.py: connecting the shared client at startup *)

(** [connect_to_redis], with the module-level [_redis_client] passed in and
    out: outside Redis mode nothing happens; in Redis mode a client is built
    from [REDIS_URL], pinged, and dropped again when the ping raises.
    [Redis.from_url] is called outside the [try], so what it raises leaves
    the function, with the shared client as it was.  [ping c] tells whether
    [c.ping()] returns. *)
Definition connect_to_redis (settings : Settings) (ping : RedisClient → bool)
    (_redis_client : option RedisClient) : result unit * option RedisClient :=
  if String.eqb (STORAGE_TYPE settings) StorageType.REDIS then
    match from_url (REDIS_URL settings) with
    | Ok c => (Ok tt, if ping c then Some c else None)
    | Raise e => (Raise e, _redis_client)
    end
  else (Ok tt, _redis_client).

(** ** app/main.py: the endpoints *)

(** What an endpoint function does: it returns a value, raises
    [HTTPException] with a status code, or lets an exception of the
    repository through. *)
Inductive outcome (A : Type) :=
| Return (a : A)
| HTTPException (status_code : Z)
| Unhandled (e : exn).
Arguments Return {A} a.
Arguments HTTPException {A} status_code.
Arguments Unhandled {A} e.

Module Main.

Section endpoints.

Context {R : Type} `{BaseRepository R}.

(** Each endpoint, as a function of its parameters and of the repository it
    was given; the repository comes back as the call left it. *)
Definition create_item (item : ItemCreate.t) (repository : R)
    : outcome Item.t * R :=
  match create_item item repository with
  | Ok (created, repository) => (Return created, repository)
  | Raise e => (Unhandled e, repository)
  end.

Definition list_items (name_filter : option string) (min_price : option float)
    (repository : R) : outcome (list Item.t) * R :=
  match list_items name_filter min_price repository with
  | Ok items => (Return items, repository)
  | Raise e => (Unhandled e, repository)
  end.

Definition get_item (item_id : Z) (repository : R) : outcome Item.t * R :=
  match get_item item_id repository with
  | Ok (Some item) => (Return item, repository)
  | Ok None => (HTTPException 404, repository)
  | Raise e => (Unhandled e, repository)
  end.

Definition update_item (item_id : Z) (item : ItemCreate.t) (repository : R)
    : outcome Item.t * R :=
  match update_item item_id item repository with
  | Ok (Some updated_item, repository) => (Return updated_item, repository)
  | Ok (None, repository) => (HTTPException 404, repository)
  | Raise e => (Unhandled e, repository)
  end.

Definition delete_item (item_id : Z) (repository : R) : outcome unit * R :=
  match delete_item item_id repository with
  | Ok (true, repository) => (Return tt, repository)
  | Ok (false, repository) => (HTTPException 404, repository)
  | Raise e => (Unhandled e, repository)
  end.

End endpoints.

End Main.

(** ** app/main.py: the routes *)

(** A request, by route, with its path, query and body parameters already
    read: an id is an integer, a body is a draft. *)
Inductive request :=
| POST_items (item : ItemCreate.t)
| GET_items (name_filter : option string) (min_price : option float)
| GET_item (item_id : Z)
| PUT_item (item_id : Z) (item : ItemCreate.t)
| DELETE_item (item_id : Z).

(** The body of a response: an item, a list of items, nothing, or the
    description of an error. *)
Inductive content :=
| OneItem (item : Item.t)
| Items (items : list Item.t)
| NoContent
| Problem.

Record response := {
  status_code : Z;
  body : content
}.

(** The response to the outcome of an endpoint whose decorator sets the
    status code [success]: a raised [HTTPException] gives its own code, any
    other exception gives 500. *)
Definition respond {A} (success : Z) (to_body : A → content) (o : outcome A)
    : response :=
  match o with
  | Return a => {| status_code := success; body := to_body a |}
  | HTTPException code => {| status_code := code; body := Problem |}
  | Unhandled _ => {| status_code := 500; body := Problem |}
  end.

(** The routes of [create_fastapi_app], on a given repository. *)
Definition route {R : Type} `{BaseRepository R} (req : request) (repository : R)
    : response * R :=
  match req with
  | POST_items item =>
      let '(o, repository) := Main.create_item item repository in
      (respond 201 OneItem o, repository)
  | GET_items name_filter min_price =>
      let '(o, repository) := Main.list_items name_filter min_price repository in
      (respond 200 Items o, repository)
  | GET_item item_id =>
      let '(o, repository) := Main.get_item item_id repository in
      (respond 200 OneItem o, repository)
  | PUT_item item_id item =>
      let '(o, repository) := Main.update_item item_id item repository in
      (respond 200 OneItem o, repository)
  | DELETE_item item_id =>
      let '(o, repository) := Main.delete_item item_id repository in
      (respond 204 (λ _, NoContent) o, repository)
  end.

(** The constraints declared on the parameters: a body is an [ItemCreate],
    and [min_price] is [Query(None, gt=0)]. *)
Definition request_is_valid (req : request) : bool :=
  match req with
  | POST_items item | PUT_item _ item => ItemCreate.valid item
  | GET_items _ (Some min_price) => PrimFloat.ltb 0 min_price
  | GET_items _ None | GET_item _ | DELETE_item _ => true
  end.

(** The running application: the settings and the shared client, which are
    module globals, and the two stores outside the process, the SQLite file
    with its table created and the Redis server.  [sqlite_opens] tells
    whether [aiosqlite.connect(settings.SQLITE_DATABASE_URL)] succeeds: the
    setting is taken as a file name, not as a URL, so the default
    [sqlite:///./sqlite.db] names a file below a directory called [sqlite:],
    and opens only where that directory exists. *)
Record process := {
  config : Settings;
  redis_client : option RedisClient;
  sqlite_opens : bool;
  sqlite_file : Sqlite.t;
  redis_server : Redis.t
}.

(** One request: [Depends(get_repository)] runs first, and an exception in
    it is a 500; then the parameters are checked, and a failure is a 422;
    then the endpoint runs on the repository that was yielded.  An in-memory
    repository is dropped after the request.  Every method of the SQLite
    repository opens the database first, and what that raises is a 500. *)
Definition serve (req : request) (p : process) : response * process :=
  let '(repository, client) := get_repository (config p) (redis_client p) in
  let p :=
    {| config := config p; redis_client := client;
       sqlite_opens := sqlite_opens p;
       sqlite_file := sqlite_file p; redis_server := redis_server p |} in
  match repository with
  | Raise _ => ({| status_code := 500; body := Problem |}, p)
  | Ok repository =>
      if request_is_valid req then
        match repository with
        | InMemoryRepository_ self => ((route req self).1, p)
        | SQLiteRepository_ =>
            if sqlite_opens p then
              let '(resp, db) := route req (sqlite_file p) in
              (resp,
               {| config := config p; redis_client := redis_client p;
                  sqlite_opens := sqlite_opens p;
                  sqlite_file := db; redis_server := redis_server p |})
            else ({| status_code := 500; body := Problem |}, p)
        | RedisRepository_ _ =>
            let '(resp, db) := route req (redis_server p) in
            (resp,
             {| config := config p; redis_client := redis_client p;
                sqlite_opens := sqlite_opens p;
                sqlite_file := sqlite_file p; redis_server := db |})
        end
      else ({| status_code := 422; body := Problem |}, p)
  end.

(** Requests served one after the other. *)
Fixpoint serve_all (reqs : list request) (p : process)
    : list response * process :=
  match reqs with
  | [] => ([], p)
  | req :: reqs =>
      let '(resp, p) := serve req p in
      let '(resps, p) := serve_all reqs p in
      (resp :: resps, p)
  end.

(** The two storage modes in which the store outlives a request. *)
Definition persistent (p : process) : Prop :=
  STORAGE_TYPE (config p) = StorageType.SQLITE
  ∨ STORAGE_TYPE (config p) = StorageType.REDIS.

(** The client [c] is the one that a request in Redis mode works with: the
    shared client, or, when there is none, the one built from
    [REDIS_URL]. *)
Definition client_of (p : process) (c : RedisClient) : Prop :=
  redis_client p = Some c
  ∨ (redis_client p = None ∧ from_url (REDIS_URL (config p)) = Ok c).

(** The store of a persistent mode is within reach of a request: the SQLite
    file opens, or there is a client for the Redis server. *)
Definition within_reach (p : process) : Prop :=
  (STORAGE_TYPE (config p) = StorageType.SQLITE ∧ sqlite_opens p = true)
  ∨ (STORAGE_TYPE (config p) = StorageType.REDIS ∧ ∃ c, client_of p c).

(** ** Sample data *)

Definition laptop : ItemCreate.t :=
  {| ItemCreate.name := "Laptop";
     ItemCreate.description_field := Given (Some "Fast");
     ItemCreate.price := 1200.5 |}.

(** An update that names the item and its price and leaves [description]
    out. *)
Definition laptop_pro : ItemCreate.t :=
  {| ItemCreate.name := "Laptop Pro";
     ItemCreate.description_field := Unset;
     ItemCreate.price := 1200.5 |}.

Definition fruit (name : string) (price : float) : ItemCreate.t :=
  {| ItemCreate.name := name;
     ItemCreate.description_field := Unset;
     ItemCreate.price := price |}.

(** The in-memory repository after creating Apple, Orange and Pineapple. *)
Definition fruit_stand : InMemoryRepository.t :=
  let s := InMemoryRepository.init in
  let s := (InMemoryRepository.create_item (fruit "Apple" 10) s).2 in
  let s := (InMemoryRepository.create_item (fruit "Orange" 20) s).2 in
  (InMemoryRepository.create_item (fruit "Pineapple" 30) s).2.

(** The end-to-end scenario of the tests: create, update the name only,
    read, delete, read, delete again. *)
Definition scenario : list call :=
  [Create laptop; Update 1 laptop_pro; Get 1; Delete 1; Get 1; Delete 1].

(** The filtering scenario of the tests. *)
Definition filtering : list call :=
  [Create (fruit "Apple" 10); Create (fruit "Orange" 20);
   Create (fruit "Pineapple" 30);
   List_ (Some "apple") None; List_ None (Some 25%float);
   List_ (Some "apple") (Some 15%float); List_ (Some "grape") None].

(** The replies of a run, without the calls and the final store. *)
Definition replies {R} (r : result (list (call * reply) * R))
    : result (list reply) :=
  match r with
  | Ok (tr, _) => Ok tr.*2
  | Raise e => Raise e
  end.

(** Settings with a storage type that is none of the three. *)
Definition postgres_settings : Settings :=
  {| STORAGE_TYPE := "postgres";
     REDIS_URL := Some "redis://localhost:6379/0";
     SQLITE_DATABASE_URL := "sqlite:///./sqlite.db" |}.

(** Redis mode without a URL, and with an address that names no scheme. *)
Definition redis_without_url : Settings :=
  {| STORAGE_TYPE := "redis";
     REDIS_URL := None;
     SQLITE_DATABASE_URL := "sqlite:///./sqlite.db" |}.

Definition redis_without_scheme : Settings :=
  {| STORAGE_TYPE := "redis";
     REDIS_URL := Some "localhost:6379";
     SQLITE_DATABASE_URL := "sqlite:///./sqlite.db" |}.

(** The SQLite database after creating Apple, Orange and Pineapple. *)
Definition fruit_db : Sqlite.t :=
  let db := Sqlite.init in
  let db := (SQLiteRepository.create_item (fruit "Apple" 10) db).2 in
  let db := (SQLiteRepository.create_item (fruit "Orange" 20) db).2 in
  (SQLiteRepository.create_item (fruit "Pineapple" 30) db).2.

(** A Redis keyspace in which a key under the item prefix holds an integer
    instead of an item. *)
Definition foreign_keys : Redis.t :=
  {| Redis.keys := {[ "item:count" := Redis.Int 5 ]} |}.

(** A SQLite database holding one item named abc. *)
Definition abc_db : Sqlite.t :=
  (SQLiteRepository.create_item (fruit "abc" 1) Sqlite.init).2.

(** A SQLite database holding the laptop, with its description. *)
Definition laptop_db : Sqlite.t :=
  (SQLiteRepository.create_item laptop Sqlite.init).2.

(** A Redis keyspace holding the laptop, with its description. *)
Definition laptop_keys : Redis.t :=
  {| Redis.keys :=
       {[ "next_item_id" := Redis.Int 1;
          "item:1" := Redis.Json {| Item.id := 1; Item.name := "Laptop";
                                    Item.description := Some "Fast";
                                    Item.price := 1200.5 |} ]} |}.

(** A process in the given storage mode, before its first request, with the
    three fruits in a SQLite file that opens and an empty Redis server. *)
Definition fresh_process (storage_type : string) : process :=
  {| config :=
       {| STORAGE_TYPE := storage_type;
          REDIS_URL := Some "redis://localhost:6379/0";
          SQLITE_DATABASE_URL := "./sqlite.db" |};
     redis_client := None;
     sqlite_opens := true;
     sqlite_file := fruit_db;
     redis_server := Redis.init |}.

(** A valid draft at an infinite price. *)
Definition gold : ItemCreate.t :=
  {| ItemCreate.name := "Gold";
     ItemCreate.description_field := Unset;
     ItemCreate.price := infinity |}.

(** ** Further statements about the backends *)

Section further_contract.

Context (R : Type) `{Backend R}.

(** Two filters together keep exactly the items that each keeps alone. *)
Definition combined_filter_contract : Prop :=
  ∀ (s : R) nf mp l1 l2,
    list_items nf None s = Ok l1 →
    list_items None mp s = Ok l2 →
    ∃ l, list_items nf mp s = Ok l ∧ ∀ it, it ∈ l ↔ it ∈ l1 ∧ it ∈ l2.

(** What a partial update of the stored record [it] by the draft [d] does:
    the record takes the fields the draft sets and keeps the others, and is
    both what [update] returns and what [get] returns afterwards. *)
Definition partially_updated (s : R) (i : Z) (d : ItemCreate.t) (it : Item.t)
    : Prop :=
  ∃ it' s',
    update_item i d s = Ok (Some it', s')
    ∧ get_item i s' = Ok (Some it')
    ∧ Item.id it' = Item.id it
    ∧ Item.name it' = ItemCreate.name d
    ∧ Item.price it' = ItemCreate.price d
    ∧ Item.description it'
      = match ItemCreate.description_field d with
        | Unset => Item.description it
        | Given v => v
        end.

(** Repeating an update changes nothing more: same answer, same store. *)
Definition update_idempotent_contract : Prop :=
  ∀ (s : R) i d o s',
    update_item i d s = Ok (o, s') → update_item i d s' = Ok (o, s').

(** A call on one id leaves what [get] answers on every other id. *)
Definition frame_contract : Prop :=
  ∀ (s : R) i j d,
    j ≠ i →
    (∀ o s', update_item i d s = Ok (o, s') → get_item j s' = get_item j s)
    ∧ (∀ b s', delete_item i s = Ok (b, s') → get_item j s' = get_item j s)
    ∧ (∀ it s', create_item d s = Ok (it, s') → Item.id it = i →
                get_item j s' = get_item j s).

(** After a life of calls that the schema lets through, from the empty
    store, every item that [get] or a listing returns satisfies the field
    constraints. *)
Definition valid_history (cs : list call) : Prop :=
  let '(tr, s) := live cs init in
  (∀ i it, get_item i s = Ok (Some it) → Item.valid it = true)
  ∧ ∀ nf mp l it, list_items nf mp s = Ok l → it ∈ l →
                  Item.valid it = true.

Definition validity_contract : Prop :=
  ∀ cs : list call, Forall valid_call cs → valid_history cs.

(** Calls that the schema lets through and that the backend accepts all
    return, made in order from the empty store. *)
Definition return_contract : Prop :=
  ∀ cs : list call, Forall valid_call cs → Forall accepts cs → all_return R cs.

End further_contract.

(** ** Comparing two backends *)

(** Two replies are the same up to the order of a listing. *)
Definition same_reply (r1 r2 : reply) : Prop :=
  match r1, r2 with
  | Listed l1, Listed l2 => l1 ≡ₚ l2
  | _, _ => r1 = r2
  end.

(** Two stores that keep their invariants, hold the same items and have
    handed out the same ids. *)
Definition alike {R1 R2 : Type} `{Backend R1} `{Backend R2}
    (s1 : R1) (s2 : R2) : Prop :=
  inv s1 ∧ inv s2 ∧ last_id s1 = last_id s2
  ∧ ∀ i, get_item i s1 = get_item i s2.

(** Two backends answer alike: the same calls, with drafts that read back
    as written, run from the empty store of each, raise in neither and get
    the same replies, call by call. *)
Definition answer_alike (R1 R2 : Type) `{Backend R1} `{Backend R2} : Prop :=
  ∀ cs : list call,
    Forall storable_call cs →
    ∃ tr1 (s1 : R1) tr2 (s2 : R2),
      run cs init = Ok (tr1, s1)
      ∧ run cs init = Ok (tr2, s2)
      ∧ Forall2 same_reply tr1.*2 tr2.*2.

(** * Properties *)

(** ** The scenarios of the tests, run on the models *)

Example scenario_in_memory :
  replies (run (R:=InMemoryRepository.t) scenario init)
  = Ok [Created {| Item.id := 1; Item.name := "Laptop";
                   Item.description := Some "Fast"; Item.price := 1200.5 |};
        Updated (Some {| Item.id := 1; Item.name := "Laptop Pro";
                         Item.description := Some "Fast";
                         Item.price := 1200.5 |});
        Got (Some {| Item.id := 1; Item.name := "Laptop Pro";
                     Item.description := Some "Fast"; Item.price := 1200.5 |});
        Deleted true; Got None; Deleted false].
Proof. by vm_compute. Qed.

Example scenario_redis :
  replies (run (R:=Redis.t) scenario init)
  = replies (run (R:=InMemoryRepository.t) scenario init).
Proof. by vm_compute. Qed.

Example filtering_sqlite :
  replies (run (R:=Sqlite.t) filtering init)
  = Ok [Created {| Item.id := 1; Item.name := "Apple";
                   Item.description := None; Item.price := 10 |};
        Created {| Item.id := 2; Item.name := "Orange";
                   Item.description := None; Item.price := 20 |};
        Created {| Item.id := 3; Item.name := "Pineapple";
                   Item.description := None; Item.price := 30 |};
        Listed [{| Item.id := 1; Item.name := "Apple";
                   Item.description := None; Item.price := 10 |};
                {| Item.id := 3; Item.name := "Pineapple";
                   Item.description := None; Item.price := 30 |}];
        Listed [{| Item.id := 3; Item.name := "Pineapple";
                   Item.description := None; Item.price := 30 |}];
        Listed [{| Item.id := 3; Item.name := "Pineapple";
                   Item.description := None; Item.price := 30 |}];
        Listed []].
Proof. by vm_compute. Qed.

(** Calls that raise: in the Redis backend an item at an infinite price is
    created but does not read back, until it is deleted; in the SQLite
    backend an id outside 64 bits cannot be bound. *)
Example life_redis_infinite_price :
  (live [Create gold; Get 1; List_ None None; Update 1 laptop; Delete 1; Get 1]
     (init : Redis.t)).1
  = [(Create gold,
      Created {| Item.id := 1; Item.name := "Gold";
                 Item.description := None; Item.price := infinity |});
     (Delete 1, Deleted true); (Get 1, Got None)].
Proof. by vm_compute. Qed.

Example life_sqlite_big_id :
  (live [Create laptop; Get (2 ^ 63); Update (2 ^ 63) laptop_pro;
         Delete (- 2 ^ 63 - 1); Delete 1]
     (init : Sqlite.t)).1.*1
  = [Create laptop; Delete 1].
Proof. by vm_compute. Qed.

Example redis_mode_without_url :
  get_repository redis_without_url None
  = (Raise (ValueError scheme_message), None).
Proof. reflexivity. Qed.

Example filtering_redis :
  replies (run (R:=Redis.t) filtering init)
  = replies (run (R:=InMemoryRepository.t) filtering init).
Proof. by vm_compute. Qed.

(** ** Floats: what the comparisons used by the filters mean *)

Section float_facts.

Implicit Types x y z : spec_float.

Lemma SFcompare_swap x y : SFcompare y x = CompOpp <$> SFcompare x y.
Proof.
  destruct x as [[]|[]| |[] m1 e1], y as [[]|[]| |[] m2 e2];
    simpl; try reflexivity.
  all: rewrite (Z.compare_antisym e1 e2);
    destruct (e1 ?= e2); simpl; try reflexivity;
    rewrite !Pos.compare_cont_spec; simpl;
    rewrite (Pos.compare_antisym m1 m2); by destruct (m1 ?= m2)%positive.
Qed.

Lemma SFcompare_comparable z x y c1 c2 :
  SFcompare z x = Some c1 → SFcompare z y = Some c2 →
  ∃ c, SFcompare x y = Some c.
Proof.
  destruct z as [?|?| |? ? ?], x as [?|?| |? ? ?], y as [?|?| |? ? ?];
    simpl; intros; simplify_eq; eauto.
Qed.

Lemma SFcompare_self z x c : SFcompare z x = Some c → SFcompare x x = Some Eq.
Proof.
  destruct z as [?|?| |? ? ?], x as [?|[]| |[] mx ex];
    simpl; intros; simplify_eq; try reflexivity.
  all: rewrite Z.compare_refl, Pos.compare_cont_spec, Pos.compare_refl; done.
Qed.

Lemma ltb_compare (a b : float) :
  PrimFloat.ltb a b = true → SFcompare (Prim2SF a) (Prim2SF b) = Some Lt.
Proof.
  rewrite ltb_spec. unfold SFltb.
  destruct (SFcompare _ _) as [[]|]; congruence.
Qed.

(** A price that passes [gt=0] is not NaN. *)
Lemma valid_price_not_nan (p : float) :
  ItemCreate.valid_price p = true → PrimFloat.is_nan p = false.
Proof.
  intros Hp%ltb_compare. unfold PrimFloat.is_nan.
  rewrite FloatAxioms.eqb_spec. unfold SFeqb.
  by rewrite (SFcompare_self _ _ _ Hp).
Qed.

(** A float above zero is truthy. *)
Lemma positive_truthy (m : float) :
  PrimFloat.ltb 0 m = true → Py.truthy_float m = true.
Proof.
  intros Hm%ltb_compare. unfold Py.truthy_float.
  rewrite FloatAxioms.eqb_spec. unfold SFeqb.
  rewrite (SFcompare_swap (Prim2SF 0) (Prim2SF m)), Hm. done.
Qed.

(** On prices that pass [gt=0], and for a bound above zero, "not below the
    bound" is "at least the bound". *)
Lemma not_ltb_leb (p m : float) :
  ItemCreate.valid_price p = true → PrimFloat.ltb 0 m = true →
  negb (PrimFloat.ltb p m) = PrimFloat.leb m p.
Proof.
  intros Hp%ltb_compare Hm%ltb_compare.
  rewrite ltb_spec, leb_spec. unfold SFltb, SFleb.
  rewrite (SFcompare_swap (Prim2SF p) (Prim2SF m)).
  destruct (SFcompare_comparable _ _ _ _ _ Hp Hm) as [c ->].
  by destruct c.
Qed.

End float_facts.

(** ** The in-memory repository keeps the laws *)

Section in_memory_laws.

Import InMemoryRepository.

Implicit Types (s : InMemoryRepository.t) (i j : Z) (d : ItemCreate.t).

Lemma in_memory_get_create_eq s d :
  get_item (next_id s) (create_item d s).2 = Some (create_item d s).1.
Proof. unfold get_item, create_item; simpl. by rewrite lookup_insert_eq. Qed.

Lemma in_memory_get_create_ne s d j :
  j ≠ next_id s → get_item j (create_item d s).2 = get_item j s.
Proof.
  intros Hj. unfold get_item, create_item; simpl. by rewrite lookup_insert_ne.
Qed.

Lemma in_memory_update_absent s i d :
  get_item i s = None → update_item i d s = (None, s).
Proof. unfold get_item, update_item. by intros ->. Qed.

Lemma in_memory_update_present s i d it :
  get_item i s = Some it →
  update_item i d s
  = (Some (Item.model_copy it (ItemCreate.model_dump_exclude_unset d)),
     {| items := <[i := Item.model_copy it
                           (ItemCreate.model_dump_exclude_unset d)]> (items s);
        next_id := next_id s |}).
Proof. unfold get_item, update_item. by intros ->. Qed.

Lemma in_memory_delete_absent s i :
  get_item i s = None → delete_item i s = (false, s).
Proof. unfold get_item, delete_item. by intros ->. Qed.

Lemma in_memory_delete_present s i it :
  get_item i s = Some it →
  delete_item i s
  = (true, {| items := delete i (items s); next_id := next_id s |}).
Proof. unfold get_item, delete_item. by intros ->. Qed.

#[export] Instance in_memory_laws : BackendLaws InMemoryRepository.t.
Proof.
  split; simpl.
  - intros k it. by rewrite lookup_empty.
  - done.
  - done.
  - intros s i it Hinv [= Hit]. destruct (Hinv i it Hit). lia.
  - intros s d it s' Hinv [= <- <-].
    replace (next_id s - 1 + 1) with (next_id s) by lia. simpl. split_and!.
    + done.
    + intros k it. destruct (decide (k = next_id s)) as [->|Hk].
      * rewrite lookup_insert_eq. intros [= <-]. simpl. lia.
      * rewrite lookup_insert_ne by done. intros Hit.
        destruct (Hinv k it Hit). lia.
    + lia.
    + intros j Hj. unfold get_item; simpl. by rewrite lookup_insert_ne.
  - intros s i d o s' Hinv. destruct (get_item i s) as [it|] eqn:Hget.
    + rewrite (in_memory_update_present _ _ _ _ Hget). intros [= <- <-].
      simpl. split_and!.
      * intros k it'. destruct (decide (k = i)) as [->|Hk].
        -- rewrite lookup_insert_eq. intros [= <-]. simpl. by apply Hinv.
        -- rewrite lookup_insert_ne by done. apply Hinv.
      * done.
      * split; intros; simplify_eq.
      * done.
      * intros o'. unfold get_item; simpl. rewrite lookup_insert_eq.
        by intros [= <-].
      * intros it' [= <-]. simpl. by apply (Hinv i it).
      * intros j Hj. unfold get_item; simpl. by rewrite lookup_insert_ne.
    + rewrite (in_memory_update_absent _ _ _ Hget). intros [= <- <-].
      rewrite Hget. split_and!; try done. by intros o' [= <-].
  - intros s i b s' Hinv. destruct (get_item i s) as [it|] eqn:Hget.
    + rewrite (in_memory_delete_present _ _ _ Hget). intros [= <- <-].
      simpl. split_and!.
      * intros k it'. destruct (decide (k = i)) as [->|Hk].
        -- by rewrite lookup_delete_eq.
        -- rewrite lookup_delete_ne by done. apply Hinv.
      * done.
      * split; intros; simplify_eq.
      * intros _. destruct (Hinv i it Hget). lia.
      * unfold get_item; simpl. by rewrite lookup_delete_eq.
      * intros j Hj. unfold get_item; simpl. by rewrite lookup_delete_ne.
    + rewrite (in_memory_delete_absent _ _ Hget). intros [= <- <-].
      by rewrite Hget.
  - intros s i _ _ _. eauto.
  - intros s nf mp _ _ _. eauto.
  - intros s d _ _. do 2 eexists. split; [reflexivity|]. split; [done|].
    intros _. f_equal. unfold get_item; simpl. by rewrite lookup_insert_eq.
  - intros s i d _ _ _. destruct (get_item i s) as [it|] eqn:Hget.
    + rewrite (in_memory_update_present _ _ _ _ Hget).
      do 2 eexists. split; [reflexivity|]. split; [done|].
      f_equal. unfold get_item; simpl. by rewrite lookup_insert_eq.
    + rewrite (in_memory_update_absent _ _ _ Hget).
      do 2 eexists. split; [reflexivity|]. split; [done|]. by f_equal.
  - intros s i _ _. destruct (delete_item i s) as [b s'].
    exists b, s'. done.
Qed.

End in_memory_laws.

(** ** The SQLite repository keeps the laws *)

Section sqlite_laws.

Import SQLiteRepository.

Implicit Types (db : Sqlite.t) (i j : Z) (d : ItemCreate.t) (r : Sqlite.row).

Lemma sqlite_get_item_lookup db i :
  get_item i db = (λ r, item_of_row (i, r)) <$> Sqlite.items db !! i.
Proof.
  unfold get_item, Sqlite.select_by_id. by destruct (Sqlite.items db !! i).
Qed.

Lemma sqlite_get_item_None db i :
  get_item i db = None ↔ Sqlite.items db !! i = None.
Proof. rewrite sqlite_get_item_lookup. by destruct (Sqlite.items db !! i). Qed.

Lemma foldr_max_le (l : list Z) n :
  0 ≤ n → (∀ k, k ∈ l → k ≤ n) → foldr Z.max 0 l ≤ n.
Proof.
  intros Hn. induction l as [|k l IH]; simpl; intros Hl; [done|].
  apply Z.max_lub.
  - apply Hl. left.
  - apply IH. intros k' Hk'. apply Hl. by right.
Qed.

Lemma max_rowid_le db n :
  0 ≤ n → (∀ k r, Sqlite.items db !! k = Some r → k ≤ n) →
  Sqlite.max_rowid db ≤ n.
Proof.
  intros Hn Hkeys. apply foldr_max_le; [done|].
  intros k [[k' r] [-> Hkr]]%list_elem_of_fmap.
  apply elem_of_map_to_list in Hkr. eauto.
Qed.

Lemma sqlite_insert_rowid db r :
  inv db → (Sqlite.insert r db).1 = Sqlite.sqlite_sequence db + 1.
Proof.
  intros [Hseq Hkeys]. unfold Sqlite.insert; simpl.
  pose proof (max_rowid_le db _ Hseq Hkeys). lia.
Qed.

Lemma sqlite_update_absent db i d :
  get_item i db = None → update_item i d db = (None, db).
Proof.
  rewrite sqlite_get_item_None. unfold update_item, Sqlite.update_by_id.
  by intros ->.
Qed.

Lemma sqlite_update_present db i d it :
  get_item i db = Some it →
  update_item i d db
  = (Some (item_of_row (i, row_of_draft d)),
     {| Sqlite.items := <[i := row_of_draft d]> (Sqlite.items db);
        Sqlite.sqlite_sequence := Sqlite.sqlite_sequence db |}).
Proof.
  rewrite sqlite_get_item_lookup. unfold update_item, Sqlite.update_by_id.
  destruct (Sqlite.items db !! i); [|done]. intros _. simpl.
  rewrite sqlite_get_item_lookup. simpl. by rewrite lookup_insert_eq.
Qed.

Lemma sqlite_delete_absent db i :
  get_item i db = None → delete_item i db = (false, db).
Proof.
  rewrite sqlite_get_item_None. unfold delete_item, Sqlite.delete_by_id.
  by intros ->.
Qed.

Lemma sqlite_delete_present db i it :
  get_item i db = Some it →
  delete_item i db
  = (true, {| Sqlite.items := delete i (Sqlite.items db);
              Sqlite.sqlite_sequence := Sqlite.sqlite_sequence db |}).
Proof.
  rewrite sqlite_get_item_lookup. unfold delete_item, Sqlite.delete_by_id.
  by destruct (Sqlite.items db !! i).
Qed.

Lemma bind_int_cases i :
  Sqlite.bind_int i = Ok i ∨ Sqlite.bind_int i = Raise OverflowError.
Proof. unfold Sqlite.bind_int. destruct (_ && _); auto. Qed.

Lemma bind_int_Ok i j : Sqlite.bind_int i = Ok j → Sqlite.bind_int i = Ok i.
Proof. destruct (bind_int_cases i) as [->| ->]; done. Qed.

Lemma bind_int_range i :
  Sqlite.bind_int i = Ok i ↔ - 2 ^ 63 ≤ i < 2 ^ 63.
Proof.
  unfold Sqlite.bind_int.
  destruct (- 2 ^ 63 <=? i) eqn:Hlo, (i <? 2 ^ 63) eqn:Hhi; simpl;
    split; intros; try done; lia.
Qed.

Lemma sqlite_like_fails_price cs o db :
  Sqlite.like_fails (cs ++ [Sqlite.PriceGe o]) db = Sqlite.like_fails cs db.
Proof.
  unfold Sqlite.like_fails. rewrite existsb_app. simpl.
  by rewrite orb_false_r.
Qed.

(** Whether the query fails depends on the name filter and on the table, not
    on the minimum price. *)
Lemma sqlite_like_fails_name nf mp db :
  Sqlite.like_fails (conditions nf mp) db
  = Sqlite.like_fails (conditions nf None) db.
Proof.
  unfold conditions. destruct mp as [m|]; [|done].
  destruct (Py.truthy_float m); [|done]. apply sqlite_like_fails_price.
Qed.

Lemma sqlite_like_passes nf mp db :
  sqlite_accepts (List_ nf mp) →
  Sqlite.like_fails (conditions nf mp) db = false.
Proof.
  intros Hnf. rewrite sqlite_like_fails_name.
  unfold conditions, Sqlite.like_fails.
  destruct nf as [f|]; [|done]. destruct (Py.truthy_str f); [|done].
  simpl in *. rewrite orb_false_r.
  by rewrite (proj2 (Z.ltb_ge _ _) Hnf).
Qed.

#[export] Instance sqlite_laws : BackendLaws Sqlite.t.
Proof.
  split; simpl.
  - split; [done|]. intros k r. by rewrite lookup_empty.
  - done.
  - intros db i o. destruct (bind_int_cases i) as [->| ->]; [|done].
    simpl. intros _. done.
  - intros db i it [_ Hkeys].
    destruct (bind_int_cases i) as [->| ->]; [|done]. simpl.
    rewrite sqlite_get_item_lookup.
    destruct (Sqlite.items db !! i) as [r|] eqn:Hr; [|done].
    intros [= <-]. split; [done|]. eauto.
  - intros db d it db' Hinv.
    pose proof (sqlite_insert_rowid db (row_of_draft d) Hinv) as Hid.
    unfold create_item.
    destruct (Sqlite.insert (row_of_draft d) db) as [rowid db1] eqn:Hins.
    simpl in Hid. subst rowid. intros [= <- <-].
    unfold Sqlite.insert in Hins. injection Hins as Hrow <-.
    rewrite Hrow. simpl. destruct Hinv as [Hseq Hkeys]. split_and!.
    + done.
    + lia.
    + intros k r. destruct (decide (k = Sqlite.sqlite_sequence db + 1)) as [->|Hk].
      * done.
      * rewrite lookup_insert_ne by done. intros Hr%Hkeys. lia.
    + done.
    + intros j Hj. destruct (bind_int_cases j) as [->| ->]; [|done]. simpl.
      rewrite !sqlite_get_item_lookup. simpl. by rewrite lookup_insert_ne.
  - intros db i d o db' [Hseq Hkeys].
    destruct (bind_int_cases i) as [Hi|Hi]; rewrite Hi; [|done]. simpl.
    destruct (get_item i db) as [it|] eqn:Hget.
    + rewrite (sqlite_update_present _ _ _ _ Hget). intros [= <- <-].
      simpl. split_and!.
      * done.
      * intros k r. destruct (decide (k = i)) as [->|Hk].
        -- intros _. pose proof (sqlite_get_item_lookup db i) as Hget'.
           rewrite Hget in Hget'.
           destruct (Sqlite.items db !! i) as [r'|] eqn:Hr'; [|done]. eauto.
        -- rewrite lookup_insert_ne by done. apply Hkeys.
      * done.
      * split; intros; simplify_eq.
      * done.
      * intros o'. rewrite sqlite_get_item_lookup. simpl.
        rewrite lookup_insert_eq. by intros [= <-].
      * by intros it' [= <-].
      * intros j Hj. destruct (bind_int_cases j) as [->| ->]; [|done]. simpl.
        rewrite !sqlite_get_item_lookup. simpl. by rewrite lookup_insert_ne.
    + rewrite (sqlite_update_absent _ _ _ Hget). intros [= <- <-].
      rewrite Hget. split_and!; try done. by intros o' [= <-].
  - intros db i b db' [Hseq Hkeys].
    destruct (bind_int_cases i) as [Hi|Hi]; rewrite Hi; [|done]. simpl.
    destruct (get_item i db) as [it|] eqn:Hget.
    + rewrite (sqlite_delete_present _ _ _ Hget). intros [= <- <-].
      simpl. split_and!.
      * done.
      * intros k r. destruct (decide (k = i)) as [->|Hk].
        -- by rewrite lookup_delete_eq.
        -- rewrite lookup_delete_ne by done. apply Hkeys.
      * done.
      * split; intros; simplify_eq.
      * intros _. pose proof (sqlite_get_item_lookup db i) as Hget'.
        rewrite Hget in Hget'.
        destruct (Sqlite.items db !! i) as [r'|] eqn:Hr'; [|done]. eauto.
      * rewrite sqlite_get_item_lookup. simpl. by rewrite lookup_delete_eq.
      * intros j Hj. destruct (bind_int_cases j) as [->| ->]; [|done]. simpl.
        rewrite !sqlite_get_item_lookup. simpl. by rewrite lookup_delete_ne.
    + rewrite (sqlite_delete_absent _ _ Hget). intros [= <- <-].
      by rewrite Hget.
  - intros db i _ _ ->. simpl. eauto.
  - intros db nf mp _ _ Hnf. rewrite (sqlite_like_passes nf mp db Hnf). eauto.
  - intros db d _ _. unfold create_item.
    destruct (Sqlite.insert (row_of_draft d) db) as [rowid db1] eqn:Hins.
    do 2 eexists. split; [reflexivity|]. split; [done|]. simpl.
    intros ->. simpl. f_equal.
    unfold Sqlite.insert in Hins. injection Hins as <- <-.
    rewrite sqlite_get_item_lookup. simpl. by rewrite lookup_insert_eq.
  - intros db i d _ _ ->. simpl. destruct (get_item i db) as [it|] eqn:Hget.
    + rewrite (sqlite_update_present _ _ _ _ Hget).
      do 2 eexists. split; [reflexivity|]. split; [done|]. f_equal.
      rewrite sqlite_get_item_lookup. simpl. by rewrite lookup_insert_eq.
    + rewrite (sqlite_update_absent _ _ _ Hget).
      do 2 eexists. split; [reflexivity|]. split; [done|]. by f_equal.
  - intros db i _ ->. simpl. destruct (delete_item i db) as [b db'].
    exists b, db'. done.
Qed.

End sqlite_laws.

(** ** The Redis repository keeps the laws *)

Section redis_laws.

Import RedisRepository.

Implicit Types (db : Redis.t) (i j : Z) (d : ItemCreate.t).

(** Distinct ids have distinct keys, every item key is found by the scan of
    the prefix, and the counter key is not. *)
#[export] Instance item_key_inj : Inj (=) (=) item_key.
Proof.
  intros i j Hij. unfold item_key in Hij.
  by apply (inj pretty), (String.app_inj key_prefix).
Qed.

Lemma item_key_prefix i : String.prefix key_prefix (item_key i) = true.
Proof. unfold item_key, key_prefix. simpl. by destruct (pretty i). Qed.

Lemma next_id_key_prefix : String.prefix key_prefix next_id_key = false.
Proof. reflexivity. Qed.

Lemma item_key_not_counter i : item_key i ≠ next_id_key.
Proof.
  intros Heq. pose proof (item_key_prefix i) as Hp.
  rewrite Heq, next_id_key_prefix in Hp. done.
Qed.

Lemma redis_incr_counter db :
  (∀ doc, Redis.keys db !! next_id_key ≠ Some (Redis.Json doc)) →
  _get_next_id db
  = Ok (redis_counter db + 1,
        {| Redis.keys :=
             <[next_id_key := Redis.Int (redis_counter db + 1)]> (Redis.keys db) |}).
Proof.
  intros Hc. unfold _get_next_id, Redis.incr, redis_counter.
  destruct (Redis.keys db !! next_id_key) as [[n|doc]|] eqn:Hk; try done.
  by destruct (Hc doc).
Qed.

Lemma redis_get_item_None db i :
  get_item i db = Ok None ↔ Redis.keys db !! item_key i = None.
Proof.
  unfold get_item, Redis.get.
  destruct (Redis.keys db !! item_key i) as [[n|doc]|]; simpl;
    [|destruct (Item.readable doc)|]; simpl; split; done.
Qed.

Lemma redis_get_item_Some db i it :
  get_item i db = Ok (Some it)
  ↔ Redis.keys db !! item_key i = Some (Redis.Json it)
    ∧ Item.readable it = true.
Proof.
  unfold get_item, Redis.get.
  destruct (Redis.keys db !! item_key i) as [[n|doc]|]; simpl;
    [|destruct (Item.readable doc) eqn:Hdoc|]; simpl; split;
    try done; try (by intros [[=] _]).
  - by intros [= <-].
  - by intros [[= <-] _].
  - intros [[= <-] Hit]. congruence.
Qed.

Lemma redis_get_item_Json db i doc :
  Redis.keys db !! item_key i = Some (Redis.Json doc) →
  Item.readable doc = true →
  get_item i db = Ok (Some doc).
Proof. intros. by apply redis_get_item_Some. Qed.

(** What is under a key is read as what was written there, or not at all. *)
Lemma redis_get_item_written db i doc o :
  Redis.keys db !! item_key i = Some (Redis.Json doc) →
  get_item i db = Ok o → o = Some doc.
Proof.
  unfold get_item, Redis.get. intros ->. simpl.
  destruct (Item.readable doc); simpl; [|done]. by intros [= <-].
Qed.

Lemma redis_get_item_ext db db' i :
  Redis.keys db' !! item_key i = Redis.keys db !! item_key i →
  get_item i db' = get_item i db.
Proof. unfold get_item, Redis.get. by intros ->. Qed.

Lemma redis_update_absent db i d :
  get_item i db = Ok None → update_item i d db = Ok (None, db).
Proof. unfold update_item. by intros ->. Qed.

Lemma redis_update_present db i d it :
  get_item i db = Ok (Some it) →
  update_item i d db
  = Ok (Some (Item.model_copy it (ItemCreate.model_dump_exclude_unset d)),
        {| Redis.keys :=
             <[item_key i := Redis.Json
                 (Item.model_copy it (ItemCreate.model_dump_exclude_unset d))]>
               (Redis.keys db) |}).
Proof. unfold update_item. by intros ->. Qed.

Lemma redis_update_raises db i d e :
  get_item i db = Raise e → update_item i d db = Raise e.
Proof. unfold update_item. by intros ->. Qed.

Lemma redis_delete_absent db i :
  get_item i db = Ok None → delete_item i db = Ok (false, db).
Proof.
  rewrite redis_get_item_None. unfold delete_item, Redis.delete.
  by intros ->.
Qed.

Lemma redis_delete_present db i :
  get_item i db ≠ Ok None →
  delete_item i db
  = Ok (true, {| Redis.keys := delete (item_key i) (Redis.keys db) |}).
Proof.
  rewrite redis_get_item_None. unfold delete_item, Redis.delete.
  by destruct (Redis.keys db !! item_key i).
Qed.

(** A stored draft that reads back as written gives a readable item, and so
    does a readable item updated from one. *)
Lemma of_dump_readable n d :
  storable d = true →
  Item.readable (Item.of_dump n (ItemCreate.model_dump d)) = true.
Proof. done. Qed.

(** A copy updated from a valid draft is valid when the original was:
    [model_copy] does not validate, but every field it writes comes from the
    draft and the description it may keep comes from the original. *)
Lemma model_copy_valid it d :
  Item.valid it = true → ItemCreate.valid d = true →
  Item.valid (Item.model_copy it (ItemCreate.model_dump_exclude_unset d)) = true.
Proof.
  unfold Item.valid, ItemCreate.valid, ItemCreate.description,
    ItemCreate.model_dump_exclude_unset, Item.model_copy. simpl.
  intros [[_ Hd]%andb_true_iff _]%andb_true_iff
         [[Hn Hd']%andb_true_iff Hp]%andb_true_iff.
  rewrite Hn, Hp. destruct (ItemCreate.description_field d); simpl.
  - by rewrite Hd.
  - by rewrite Hd'.
Qed.

Lemma model_copy_readable it d :
  Item.readable it = true → storable d = true →
  Item.readable (Item.model_copy it (ItemCreate.model_dump_exclude_unset d))
  = true.
Proof.
  unfold Item.readable, storable.
  intros [Hit _]%andb_true_iff [Hd Hp]%andb_true_iff.
  by rewrite (model_copy_valid it d Hit Hd).
Qed.

(** Decoding the values of a list of keys succeeds when each key that is
    present holds the JSON text of a readable item. *)
Lemma redis_collect_total db nf mp (ks : list string) :
  (∀ k v, k ∈ ks → Redis.keys db !! k = Some v →
          ∃ it, v = Redis.Json it ∧ Item.readable it = true) →
  ∃ l, collect nf mp (Redis.mget ks db) = Ok l.
Proof.
  induction ks as [|k ks IH]; intros Hks; simpl; [by eauto|].
  destruct IH as [l Hl].
  { intros k' v Hk'. apply Hks. by right. }
  destruct (Redis.keys db !! k) as [v|] eqn:Hk; [|by eauto].
  destruct (Hks k v) as (it & -> & Hit); [by left|done|].
  simpl. rewrite Hit. simpl. fold (Redis.mget ks db). rewrite Hl. simpl. eauto.
Qed.

Lemma redis_scan_iter_elem db prefix k :
  k ∈ Redis.scan_iter prefix db
  ↔ is_Some (Redis.keys db !! k) ∧ String.prefix prefix k = true.
Proof.
  unfold Redis.scan_iter. rewrite list_elem_of_In, filter_In, <-list_elem_of_In.
  rewrite list_elem_of_fmap. split.
  - intros [[[k' v] [-> Hkv%elem_of_map_to_list]] Hp]. eauto.
  - intros [[v Hv] Hp]. split; [|done].
    exists (k, v). split; [done|]. by apply elem_of_map_to_list.
Qed.

Lemma redis_get_item_inv db i it :
  inv db → get_item i db = Ok (Some it) →
  Item.id it = i ∧ i ≤ redis_counter db.
Proof.
  intros [_ Hitems] [Hv _]%redis_get_item_Some.
  destruct (Hitems _ _ Hv (item_key_prefix i)) as (it' & [= <-] & Hkey & Hle).
  apply (inj item_key) in Hkey. by subst i.
Qed.

Lemma redis_get_item_ready db i :
  inv db → ready db → ∃ o, get_item i db = Ok o.
Proof.
  intros [_ Hitems] Hready.
  destruct (Redis.keys db !! item_key i) as [v|] eqn:Hv.
  - destruct (Hitems _ _ Hv (item_key_prefix i)) as (it & -> & _).
    exists (Some it). apply redis_get_item_Json; [done|].
    by apply (Hready (item_key i)), item_key_prefix.
  - exists None. by apply redis_get_item_None.
Qed.

Lemma redis_counter_set db i v :
  redis_counter (Redis.set (item_key i) v db) = redis_counter db.
Proof.
  unfold redis_counter, Redis.set. simpl.
  by rewrite lookup_insert_ne by apply item_key_not_counter.
Qed.

(** Writing an item under its own key keeps the invariant, provided the
    counter has reached its id. *)
Lemma redis_inv_set db it :
  inv db → Item.id it ≤ redis_counter db →
  inv (Redis.set (item_key (Item.id it)) (model_dump_json it) db).
Proof.
  intros [Hc Hitems] Hle. split.
  - intros doc. unfold Redis.set. simpl.
    by rewrite lookup_insert_ne by apply item_key_not_counter.
  - intros key v Hv Hp. rewrite redis_counter_set.
    unfold Redis.set in Hv. simpl in Hv.
    destruct (decide (key = item_key (Item.id it))) as [->|Hkey].
    + rewrite lookup_insert_eq in Hv. injection Hv as <-. by exists it.
    + rewrite lookup_insert_ne in Hv by done. eauto.
Qed.

Lemma redis_ready_set db i it :
  ready db → Item.readable it = true →
  ready (Redis.set (item_key i) (model_dump_json it) db).
Proof.
  intros Hready Hit key it' Hv Hp. unfold Redis.set in Hv. simpl in Hv.
  destruct (decide (key = item_key i)) as [->|Hkey].
  - rewrite lookup_insert_eq in Hv. by injection Hv as <-.
  - rewrite lookup_insert_ne in Hv by done. by apply (Hready key).
Qed.

Lemma redis_inv_incr db :
  inv db →
  inv {| Redis.keys :=
           <[next_id_key := Redis.Int (redis_counter db + 1)]> (Redis.keys db) |}.
Proof.
  intros [Hc Hitems]. split; simpl.
  - intros doc. by rewrite lookup_insert_eq.
  - intros key v Hv Hp. unfold redis_counter. simpl. rewrite lookup_insert_eq.
    destruct (decide (key = next_id_key)) as [->|Hkey].
    { by rewrite next_id_key_prefix in Hp. }
    rewrite lookup_insert_ne in Hv by done.
    destruct (Hitems _ _ Hv Hp) as (it & -> & -> & Hle).
    exists it. split_and!; [done..|]. unfold redis_counter in Hle. lia.
Qed.

Lemma redis_ready_incr db n :
  ready db →
  ready {| Redis.keys := <[next_id_key := Redis.Int n]> (Redis.keys db) |}.
Proof.
  intros Hready key it Hv Hp. simpl in Hv.
  destruct (decide (key = next_id_key)) as [->|Hkey].
  - by rewrite next_id_key_prefix in Hp.
  - rewrite lookup_insert_ne in Hv by done. by apply (Hready key).
Qed.

Lemma redis_inv_delete db i :
  inv db → inv {| Redis.keys := delete (item_key i) (Redis.keys db) |}.
Proof.
  intros [Hc Hitems].
  assert (Hcnt : redis_counter
            {| Redis.keys := delete (item_key i) (Redis.keys db) |}
          = redis_counter db).
  { unfold redis_counter. simpl.
    by rewrite lookup_delete_ne by apply item_key_not_counter. }
  split; simpl.
  - intros doc. by rewrite lookup_delete_ne by apply item_key_not_counter.
  - intros key v Hv Hp. rewrite Hcnt.
    destruct (decide (key = item_key i)) as [->|Hkey].
    + by rewrite lookup_delete_eq in Hv.
    + rewrite lookup_delete_ne in Hv by done. eauto.
Qed.

Lemma redis_ready_delete db i :
  ready db → ready {| Redis.keys := delete (item_key i) (Redis.keys db) |}.
Proof.
  intros Hready key it Hv Hp. simpl in Hv.
  destruct (decide (key = item_key i)) as [->|Hkey].
  - by rewrite lookup_delete_eq in Hv.
  - rewrite lookup_delete_ne in Hv by done. by apply (Hready key).
Qed.

(** What a creation does, given the invariant. *)
Lemma redis_create_item db d :
  inv db →
  create_item d db
  = Ok (Item.of_dump (redis_counter db + 1) (ItemCreate.model_dump d),
        Redis.set (item_key (redis_counter db + 1))
          (model_dump_json
             (Item.of_dump (redis_counter db + 1) (ItemCreate.model_dump d)))
          {| Redis.keys :=
               <[next_id_key := Redis.Int (redis_counter db + 1)]>
                 (Redis.keys db) |}).
Proof.
  intros [Hc _]. unfold create_item. by rewrite (redis_incr_counter db Hc).
Qed.

#[export] Instance redis_laws : BackendLaws Redis.t.
Proof.
  split.
  - split; [intros doc|intros key v]; simpl; by rewrite lookup_empty.
  - intros key it. simpl. by rewrite lookup_empty.
  - intros db i o _. simpl. unfold get_item, Redis.get. simpl.
    by rewrite lookup_empty.
  - intros db i it. apply redis_get_item_inv.
  - intros db d it db' Hinv. simpl. rewrite (redis_create_item db d Hinv).
    intros [= <- <-].
    set (n := redis_counter db + 1).
    set (db1 := {| Redis.keys := <[next_id_key := Redis.Int n]> (Redis.keys db) |}).
    assert (Hn : redis_counter db1 = n).
    { unfold redis_counter, db1. simpl. by rewrite lookup_insert_eq. }
    set (it := Item.of_dump n (ItemCreate.model_dump d)).
    change n with (Item.id it) at 2.
    refine (conj _ (conj _ (conj _ _))).
    + done.
    + apply redis_inv_set; [by apply redis_inv_incr|]. rewrite Hn. simpl. lia.
    + by rewrite redis_counter_set.
    + intros j Hj. apply redis_get_item_ext. unfold Redis.set. simpl.
      rewrite lookup_insert_ne by (by intros ?%(inj item_key)).
      rewrite lookup_insert_ne; [done|].
      intros Heq. by apply (item_key_not_counter j).
  - intros db i d o db' Hinv. simpl.
    destruct (get_item i db) as [[it|]|e] eqn:Hget.
    + rewrite (redis_update_present _ _ _ _ Hget). intros [= <- <-].
      destruct (redis_get_item_inv db i it Hinv Hget) as [<- Hle].
      set (it' := Item.model_copy it (ItemCreate.model_dump_exclude_unset d)).
      refine (conj _ (conj _ (conj _ (conj _ (conj _ (conj _ _)))))).
      * by apply (redis_inv_set db it').
      * apply (redis_counter_set db).
      * split; intros; simplify_eq.
      * done.
      * intros o'. apply redis_get_item_written. simpl.
        by rewrite lookup_insert_eq.
      * by intros it0 [= <-].
      * intros j Hj. apply redis_get_item_ext. simpl.
        by rewrite lookup_insert_ne by (by intros ?%(inj item_key)).
    + rewrite (redis_update_absent _ _ _ Hget). intros [= <- <-].
      refine (conj Hinv (conj eq_refl (conj _ (conj _ (conj _ (conj _ _))))));
        [done|done| |done..].
      intros o' Hget'. rewrite Hget in Hget'. by injection Hget' as <-.
    + by rewrite (redis_update_raises _ _ _ _ Hget).
  - intros db i b db' Hinv. simpl.
    destruct (Redis.keys db !! item_key i) as [v|] eqn:Hv.
    + assert (get_item i db ≠ Ok None) as Hget.
      { rewrite redis_get_item_None, Hv. done. }
      rewrite (redis_delete_present _ _ Hget). intros [= <- <-].
      refine (conj _ (conj _ (conj _ (conj _ (conj _ _))))).
      * by apply redis_inv_delete.
      * unfold redis_counter. simpl.
        by rewrite lookup_delete_ne by apply item_key_not_counter.
      * split; intros; simplify_eq.
      * intros _. destruct Hinv as [_ Hitems].
        destruct (Hitems _ _ Hv (item_key_prefix i)) as (it & _ & Hkey & Hle).
        apply (inj item_key) in Hkey. by subst i.
      * apply redis_get_item_None. simpl. by rewrite lookup_delete_eq.
      * intros j Hj. apply redis_get_item_ext. simpl.
        by rewrite lookup_delete_ne by (by intros ?%(inj item_key)).
    + apply redis_get_item_None in Hv.
      rewrite (redis_delete_absent _ _ Hv). intros [= <- <-].
      by rewrite Hv.
  - intros db i Hinv Hready _. by apply redis_get_item_ready.
  - intros db nf mp [_ Hitems] Hready _. simpl. unfold list_items.
    destruct (Redis.scan_iter key_prefix db) as [|k ks] eqn:Hscan; [by eauto|].
    rewrite <-Hscan. apply redis_collect_total.
    intros k' v [_ Hp]%redis_scan_iter_elem Hv.
    destruct (Hitems _ _ Hv Hp) as (it & -> & _). exists it. split; [done|].
    by apply (Hready k').
  - intros db d Hinv Hd. simpl in Hd. simpl.
    rewrite (redis_create_item db d Hinv). do 2 eexists.
    split; [reflexivity|]. split.
    + intros Hready. apply redis_ready_set; [by apply redis_ready_incr|].
      by apply of_dump_readable.
    + intros _. apply redis_get_item_Json.
      * unfold Redis.set. simpl. by rewrite lookup_insert_eq.
      * by apply of_dump_readable.
  - intros db i d Hinv Hready Hd. simpl in Hd. simpl.
    destruct (redis_get_item_ready db i Hinv Hready) as [[it|] Hget].
    + rewrite (redis_update_present _ _ _ _ Hget).
      pose proof (proj1 (redis_get_item_Some _ _ _) Hget) as [_ Hit].
      do 2 eexists. split; [reflexivity|]. split.
      * apply (redis_ready_set db i); [done|].
        by apply model_copy_readable.
      * apply redis_get_item_Json.
        -- simpl. by rewrite lookup_insert_eq.
        -- by apply model_copy_readable.
    + rewrite (redis_update_absent _ _ _ Hget). eauto.
  - intros db i Hinv _. simpl.
    destruct (Redis.keys db !! item_key i) as [v|] eqn:Hv.
    + assert (get_item i db ≠ Ok None) as Hget.
      { rewrite redis_get_item_None, Hv. done. }
      rewrite (redis_delete_present _ _ Hget). do 2 eexists.
      split; [reflexivity|]. apply redis_ready_delete.
    + apply redis_get_item_None in Hv.
      rewrite (redis_delete_absent _ _ Hv). eauto.
Qed.

End redis_laws.

(** ** Histories on a lawful backend *)

Section history_facts.

Context {R : Type} `{BackendLaws R}.

Implicit Types (s : R) (i j : Z) (tr : list (call * reply)).

(** A step that returned, taken apart. *)
Lemma step_Ok c s r s' :
  step c s = Ok (r, s') →
  match c with
  | Get i => ∃ o, get_item i s = Ok o ∧ r = Got o ∧ s' = s
  | List_ nf mp => ∃ l, list_items nf mp s = Ok l ∧ r = Listed l ∧ s' = s
  | Create d => ∃ it, create_item d s = Ok (it, s') ∧ r = Created it
  | Update i d => ∃ o, update_item i d s = Ok (o, s') ∧ r = Updated o
  | Delete i => ∃ b, delete_item i s = Ok (b, s') ∧ r = Deleted b
  end.
Proof.
  destruct c as [i|nf mp|d|i d|i]; simpl.
  - destruct (get_item i s) as [o|e]; simpl; [|done]. intros [= <- <-]. eauto.
  - destruct (list_items nf mp s) as [l|e]; simpl; [|done].
    intros [= <- <-]. eauto.
  - destruct (create_item d s) as [[it s1]|e]; simpl; [|done].
    intros [= <- <-]. eauto.
  - destruct (update_item i d s) as [[o s1]|e]; simpl; [|done].
    intros [= <- <-]. eauto.
  - destruct (delete_item i s) as [[b s1]|e]; simpl; [|done].
    intros [= <- <-]. eauto.
Qed.

Lemma run_cons c cs s tr s' :
  run (c :: cs) s = Ok (tr, s') →
  ∃ r s1 tr1,
    step c s = Ok (r, s1) ∧ run cs s1 = Ok (tr1, s') ∧ tr = (c, r) :: tr1.
Proof.
  simpl. destruct (step c s) as [[r s1]|e]; simpl; [|done].
  destruct (run cs s1) as [[tr1 s2]|e] eqn:Hrun; simpl; [|done].
  intros [= <- <-]. by exists r, s1, tr1.
Qed.

(** A step that returned keeps the invariant and does not lower the highest
    id. *)
Lemma step_inv c s r s' :
  inv s → step c s = Ok (r, s') → inv s' ∧ last_id s ≤ last_id s'.
Proof.
  intros Hinv Hstep%step_Ok. destruct c as [i|nf mp|d|i d|i].
  - destruct Hstep as (o & _ & _ & ->). split; [done|lia].
  - destruct Hstep as (l & _ & _ & ->). split; [done|lia].
  - destruct Hstep as (it & Hc & _).
    destruct (create_law s d it s' Hinv Hc) as (_ & ? & ? & _).
    split; [done|lia].
  - destruct Hstep as (o & Hu & _).
    destruct (update_law s i d o s' Hinv Hu) as (? & ? & _).
    split; [done|lia].
  - destruct Hstep as (b & Hd & _).
    destruct (delete_law s i b s' Hinv Hd) as (? & ? & _).
    split; [done|lia].
Qed.

(** What a run that returned has done. *)
Lemma run_lawful (cs : list call) s tr s' :
  inv s → run cs s = Ok (tr, s') → tr.*1 = cs ∧ run_summary R s tr s'.
Proof.
  revert s tr. induction cs as [|c cs IH]; intros s tr Hinv.
  { intros [= <- <-]. split; [done|].
    unfold run_summary.
    refine (conj Hinv (conj _ (conj _ (conj _ _)))); simpl.
    - lia.
    - constructor.
    - by intros i ?%elem_of_nil.
    - intros i Hi. split; [by intros ?%elem_of_nil|by left]. }
  intros (r & s1 & tr1 & Hstep & Hrun & ->)%run_cons.
  destruct (step_inv c s r s1 Hinv Hstep) as [Hinv1 Hle1].
  destruct (IH s1 tr1 Hinv1 Hrun) as [<- Hsum].
  split; [done|].
  destruct Hsum as (Hinv' & Hle & Hsorted & Hrange & Hfound).
  apply step_Ok in Hstep. destruct c as [i|nf mp|d|i d|i].
  - destruct Hstep as (o & _ & -> & ->). done.
  - destruct Hstep as (l & _ & -> & ->). done.
  - destruct Hstep as (it & Hc & ->).
    destruct (create_law s d it s1 Hinv Hc) as (-> & _ & Hlast & Hold).
    unfold run_summary; simpl. split_and!.
    + done.
    + lia.
    + constructor; [done|]. apply Forall_forall. intros j Hj%Hrange. lia.
    + intros j [->|Hj%Hrange]%elem_of_cons; lia.
    + intros j Hj. destruct (Hfound j Hj) as [Hdel [Hs1|Hc']].
      * split; [done|]. destruct (decide (j = last_id s + 1)) as [->|Hne].
        -- right. left.
        -- left. by rewrite <-(Hold j Hne).
      * split; [done|]. right. by right.
  - destruct Hstep as (o & Hu & ->).
    destruct (update_law s i d o s1 Hinv Hu)
      as (_ & Hlast & Hsame & Hnone & _ & _ & Hold).
    unfold run_summary; simpl. split_and!.
    + done.
    + lia.
    + done.
    + intros j Hj%Hrange. lia.
    + intros j Hj. destruct (Hfound j Hj) as [Hdel [Hs1|Hc']].
      * split; [done|]. left. destruct (decide (j = i)) as [->|Hne].
        -- intros Habs. pose proof (proj2 Hsame Habs) as Ho.
           rewrite (Hnone Ho) in Hs1. done.
        -- by rewrite <-(Hold j Hne).
      * split; [done|]. by right.
  - destruct Hstep as (b & Hd & ->).
    destruct (delete_law s i b s1 Hinv Hd)
      as (_ & Hlast & Hb & Hbound & Hgone & Hold).
    unfold run_summary; simpl. split_and!.
    + done.
    + lia.
    + by destruct b.
    + intros j Hj. assert (Hj' : j ∈ created tr1) by by destruct b.
      apply Hrange in Hj'. lia.
    + intros j Hj. destruct (Hfound j Hj) as [Hdel [Hs1|Hc']].
      * assert (Hne : j ≠ i) by (by intros ->).
        split; [|left; by rewrite <-(Hold j Hne)].
        destruct b; [|done]. by intros [->|?]%elem_of_cons.
      * split; [|by right]. destruct b; [|done].
        intros [->|?]%elem_of_cons; [|done].
        pose proof (Hbound eq_refl). apply Hrange in Hc'. lia.
Qed.

(** A life is the run of the calls that returned. *)
Lemma live_run (cs : list call) s : run (live cs s).1.*1 s = Ok (live cs s).
Proof.
  revert s. induction cs as [|c cs IH]; intros s; simpl; [done|].
  destruct (step c s) as [[r s1]|e] eqn:Hstep; [|apply IH].
  specialize (IH s1). destruct (live cs s1) as [tr s2].
  cbn [fst snd] in *. rewrite fmap_cons. cbn [fst run]. rewrite Hstep.
  cbn [mbind result_bind]. by rewrite IH.
Qed.

Lemma live_lawful (cs : list call) s :
  inv s → run_summary R s (live cs s).1 (live cs s).2.
Proof.
  intros Hinv. pose proof (live_run cs s) as Hrun.
  destruct (live cs s) as [tr s'] eqn:Hlive. simpl in *.
  by destruct (run_lawful _ _ _ _ Hinv Hrun).
Qed.

(** Accepted calls on a ready store all return, and leave it ready. *)
Lemma step_accepted c s :
  inv s → ready s → accepts c →
  ∃ r s', step c s = Ok (r, s') ∧ ready s'.
Proof.
  intros Hinv Hready Hc. destruct c as [i|nf mp|d|i d|i]; simpl.
  - destruct (get_ok s i Hinv Hready Hc) as [o ->]. simpl. eauto.
  - destruct (list_ok s nf mp Hinv Hready Hc) as [l ->]. simpl. eauto.
  - destruct (create_ok s d Hinv Hc) as (it & s' & -> & Hr & _). simpl. eauto.
  - destruct (update_ok s i d Hinv Hready Hc) as (o & s' & -> & Hr & _).
    simpl. eauto.
  - destruct (delete_ok s i Hinv Hc) as (b & s' & -> & Hr). simpl. eauto.
Qed.

Lemma live_accepted (cs : list call) s :
  inv s → ready s → Forall accepts cs →
  run cs s = Ok (live cs s) ∧ ready (live cs s).2.
Proof.
  intros Hinv Hready Hcs. revert s Hinv Hready.
  induction Hcs as [|c cs Hc _ IH]; intros s Hinv Hready; simpl; [done|].
  destruct (step_accepted c s Hinv Hready Hc) as (r & s1 & Hstep & Hready1).
  rewrite Hstep. simpl.
  destruct (step_inv c s r s1 Hinv Hstep) as [Hinv1 _].
  destruct (IH s1 Hinv1 Hready1) as [-> Hready2].
  destruct (live cs s1) as [tr s2]. done.
Qed.

End history_facts.

(** ** Ids and creation on a lawful backend *)

Section lawful_contracts.

Context {R : Type} `{BackendLaws R}.

(** What is found at the end of a life was created during it, and its
    deletion never answered true. *)
Lemma found_was_created (cs : list call) (i : Z) :
  get_item i (live cs init).2 ≠ Ok None → get_item i init = Ok None →
  i ∈ created (live cs init).1 ∧ i ∉ deleted (live cs init).1.
Proof.
  intros Hget Hinit.
  destruct (live_lawful cs init inv_init) as (_ & _ & _ & _ & Hfound).
  by destruct (Hfound i Hget) as [Hdel [Hinit'|Hc]].
Qed.

(** An id that was never created, or whose deletion answered true, reads as
    absent, when the backend accepts it in a [get]. *)
Lemma absent_reads_none (cs : list call) (i : Z) :
  accepts (Get i) →
  (i ∉ created (live cs init).1) ∨ i ∈ deleted (live cs init).1 →
  get_item i (live cs init).2 = Ok None.
Proof.
  intros Hi Hgone.
  destruct (get_ok init i inv_init ready_init Hi) as [o0 Hget0].
  apply init_absent in Hget0.
  destruct (get_item i (live cs init).2) as [[it|]|e] eqn:Hget; [|done|].
  - destruct (found_was_created cs i); [by rewrite Hget|done|].
    by destruct Hgone.
  - destruct (found_was_created cs i); [by rewrite Hget|done|].
    by destruct Hgone.
Qed.

Lemma lawful_id_step (s : R) tr c :
  inv s → (∀ i, i ∈ created tr → i ≤ last_id s) → id_step R tr s c.
Proof.
  intros Hinv Hrange r s' Hstep.
  destruct (step_inv c s r s' Hinv Hstep) as [_ Hle]. split; [done|].
  apply step_Ok in Hstep. destruct c as [i|nf mp|d|i d|i].
  - by destruct Hstep as (o & _ & -> & ->).
  - by destruct Hstep as (l & _ & -> & ->).
  - destruct Hstep as (it & Hc & ->).
    destruct (create_law s d it s' Hinv Hc) as (-> & _ & Hlast & _). simpl.
    split_and!; [|lia|lia]. intros Hc'%Hrange. lia.
  - destruct Hstep as (o & Hu & ->).
    destruct (update_law s i d o s' Hinv Hu)
      as (_ & Hlast & _ & _ & Hnew & Hid & _).
    done.
  - destruct Hstep as (b & Hd & ->).
    by destruct (delete_law s i b s' Hinv Hd) as (_ & Hlast & _).
Qed.

Lemma lawful_id_contract : id_contract R.
Proof.
  intros cs. unfold id_history.
  pose proof (live_lawful cs init inv_init) as Hsum.
  pose proof (found_was_created cs) as Hfound.
  destruct (live cs init) as [tr s]. simpl in *.
  destruct Hsum as (Hinv & _ & Hsorted & Hrange & _).
  split_and!; [done| |].
  - intros i it Hget. split.
    + by destruct (get_law s i it Hinv Hget).
    + destruct (Hfound i); [by rewrite Hget|by apply (init_absent s i _ Hget)|].
      done.
  - intros c. apply lawful_id_step; [done|]. intros i Hi%Hrange. lia.
Qed.

Lemma lawful_all_return (cs : list call) :
  Forall accepts cs → all_return R cs.
Proof.
  intros Hcs. unfold all_return.
  destruct (live_accepted cs init inv_init ready_init Hcs) as [Hrun _].
  destruct (live cs init) as [tr s] eqn:Hlive.
  by destruct (run_lawful cs init tr s inv_init Hrun).
Qed.

Lemma lawful_create_contract : create_contract R.
Proof.
  intros cs d _ _ Hd. unfold create_after.
  pose proof (live_lawful cs init inv_init) as Hsum.
  pose proof (absent_reads_none cs) as Habsent.
  destruct (live cs init) as [tr s]. simpl in *.
  destruct Hsum as (Hinv & _ & _ & Hrange & _).
  destruct (create_ok s d Hinv Hd) as (it & s1 & Hcreate & _ & Hnew).
  destruct (create_law s d it s1 Hinv Hcreate) as (Hit & _).
  exists it, s1. rewrite Hit in *. split_and!; [done..| | |done].
  - simpl. intros Hc%Hrange. lia.
  - done.
Qed.

End lawful_contracts.


(** ** Listing by scanning and filtering (in-memory and Redis) *)

Lemma contains_empty s : Py.contains EmptyString s = true.
Proof. by destruct s. Qed.

Lemma item_matches_all it : item_matches None None it = true.
Proof. reflexivity. Qed.

Lemma item_matches_name f mp it :
  item_matches (Some f) mp it
  = item_matches None mp it
    && Py.contains (Py.lower f) (Py.lower (Item.name it)).
Proof.
  unfold item_matches. destruct f as [|c f]; simpl.
  - rewrite contains_empty. symmetry. apply andb_true_r.
  - destruct (Py.contains _ _); simpl.
    + symmetry. apply andb_true_r.
    + symmetry. apply andb_false_r.
Qed.

Lemma item_matches_price nf m it :
  item_matches nf (Some m) it
  = item_matches nf None it
    && negb (Py.truthy_float m && PrimFloat.ltb (Item.price it) m).
Proof.
  unfold item_matches.
  destruct nf as [f|]; [destruct (Py.truthy_str f && _)|];
    by destruct (Py.truthy_float m && PrimFloat.ltb (Item.price it) m).
Qed.

Lemma item_matches_zero nf m it :
  PrimFloat.eqb m 0 = true →
  item_matches nf (Some m) it = item_matches nf None it.
Proof.
  intros Hm. rewrite item_matches_price. unfold Py.truthy_float.
  rewrite Hm. simpl. apply andb_true_r.
Qed.

Lemma item_matches_positive nf m it :
  ItemCreate.valid_price (Item.price it) = true → PrimFloat.ltb 0 m = true →
  item_matches nf (Some m) it
  = item_matches nf None it && PrimFloat.leb m (Item.price it).
Proof.
  intros Hp Hm. rewrite item_matches_price.
  by rewrite (positive_truthy m Hm), <-(not_ltb_leb _ _ Hp Hm).
Qed.

Lemma elem_of_list_filter {A} (f : A → bool) (l : list A) x :
  x ∈ List.filter f l ↔ x ∈ l ∧ f x = true.
Proof. by rewrite !list_elem_of_In, filter_In. Qed.

Section scan_and_filter.

Context {R : Type} `{Backend R}.

(** The shape of a listing that fetches every item and runs the filter loop
    on each. *)
Hypothesis list_items_scan : ∀ nf mp (s : R),
  list_items nf mp s
  = all ← list_items None None s; Ok (List.filter (item_matches nf mp) all).

Lemma scan_zero_min_price : zero_min_price_contract R.
Proof.
  intros s nf m Hm. rewrite (list_items_scan nf (Some m)), (list_items_scan nf None).
  destruct (list_items None None s) as [all|e]; simpl; [|done]. f_equal.
  apply filter_ext. intros it. by apply item_matches_zero.
Qed.

Lemma scan_positive_min_price : positive_min_price_contract R.
Proof.
  intros s nf m l0 Hl0 Hvalid Hm. unfold min_price_bound.
  rewrite (list_items_scan nf (Some m)). rewrite (list_items_scan nf None) in Hl0.
  destruct (list_items None None s) as [all|e]; simpl in *; [|done].
  injection Hl0 as <-. eexists; split; [reflexivity|]. intros it.
  rewrite !elem_of_list_filter. split.
  - intros [Hall Hmatch].
    assert (item_matches nf None it = true) as Hnf.
    { rewrite item_matches_price in Hmatch. by apply andb_true_iff in Hmatch as []. }
    rewrite item_matches_positive in Hmatch; [|apply Hvalid|done].
    + apply andb_true_iff in Hmatch as []. done.
    + by apply elem_of_list_filter.
  - intros [[Hall Hnf] Hle]. split; [done|].
    rewrite item_matches_positive; [|apply Hvalid|done].
    + by rewrite Hnf, Hle.
    + by apply elem_of_list_filter.
Qed.

Lemma scan_empty_name_filter : empty_name_filter_contract R.
Proof.
  intros s mp.
  by rewrite (list_items_scan (Some EmptyString) mp), (list_items_scan None mp).
Qed.

Lemma scan_name_filter : name_filter_contract R.
Proof.
  intros s f mp l0 Hl0.
  rewrite (list_items_scan (Some f) mp). rewrite (list_items_scan None mp) in Hl0.
  destruct (list_items None None s) as [all|e]; simpl in *; [|done].
  injection Hl0 as <-. eexists; split; [reflexivity|]. intros it.
  rewrite !elem_of_list_filter, item_matches_name, andb_true_iff. tauto.
Qed.

End scan_and_filter.

Lemma in_memory_list_items_scan nf mp (s : InMemoryRepository.t) :
  list_items nf mp s
  = all ← list_items None None s; Ok (List.filter (item_matches nf mp) all).
Proof.
  simpl. unfold InMemoryRepository.list_items. f_equal.
  induction (InMemoryRepository.values s) as [|it l IH]; simpl; [done|].
  by rewrite <-IH.
Qed.

Lemma redis_collect_scan nf mp (data : list (option Redis.value)) :
  RedisRepository.collect nf mp data
  = all ← RedisRepository.collect None None data;
    Ok (List.filter (item_matches nf mp) all).
Proof.
  induction data as [|[[n|it]|] data IH]; simpl; [done..| |done].
  destruct (Item.readable it); simpl; [|done].
  rewrite IH. destruct (RedisRepository.collect None None data); simpl; [|done].
  done.
Qed.

Lemma redis_list_items_scan nf mp (db : Redis.t) :
  list_items nf mp db
  = all ← list_items None None db; Ok (List.filter (item_matches nf mp) all).
Proof.
  simpl. unfold RedisRepository.list_items.
  destruct (Redis.scan_iter _ db); [done|]. apply redis_collect_scan.
Qed.

(** ** Listing through a SQL query (SQLite) *)

Section sqlite_listing.

Import SQLiteRepository.

Implicit Types (db : Sqlite.t) (r : Sqlite.row) (cs : list Sqlite.condition).

Lemma and3_true a b : Sqlite.and3 a b = Some true ↔ a = Some true ∧ b = Some true.
Proof. destruct a as [[]|], b as [[]|]; simpl; split; intros; intuition congruence. Qed.

Lemma where_true cs r :
  Sqlite.where_ cs r = true
  ↔ foldl (λ acc c, Sqlite.and3 acc (Sqlite.eval c r)) (Some true) cs = Some true.
Proof.
  unfold Sqlite.where_. destruct (foldl _ _ _) as [[]|]; split; congruence.
Qed.

Lemma where_snoc cs c r :
  Sqlite.where_ (cs ++ [c]) r = true
  ↔ Sqlite.where_ cs r = true ∧ Sqlite.eval c r = Some true.
Proof. rewrite !where_true, foldl_app. simpl. by rewrite and3_true. Qed.

(** The rows of a listing are the rows of the table on which the conditions
    hold. *)
Lemma sqlite_select_elem cs db (kr : Z * Sqlite.row) :
  kr ∈ Sqlite.select_where_order_by_id cs db
  ↔ Sqlite.items db !! kr.1 = Some kr.2 ∧ Sqlite.where_ cs kr.2 = true.
Proof.
  unfold Sqlite.select_where_order_by_id.
  rewrite merge_sort_Permutation, elem_of_list_filter.
  destruct kr as [k r]. by rewrite elem_of_map_to_list.
Qed.

Lemma sqlite_list_items_elem nf mp db it :
  it ∈ list_items nf mp db
  ↔ ∃ k r, it = item_of_row (k, r) ∧ Sqlite.items db !! k = Some r
           ∧ Sqlite.where_ (conditions nf mp) r = true.
Proof.
  unfold list_items. rewrite list_elem_of_fmap. split.
  - intros [[k r] [-> Hkr%sqlite_select_elem]]. by exists k, r.
  - intros (k & r & -> & Hkr). exists (k, r). split; [done|].
    by apply sqlite_select_elem.
Qed.

Lemma sqlite_conditions_zero nf m :
  PrimFloat.eqb m 0 = true → conditions nf (Some m) = conditions nf None.
Proof. intros Hm. unfold conditions, Py.truthy_float. by rewrite Hm. Qed.

Lemma sqlite_conditions_positive nf m :
  PrimFloat.ltb 0 m = true →
  conditions nf (Some m) = conditions nf None ++ [Sqlite.PriceGe (Some m)].
Proof.
  intros Hm. unfold conditions, Sqlite.bind_float.
  by rewrite (positive_truthy m Hm), (valid_price_not_nan m Hm).
Qed.

End sqlite_listing.

Section sqlite_query.

Implicit Types (db : Sqlite.t).

Lemma sqlite_list_items_query nf mp db :
  list_items nf mp db
  = if Sqlite.like_fails (SQLiteRepository.conditions nf mp) db then Raise OperationalError
    else Ok (SQLiteRepository.list_items nf mp db).
Proof. reflexivity. Qed.

Lemma sqlite_zero_min_price : zero_min_price_contract Sqlite.t.
Proof.
  intros db nf m Hm. rewrite !sqlite_list_items_query. unfold SQLiteRepository.list_items.
  by rewrite (sqlite_conditions_zero nf m Hm).
Qed.

(** A listing of the SQLite repository that returned is the result of the
    query. *)
Lemma sqlite_list_items_Ok nf mp db l :
  list_items nf mp db = Ok l →
  Sqlite.like_fails (SQLiteRepository.conditions nf None) db = false ∧ l = SQLiteRepository.list_items nf mp db.
Proof.
  simpl. rewrite sqlite_like_fails_name.
  destruct (Sqlite.like_fails _ db); [done|]. by intros [= <-].
Qed.

Lemma sqlite_list_items_passes nf mp db :
  Sqlite.like_fails (SQLiteRepository.conditions nf None) db = false →
  list_items nf mp db = Ok (SQLiteRepository.list_items nf mp db).
Proof. intros Hnf. simpl. by rewrite sqlite_like_fails_name, Hnf. Qed.

Lemma sqlite_positive_min_price : positive_min_price_contract Sqlite.t.
Proof.
  intros db nf m l0 [Hnf ->]%sqlite_list_items_Ok _ Hm.
  unfold min_price_bound. rewrite (sqlite_list_items_passes _ _ _ Hnf).
  eexists; split; [reflexivity|]. intros it.
  rewrite !sqlite_list_items_elem. rewrite (sqlite_conditions_positive nf m Hm).
  split.
  - intros (k & r & -> & Hr & [Hw Hge]%where_snoc). split; [by exists k, r|].
    simpl in *. by injection Hge.
  - intros [(k & r & -> & Hr & Hw) Hge]. exists k, r. split_and!; [done..|].
    apply where_snoc. split; [done|]. simpl in *. by rewrite Hge.
Qed.

End sqlite_query.

Section sqlite_order.

Import SQLiteRepository.

Implicit Types (db : Sqlite.t) (r : Sqlite.row) (cs : list Sqlite.condition).

Lemma sqlite_empty_name_filter : empty_name_filter_contract Sqlite.t.
Proof. intros db mp. reflexivity. Qed.

(** [ORDER BY id]: the ids of a listing go strictly up. *)
#[local] Instance by_id_trans : Transitive Sqlite.by_id.
Proof. intros a b c. unfold Sqlite.by_id. lia. Qed.

#[local] Instance by_id_total : Total Sqlite.by_id.
Proof. intros a b. unfold Sqlite.by_id. lia. Qed.

Lemma sorted_nodup_strict (l : list (Z * Sqlite.row)) :
  StronglySorted Sqlite.by_id l → NoDup l.*1 →
  StronglySorted (λ a b, a.1 < b.1) l.
Proof.
  induction 1 as [|a l Hl IH Ha]; simpl; intros Hnd; [constructor|].
  apply NoDup_cons in Hnd as [Hnotin Hnd]. constructor; [by apply IH|].
  apply Forall_forall. intros b Hb.
  pose proof (proj1 (Forall_forall _ _) Ha b Hb) as Hab. unfold Sqlite.by_id in Hab.
  assert (a.1 ≠ b.1).
  { intros Heq. apply Hnotin. rewrite Heq. by apply list_elem_of_fmap_2. }
  lia.
Qed.

Lemma sqlite_select_nodup cs db :
  NoDup (Sqlite.select_where_order_by_id cs db).*1.
Proof.
  unfold Sqlite.select_where_order_by_id. rewrite merge_sort_Permutation.
  pose proof (NoDup_fst_map_to_list (Sqlite.items db)) as Hnd.
  induction (map_to_list (Sqlite.items db)) as [|kr l IH]; simpl; [constructor|].
  simpl in Hnd. apply NoDup_cons in Hnd as [Hnotin Hnd].
  destruct (Sqlite.where_ cs kr.2); simpl; [|by apply IH].
  apply NoDup_cons. split; [|by apply IH].
  intros [kr' [Heq [Hin _]%elem_of_list_filter]]%list_elem_of_fmap.
  apply Hnotin. rewrite Heq. by apply list_elem_of_fmap_2.
Qed.

Lemma sqlite_list_items_sorted nf mp db :
  StronglySorted (λ a b, Item.id a < Item.id b) (list_items nf mp db).
Proof.
  unfold list_items.
  apply (StronglySorted_fmap _ (λ a b : Z * Sqlite.row, a.1 < b.1)); [done|].
  apply sorted_nodup_strict; [|apply sqlite_select_nodup].
  apply (StronglySorted_merge_sort _).
Qed.

End sqlite_order.

(** ** What LIKE does on a plain filter (SQLite) *)

Section sqlite_like.

Import SQLiteRepository.

Lemma lower_char_ascii c :
  ascii_char c = true → Sqlite.lower_char c = Py.lower_char c.
Proof. destruct c as [[] [] [] [] [] [] [] []]; by vm_compute. Qed.

Lemma lower_char_idemp c :
  Sqlite.lower_char (Sqlite.lower_char c) = Sqlite.lower_char c.
Proof. destruct c as [[] [] [] [] [] [] [] []]; by vm_compute. Qed.

Lemma lower_char_wildcard c : wildcard (Sqlite.lower_char c) = wildcard c.
Proof. destruct c as [[] [] [] [] [] [] [] []]; reflexivity. Qed.

Lemma sqlite_lower_ascii s :
  all_chars ascii_char s = true → Sqlite.lower s = Py.lower s.
Proof.
  induction s as [|c s IH]; simpl; [done|].
  intros [Hc Hs]%andb_true_iff. by rewrite (lower_char_ascii c Hc), IH.
Qed.

Lemma append_cons c s t : String c s +:+ t = String c (s +:+ t).
Proof. reflexivity. Qed.

Lemma append_nil t : EmptyString +:+ t = t.
Proof. reflexivity. Qed.

Lemma sqlite_lower_append s t :
  Sqlite.lower (s +:+ t) = Sqlite.lower s +:+ Sqlite.lower t.
Proof.
  induction s as [|c s IH]; [done|].
  rewrite append_cons. cbn [Sqlite.lower]. by rewrite IH, append_cons.
Qed.

Lemma like_plain_char c q s :
  wildcard c = false →
  Sqlite.like (String c q) s
  = match s with
    | EmptyString => false
    | String d s' =>
        bool_decide (Sqlite.lower_char c = Sqlite.lower_char d)
        && Sqlite.like q s'
    end.
Proof.
  destruct c as [[] [] [] [] [] [] [] []]; intros Hc;
    first [discriminate Hc | reflexivity].
Qed.

Lemma like_percent q s :
  Sqlite.like (String "%" q) s
  = Sqlite.like q s
    || match s with
       | EmptyString => false
       | String _ s' => Sqlite.like (String "%" q) s'
       end.
Proof. by destruct s. Qed.

Lemma like_percent_only s : Sqlite.like "%" s = true.
Proof.
  induction s as [|c s IH]; [done|]. rewrite like_percent. simpl.
  exact IH.
Qed.

Lemma like_prefix f x :
  all_chars (λ c, negb (wildcard c)) f = true →
  Sqlite.like (Sqlite.lower f +:+ "%") (Sqlite.lower x)
  = String.prefix (Sqlite.lower f) (Sqlite.lower x).
Proof.
  revert x. induction f as [|c f IH]; intros x; cbn [all_chars Sqlite.lower].
  - intros _. change (EmptyString +:+ "%") with "%". rewrite like_percent_only.
    by destruct (Sqlite.lower x).
  - intros [Hc Hf]%andb_true_iff. apply negb_true_iff in Hc.
    rewrite append_cons, like_plain_char by (by rewrite lower_char_wildcard).
    destruct x as [|d x]; cbn [Sqlite.lower String.prefix]; [done|].
    rewrite !lower_char_idemp, (IH x Hf).
    destruct (Ascii.ascii_dec _ _) as [Heq|Hne].
    + by rewrite bool_decide_eq_true_2.
    + by rewrite bool_decide_eq_false_2.
Qed.

Lemma like_contains f x :
  all_chars (λ c, negb (wildcard c)) f = true →
  Sqlite.like (String "%" (Sqlite.lower f +:+ "%")) (Sqlite.lower x)
  = Py.contains (Sqlite.lower f) (Sqlite.lower x).
Proof.
  intros Hf. induction x as [|d x IH].
  - rewrite like_percent, (like_prefix f "" Hf).
    cbn [Sqlite.lower Py.contains]. by rewrite !orb_false_r.
  - rewrite like_percent, (like_prefix f _ Hf).
    cbn [Sqlite.lower Py.contains]. by rewrite <-IH.
Qed.

Lemma text_char_ascii c : text_char c = true → ascii_char c = true.
Proof. by intros [_ ?]%andb_true_iff. Qed.

Lemma all_chars_impl (P Q : ascii → bool) (HPQ : ∀ c, P c = true → Q c = true) s :
  all_chars P s = true → all_chars Q s = true.
Proof.
  induction s as [|c s IH]; simpl; [done|].
  intros [Hc Hs]%andb_true_iff. by rewrite (HPQ c Hc), IH.
Qed.

Lemma plain_split f :
  plain f = true →
  all_chars text_char f = true
  ∧ all_chars (λ c, negb (wildcard c)) f = true.
Proof.
  unfold plain. induction f as [|c f IH]; simpl; [done|].
  intros [[Ha Hw]%andb_true_iff Hf]%andb_true_iff.
  destruct (IH Hf) as [-> ->]. by rewrite Ha, Hw.
Qed.

Lemma lower_char_text c :
  text_char c = true → (N_of_ascii (Sqlite.lower_char c) =? 0)%N = false.
Proof. destruct c as [[] [] [] [] [] [] [] []]; by vm_compute. Qed.

(** A text without U+0000 is read whole. *)
Lemma c_str_lower_text s :
  all_chars text_char s = true →
  Sqlite.c_str (Sqlite.lower s) = Sqlite.lower s.
Proof.
  induction s as [|c s IH]; simpl; [done|].
  intros [Hc Hs]%andb_true_iff. by rewrite (lower_char_text c Hc), IH.
Qed.

Lemma all_chars_append P s t :
  all_chars P (s +:+ t) = all_chars P s && all_chars P t.
Proof.
  induction s as [|c s IH]; [done|].
  rewrite append_cons. cbn [all_chars]. by rewrite IH, andb_assoc.
Qed.

Lemma sqlite_like_is_substring f name :
  plain f = true → all_chars text_char name = true →
  Sqlite.like (Sqlite.c_str (Sqlite.lower ("%" +:+ f +:+ "%")))
    (Sqlite.c_str (Sqlite.lower name))
  = Py.contains (Py.lower f) (Py.lower name).
Proof.
  intros [Ha Hw]%plain_split Hname.
  rewrite (c_str_lower_text name Hname), c_str_lower_text.
  2:{ change ("%" +:+ f +:+ "%") with (String "%" (f +:+ "%")).
      cbn [all_chars]. by rewrite all_chars_append, Ha. }
  change ("%" +:+ f +:+ "%") with (String "%" (f +:+ "%")).
  cbn [Sqlite.lower]. rewrite sqlite_lower_append.
  change (Sqlite.lower_char "%") with "%"%char.
  change (Sqlite.lower "%") with "%".
  rewrite (like_contains f name Hw).
  rewrite (sqlite_lower_ascii f), (sqlite_lower_ascii name); [done|..];
    by apply (all_chars_impl text_char ascii_char text_char_ascii).
Qed.

Lemma where_forall cs r :
  Sqlite.where_ cs r = true ↔ Forall (λ c, Sqlite.eval c r = Some true) cs.
Proof.
  induction cs as [|c cs IH] using rev_ind.
  - split; [constructor|done].
  - rewrite where_snoc, IH, Forall_app, Forall_singleton. done.
Qed.

Lemma sqlite_conditions_name f mp :
  conditions (Some f) mp
  = (if Py.truthy_str f
     then [Sqlite.LowerNameLikeLower ("%" +:+ f +:+ "%")] else [])
    ++ conditions None mp.
Proof.
  unfold conditions.
  destruct (Py.truthy_str f); [|done].
  destruct mp as [m|]; [|done]. by destruct (Py.truthy_float m).
Qed.

Lemma sqlite_plain_name_filter (db : Sqlite.t) f mp it :
  plain f = true →
  (∀ k r, Sqlite.items db !! k = Some r →
          all_chars text_char (Sqlite.name r) = true) →
  it ∈ list_items (Some f) mp db
  ↔ it ∈ list_items None mp db
    ∧ Py.contains (Py.lower f) (Py.lower (Item.name it)) = true.
Proof.
  intros Hf Hnames. rewrite !sqlite_list_items_elem, sqlite_conditions_name.
  assert (∀ r, all_chars text_char (Sqlite.name r) = true →
            (Sqlite.where_
               ((if Py.truthy_str f
                 then [Sqlite.LowerNameLikeLower ("%" +:+ f +:+ "%")] else [])
                ++ conditions None mp) r = true
             ↔ Sqlite.where_ (conditions None mp) r = true
               ∧ Py.contains (Py.lower f) (Py.lower (Sqlite.name r)) = true))
    as Hwhere.
  { intros r Hr. rewrite !where_forall, Forall_app.
    destruct f as [|c f]; cbn [Py.truthy_str].
    - rewrite contains_empty. split; [by intros [_ ?]|by intros [? _]].
    - rewrite Forall_singleton. cbn [Sqlite.eval].
      rewrite (sqlite_like_is_substring _ _ Hf Hr). split.
      + intros [[= Hc] ?]. done.
      + intros [? Hc]. split; [|done]. f_equal. exact Hc. }
  split.
  - intros (k & r & -> & Hr & Hw). apply Hwhere in Hw as [Hw Hc]; [|by eauto].
    split; [by exists k, r|done].
  - intros [(k & r & -> & Hr & Hw) Hc]. exists k, r. split_and!; [done..|].
    apply Hwhere; [by eauto|done].
Qed.

End sqlite_like.

(** ** Update and delete, backend by backend *)

Lemma in_memory_partial_update : partial_update_contract InMemoryRepository.t.
Proof.
  intros s i d it Hget. simpl in *. injection Hget as Hget.
  rewrite (in_memory_update_present _ _ _ _ Hget).
  do 2 eexists; split; [reflexivity|]. split_and!; try done.
  - unfold InMemoryRepository.get_item. simpl. by rewrite lookup_insert_eq.
  - simpl. by destruct (ItemCreate.description_field d).
Qed.

Lemma redis_partial_update (db : Redis.t) i d it :
  storable d = true → get_item i db = Ok (Some it) →
  partially_updated Redis.t db i d it.
Proof.
  intros Hd Hget. unfold partially_updated. simpl in *.
  rewrite (redis_update_present _ _ _ _ Hget).
  do 2 eexists; split; [reflexivity|]. split_and!; try done.
  - apply redis_get_item_Json; [simpl; by rewrite lookup_insert_eq|].
    apply model_copy_readable; [|done].
    by apply redis_get_item_Some in Hget as [_ ?].
  - simpl. by destruct (ItemCreate.description_field d).
Qed.

Lemma in_memory_update_absent_contract :
  update_absent_contract InMemoryRepository.t.
Proof.
  intros s i d Hget. simpl in *. injection Hget as Hget.
  by rewrite (in_memory_update_absent _ _ _ Hget).
Qed.

Lemma sqlite_update_absent_contract : update_absent_contract Sqlite.t.
Proof.
  intros db i d. simpl. destruct (bind_int_cases i) as [->| ->]; [|done].
  simpl. intros [= Hget]. by rewrite (sqlite_update_absent _ _ _ Hget).
Qed.

Lemma redis_update_absent_contract : update_absent_contract Redis.t.
Proof. intros db i d Hget. by apply redis_update_absent. Qed.

Lemma in_memory_delete_contract : delete_contract InMemoryRepository.t.
Proof.
  intros s i. unfold delete_at. simpl.
  destruct (InMemoryRepository.get_item i s) as [it|] eqn:Hget.
  - rewrite (in_memory_delete_present _ _ _ Hget).
    assert (InMemoryRepository.get_item i
              {| InMemoryRepository.items := delete i (InMemoryRepository.items s);
                 InMemoryRepository.next_id := InMemoryRepository.next_id s |}
            = None) as Hgone.
    { unfold InMemoryRepository.get_item. simpl. by rewrite lookup_delete_eq. }
    do 2 eexists; split; [reflexivity|]. split_and!; [by split|..].
    + by rewrite Hgone.
    + by rewrite (in_memory_delete_absent _ _ Hgone).
  - rewrite (in_memory_delete_absent _ _ Hget).
    do 2 eexists; split; [reflexivity|].
    split_and!; [split; [done|by intros []]|by rewrite Hget|].
    by rewrite (in_memory_delete_absent _ _ Hget).
Qed.

(** In SQLite the contract of [delete] holds of the ids that can be bound,
    and the others are refused. *)
Lemma sqlite_delete_at (db : Sqlite.t) i :
  Sqlite.bind_int i = Ok i → delete_at Sqlite.t db i.
Proof.
  intros Hi. unfold delete_at. simpl. rewrite Hi. simpl.
  destruct (SQLiteRepository.get_item i db) as [it|] eqn:Hget.
  - rewrite (sqlite_delete_present _ _ _ Hget).
    assert (SQLiteRepository.get_item i
              {| Sqlite.items := delete i (Sqlite.items db);
                 Sqlite.sqlite_sequence := Sqlite.sqlite_sequence db |}
            = None) as Hgone.
    { apply sqlite_get_item_None. simpl. by rewrite lookup_delete_eq. }
    do 2 eexists; split; [reflexivity|]. split_and!; [by split|..].
    + by rewrite Hgone.
    + by rewrite (sqlite_delete_absent _ _ Hgone).
  - rewrite (sqlite_delete_absent _ _ Hget).
    do 2 eexists; split; [reflexivity|].
    split_and!; [split; [done|by intros []]|by rewrite Hget|].
    by rewrite (sqlite_delete_absent _ _ Hget).
Qed.

Lemma sqlite_unbound_id (db : Sqlite.t) i d :
  Sqlite.bind_int i = Raise OverflowError →
  get_item i db = Raise OverflowError
  ∧ update_item i d db = Raise OverflowError
  ∧ delete_item i db = Raise OverflowError.
Proof. intros Hi. simpl. by rewrite Hi. Qed.

Lemma redis_delete_contract : delete_contract Redis.t.
Proof.
  intros db i. unfold delete_at. simpl.
  destruct (Redis.keys db !! RedisRepository.item_key i) as [v|] eqn:Hk.
  - assert (RedisRepository.get_item i db ≠ Ok None) as Hget.
    { by rewrite redis_get_item_None, Hk. }
    rewrite (redis_delete_present _ _ Hget).
    assert (RedisRepository.get_item i
              {| Redis.keys := delete (RedisRepository.item_key i) (Redis.keys db) |}
            = Ok None) as Hgone.
    { apply redis_get_item_None. simpl. by rewrite lookup_delete_eq. }
    do 2 eexists; split; [reflexivity|]. split_and!; [by split|done|].
    by rewrite (redis_delete_absent _ _ Hgone).
  - assert (RedisRepository.get_item i db = Ok None) as Hget.
    { by apply redis_get_item_None. }
    rewrite (redis_delete_absent _ _ Hget).
    do 2 eexists; split; [reflexivity|].
    split_and!; [split; [done|by intros []]|done|].
    by rewrite (redis_delete_absent _ _ Hget).
Qed.

(** ** Listing without filters *)

Lemma in_memory_list_all (s : InMemoryRepository.t) it :
  inv s →
  it ∈ InMemoryRepository.list_items None None s
  ↔ InMemoryRepository.get_item (Item.id it) s = Some it.
Proof.
  intros Hinv. unfold InMemoryRepository.list_items, InMemoryRepository.values.
  rewrite elem_of_list_filter, list_elem_of_fmap. split.
  - intros [[[k it'] [-> Hk%elem_of_map_to_list]] _]. simpl.
    by destruct (Hinv k it' Hk) as [-> _].
  - intros Hget. split; [|done]. exists (Item.id it, it). split; [done|].
    by apply elem_of_map_to_list.
Qed.

Lemma sqlite_list_all (db : Sqlite.t) it :
  it ∈ SQLiteRepository.list_items None None db
  ↔ SQLiteRepository.get_item (Item.id it) db = Some it.
Proof.
  rewrite sqlite_list_items_elem, sqlite_get_item_lookup. split.
  - intros (k & r & -> & Hr & _). simpl. by rewrite Hr.
  - destruct (Sqlite.items db !! Item.id it) as [r|] eqn:Hr; [|done].
    intros [= <-]. by exists (Item.id it), r.
Qed.

(** A listing that returned holds the items written under the keys it
    fetched, and each of them is readable. *)
Lemma redis_collect_elem (db : Redis.t) (ks : list string) l it :
  RedisRepository.collect None None (Redis.mget ks db) = Ok l →
  it ∈ l ↔ ∃ k, k ∈ ks ∧ Redis.keys db !! k = Some (Redis.Json it)
                ∧ Item.readable it = true.
Proof.
  revert l. induction ks as [|k ks IH]; simpl; intros l Hl.
  { injection Hl as <-. split; [by intros ?%elem_of_nil|].
    by intros (k & ?%elem_of_nil & _). }
  fold (Redis.mget ks db) in Hl.
  destruct (Redis.keys db !! k) as [[n|it']|] eqn:Hk; simpl in Hl; [done|..].
  - destruct (Item.readable it') eqn:Hread; simpl in Hl; [|done].
    destruct (RedisRepository.collect None None (Redis.mget ks db))
      as [l'|] eqn:Hl'; simpl in Hl; [|done].
    injection Hl as <-. rewrite elem_of_cons, (IH l' eq_refl). split.
    + intros [->|(k' & Hk' & Hit)].
      * exists k. split; [left|done].
      * exists k'. split; [by right|done].
    + intros (k' & [->|Hk']%elem_of_cons & Hit & Hr).
      * left. rewrite Hk in Hit. by injection Hit.
      * right. by exists k'.
  - rewrite (IH l Hl). split.
    + intros (k' & Hk' & Hit). exists k'. split; [by right|done].
    + intros (k' & [->|Hk']%elem_of_cons & Hit & Hr).
      * by rewrite Hk in Hit.
      * by exists k'.
Qed.

Lemma redis_list_all (db : Redis.t) l it :
  inv db → RedisRepository.list_items None None db = Ok l →
  it ∈ l ↔ RedisRepository.get_item (Item.id it) db = Ok (Some it).
Proof.
  intros [_ Hitems] Hl.
  assert (it ∈ l ↔ ∃ k, k ∈ Redis.scan_iter RedisRepository.key_prefix db
                        ∧ Redis.keys db !! k = Some (Redis.Json it)
                        ∧ Item.readable it = true) as ->.
  { unfold RedisRepository.list_items in Hl.
    destruct (Redis.scan_iter _ db) as [|k ks] eqn:Hscan.
    - injection Hl as <-. split; [by intros ?%elem_of_nil|].
      by intros (k & ?%elem_of_nil & _).
    - by apply redis_collect_elem. }
  rewrite redis_get_item_Some. split.
  - intros (k & [_ Hp]%redis_scan_iter_elem & Hk & Hread).
    by destruct (Hitems _ _ Hk Hp) as (it' & [= <-] & -> & _).
  - intros [Hk Hread]. exists (RedisRepository.item_key (Item.id it)).
    split; [|done]. apply redis_scan_iter_elem. split; [by rewrite Hk|].
    apply item_key_prefix.
Qed.

Lemma in_memory_list_all_contract : list_all_contract InMemoryRepository.t.
Proof.
  intros cs. unfold listed_store.
  pose proof (live_lawful (R:=InMemoryRepository.t) cs init inv_init) as Hsum.
  destruct (live cs init) as [tr s]. destruct Hsum as (Hinv & _).
  simpl in *. intros l [= <-] it _. rewrite (in_memory_list_all s it Hinv).
  split; [by intros ->|by intros [= ->]].
Qed.

Lemma sqlite_list_all_contract : list_all_contract Sqlite.t.
Proof.
  intros cs. unfold listed_store. destruct (live cs init) as [tr s].
  intros l [_ ->]%sqlite_list_items_Ok it Hit. simpl in Hit.
  rewrite (sqlite_list_all s it). simpl. rewrite Hit. simpl.
  split; [by intros ->|by intros [= ->]].
Qed.

Lemma redis_list_all_contract : list_all_contract Redis.t.
Proof.
  intros cs. unfold listed_store.
  pose proof (live_lawful (R:=Redis.t) cs init inv_init) as Hsum.
  destruct (live cs init) as [tr s]. destruct Hsum as (Hinv & _).
  intros l Hl it _. by apply redis_list_all.
Qed.

(** * The claims *)

(** C1, on the SQLite backend.  The stored laptop has a description; the
    update [laptop_pro] leaves [description] out; the record that [update]
    returns, and that [get] then returns, has lost the description.  So the
    SQLite backend does not keep the partial-update contract. *)
Theorem sqlite_update_resets_omitted_description :
  SQLiteRepository.get_item 1 laptop_db
  = Some {| Item.id := 1; Item.name := "Laptop";
            Item.description := Some "Fast"; Item.price := 1200.5 |}
  ∧ ItemCreate.description_field laptop_pro = Unset
  ∧ (SQLiteRepository.update_item 1 laptop_pro laptop_db).1
    = Some {| Item.id := 1; Item.name := "Laptop Pro";
              Item.description := None; Item.price := 1200.5 |}
  ∧ SQLiteRepository.get_item 1
      (SQLiteRepository.update_item 1 laptop_pro laptop_db).2
    = Some {| Item.id := 1; Item.name := "Laptop Pro";
              Item.description := None; Item.price := 1200.5 |}
  ∧ ¬ partial_update_contract Sqlite.t.
Proof.
  split_and!; [by vm_compute..|].
  intros Hcontract.
  destruct (Hcontract laptop_db 1 laptop_pro _ eq_refl)
    as (it' & s' & Hupd & _ & _ & _ & _ & Hdescr).
  vm_compute in Hupd. injection Hupd as <- _. discriminate Hdescr.
Qed.



(** C3: in each backend, over any life of calls from the empty store, the
    calls that raise included, an item keeps the id it was created with,
    updates included; the ids returned by creations are strictly increasing,
    deletions included, so none is handed out twice; and no call lowers the
    highest id handed out (the in-memory [next_id] minus one, the SQLite
    sequence, the Redis counter). *)
Theorem ids_are_assigned_once_and_never_reused :
  id_contract InMemoryRepository.t
  ∧ id_contract Sqlite.t
  ∧ id_contract Redis.t.
Proof. split_and!; apply lawful_id_contract. Qed.

Lemma ids_are_assigned_once_and_never_reused_witness :
  id_history Redis.t
    [Create gold; Get 1; Delete 1; Create laptop_pro; Update 2 laptop]
  ∧ id_history Sqlite.t [Create laptop; Get (2 ^ 63); Delete 1; Create laptop].
Proof.
  split.
  - apply (proj2 (proj2 ids_are_assigned_once_and_never_reused)).
  - apply (proj1 (proj2 ids_are_assigned_once_and_never_reused)).
Defined.

(** C4, on the SQLite backend.  The only stored item is named abc; the name
    filter a_c is not a substring of that name in any letter case; the
    listing returns the item all the same, because [_] in the bound
    parameter is a LIKE wildcard.  So the SQLite backend does not keep the
    name-filter contract. *)
Theorem sqlite_name_filter_matches_like_wildcards :
  SQLiteRepository.list_items None None abc_db
  = [{| Item.id := 1; Item.name := "abc";
        Item.description := None; Item.price := 1 |}]
  ∧ Py.contains (Py.lower "a_c") (Py.lower "abc") = false
  ∧ SQLiteRepository.list_items (Some "a_c") None abc_db
    = [{| Item.id := 1; Item.name := "abc";
          Item.description := None; Item.price := 1 |}]
  ∧ ¬ name_filter_contract Sqlite.t.
Proof.
  split_and!; [by vm_compute..|].
  intros Hcontract.
  destruct (Hcontract abc_db "a_c" None _ eq_refl) as (l & Hl & Hiff).
  vm_compute in Hl. injection Hl as <-.
  destruct (proj1 (Hiff _) (list_elem_of_here _ _)) as [_ Hsub].
  vm_compute in Hsub. discriminate Hsub.
Qed.

(** With no filter, each backend lists exactly the items it stores. *)
Theorem list_without_filters_is_the_store :
  list_all_contract InMemoryRepository.t
  ∧ list_all_contract Sqlite.t
  ∧ list_all_contract Redis.t.
Proof.
  split_and!.
  - apply in_memory_list_all_contract.
  - apply sqlite_list_all_contract.
  - apply redis_list_all_contract.
Qed.

(** On a filter of ASCII characters without [%], [_] and U+0000, and a table
    whose names are ASCII without U+0000, the query of the SQLite listing
    does select by the name-filter contract. *)
Theorem sqlite_name_filter_on_plain_ascii (db : Sqlite.t) f mp it :
  plain f = true →
  (∀ k r, Sqlite.items db !! k = Some r →
          all_chars text_char (Sqlite.name r) = true) →
  it ∈ SQLiteRepository.list_items (Some f) mp db
  ↔ it ∈ SQLiteRepository.list_items None mp db
    ∧ Py.contains (Py.lower f) (Py.lower (Item.name it)) = true.
Proof. apply sqlite_plain_name_filter. Qed.

(** The in-memory and Redis backends do keep the name-filter contract. *)
Theorem name_filter_in_memory_and_redis :
  name_filter_contract InMemoryRepository.t ∧ name_filter_contract Redis.t.
Proof.
  split; apply scan_name_filter;
    [apply in_memory_list_items_scan|apply redis_list_items_scan].
Qed.









(** C8: whatever the stored rows and the filters, the SQLite listing comes
    out in strictly increasing order of id. *)
Theorem sqlite_list_items_is_ordered_by_id nf mp db :
  StronglySorted (λ a b, Item.id a < Item.id b)
    (SQLiteRepository.list_items nf mp db).
Proof. apply sqlite_list_items_sorted. Qed.

(** C9, as stated, fails in Redis mode: with no shared client yet and an
    address that names no scheme, [get_repository] yields no repository,
    because building the client raises. *)
Lemma redis_mode_without_scheme_raises :
  STORAGE_TYPE redis_without_scheme = StorageType.REDIS
  ∧ get_repository redis_without_scheme None
    = (Raise (ValueError scheme_message), None).
Proof. split; reflexivity. Qed.

(** C9, amended: [get_repository] yields a new in-memory repository or the
    SQLite repository when the storage type names one of them; in Redis mode
    it yields the Redis repository around the shared client, which it first
    builds from [REDIS_URL] when there is none, and raises what building the
    client raises, leaving no shared client; on any other storage type it
    raises [ValueError], leaving the shared client as it was. *)
Theorem get_repository_selects_or_raises settings client :
  (STORAGE_TYPE settings = StorageType.IN_MEMORY →
   get_repository settings client
   = (Ok (InMemoryRepository_ InMemoryRepository.init), client))
  ∧ (STORAGE_TYPE settings = StorageType.SQLITE →
     get_repository settings client = (Ok SQLiteRepository_, client))
  ∧ (STORAGE_TYPE settings = StorageType.REDIS →
     (∀ c, client = Some c
           ∨ (client = None ∧ from_url (REDIS_URL settings) = Ok c) →
           get_repository settings client = (Ok (RedisRepository_ c), Some c))
     ∧ (∀ e, client = None → from_url (REDIS_URL settings) = Raise e →
             get_repository settings client = (Raise e, None)))
  ∧ (STORAGE_TYPE settings
       ∉ [StorageType.IN_MEMORY; StorageType.SQLITE; StorageType.REDIS] →
     get_repository settings client
     = (Raise (ValueError (STORAGE_TYPE settings)), client)).
Proof.
  unfold get_repository. split_and!.
  - by intros ->.
  - by intros ->.
  - intros ->. simpl. split.
    + by intros c [->|[-> ->]].
    + by intros e -> ->.
  - intros Hnot.
    destruct (String.eqb_spec (STORAGE_TYPE settings) StorageType.IN_MEMORY)
      as [Heq|_]; [destruct Hnot; rewrite Heq; left|].
    destruct (String.eqb_spec (STORAGE_TYPE settings) StorageType.SQLITE)
      as [Heq|_]; [destruct Hnot; rewrite Heq; right; left|].
    destruct (String.eqb_spec (STORAGE_TYPE settings) StorageType.REDIS)
      as [Heq|_]; [destruct Hnot; rewrite Heq; right; right; left|].
    done.
Qed.

Lemma get_repository_selects_or_raises_witness :
  get_repository postgres_settings None
  = (Raise (ValueError "postgres"), None)
  ∧ get_repository (config (fresh_process "redis")) None
    = (Ok (RedisRepository_ {| url := "redis://localhost:6379/0" |}),
       Some {| url := "redis://localhost:6379/0" |}).
Proof.
  split.
  - apply (proj2 (proj2 (proj2
             (get_repository_selects_or_raises postgres_settings None)))).
    simpl. intros Hin.
    repeat (apply elem_of_cons in Hin as [Hin|Hin]; [discriminate Hin|]).
    by apply elem_of_nil in Hin.
  - apply (proj1 (proj1 (proj2 (proj2
             (get_repository_selects_or_raises
                (config (fresh_process "redis")) None))) eq_refl)).
    right. split; reflexivity.
Defined.

(** C10: in each backend, an empty name filter lists what no name filter
    lists. *)
Theorem empty_name_filter_is_unset :
  empty_name_filter_contract InMemoryRepository.t
  ∧ empty_name_filter_contract Sqlite.t
  ∧ empty_name_filter_contract Redis.t.
Proof.
  split_and!.
  - apply scan_empty_name_filter, in_memory_list_items_scan.
  - apply sqlite_empty_name_filter.
  - apply scan_empty_name_filter, redis_list_items_scan.
Qed.

(** * Further properties *)

(** ** SQLite overwrites every column *)

(** X4: on an existing id the SQLite update stores the three values of the
    draft, the default [None] for a description left out, keeps the id, and
    returns the record that [get] then returns. *)
Theorem sqlite_update_replaces_every_column (db : Sqlite.t) i d it :
  SQLiteRepository.get_item i db = Some it →
  ∃ db',
    SQLiteRepository.update_item i d db
    = (Some {| Item.id := i; Item.name := ItemCreate.name d;
               Item.description := ItemCreate.description d;
               Item.price := ItemCreate.price d |}, db')
    ∧ SQLiteRepository.get_item i db'
      = Some {| Item.id := i; Item.name := ItemCreate.name d;
                Item.description := ItemCreate.description d;
                Item.price := ItemCreate.price d |}
    ∧ Sqlite.sqlite_sequence db' = Sqlite.sqlite_sequence db.
Proof.
  intros Hget. rewrite (sqlite_update_present _ _ _ _ Hget).
  eexists; split; [reflexivity|]. split; [|done].
  rewrite sqlite_get_item_lookup. simpl. by rewrite lookup_insert_eq.
Qed.

Lemma sqlite_update_replaces_every_column_witness :
  ∃ db',
    SQLiteRepository.update_item 1 laptop_pro laptop_db
    = (Some {| Item.id := 1; Item.name := "Laptop Pro";
               Item.description := None; Item.price := 1200.5 |}, db')
    ∧ SQLiteRepository.get_item 1 db'
      = Some {| Item.id := 1; Item.name := "Laptop Pro";
                Item.description := None; Item.price := 1200.5 |}
    ∧ Sqlite.sqlite_sequence db' = Sqlite.sqlite_sequence laptop_db.
Proof.
  eapply (sqlite_update_replaces_every_column laptop_db 1 laptop_pro).
  reflexivity.
Defined.

(** ** Filters combine by intersection *)

Lemma item_matches_both nf mp it :
  item_matches nf mp it = item_matches nf None it && item_matches None mp it.
Proof.
  unfold item_matches. destruct nf as [f|], mp as [m|]; simpl;
    rewrite ?andb_true_r; reflexivity.
Qed.

Lemma scan_combined_filter {R : Type} `{Backend R} :
  (∀ nf mp (s : R),
     list_items nf mp s
     = all ← list_items None None s; Ok (List.filter (item_matches nf mp) all)) →
  combined_filter_contract R.
Proof.
  intros Hscan s nf mp l1 l2 Hl1 Hl2.
  rewrite (Hscan nf None) in Hl1. rewrite (Hscan None mp) in Hl2.
  rewrite (Hscan nf mp).
  destruct (list_items None None s) as [all|e]; simpl in *; [|done].
  injection Hl1 as <-. injection Hl2 as <-.
  eexists; split; [reflexivity|]. intros it.
  rewrite !elem_of_list_filter, item_matches_both, andb_true_iff. tauto.
Qed.

Lemma item_of_row_inj (kr kr' : Z * Sqlite.row) :
  SQLiteRepository.item_of_row kr = SQLiteRepository.item_of_row kr' → kr = kr'.
Proof.
  destruct kr as [k [n d p]], kr' as [k' [n' d' p']].
  unfold SQLiteRepository.item_of_row. simpl. by intros [= -> -> -> ->].
Qed.

Lemma sqlite_conditions_both nf mp :
  SQLiteRepository.conditions nf mp
  = SQLiteRepository.conditions nf None ++ SQLiteRepository.conditions None mp.
Proof.
  unfold SQLiteRepository.conditions.
  destruct nf as [f|]; [destruct (Py.truthy_str f)|];
    (destruct mp as [m|]; [destruct (Py.truthy_float m)|]); reflexivity.
Qed.

Lemma sqlite_combined_filter : combined_filter_contract Sqlite.t.
Proof.
  intros db nf mp l1 l2 [Hnf ->]%sqlite_list_items_Ok [_ ->]%sqlite_list_items_Ok.
  rewrite (sqlite_list_items_passes _ _ _ Hnf).
  eexists; split; [reflexivity|]. intros it.
  rewrite !sqlite_list_items_elem, sqlite_conditions_both. split.
  - intros (k & r & -> & Hr & Hw). apply where_forall, Forall_app in Hw as [H1 H2].
    split; exists k, r; by rewrite where_forall.
  - intros [(k & r & -> & Hr & H1) (k' & r' & Heq & Hr' & H2)].
    apply item_of_row_inj in Heq. injection Heq as <- <-.
    exists k, r. split_and!; [done..|].
    apply where_forall, Forall_app. by rewrite <-!where_forall.
Qed.

(** X5: in each backend, a name filter and a minimum price together list exactly
    the items that the name filter alone and the minimum price alone both list. *)
Theorem filters_combine_by_intersection :
  combined_filter_contract InMemoryRepository.t
  ∧ combined_filter_contract Sqlite.t
  ∧ combined_filter_contract Redis.t.
Proof.
  split_and!.
  - apply scan_combined_filter, in_memory_list_items_scan.
  - apply sqlite_combined_filter.
  - apply scan_combined_filter, redis_list_items_scan.
Qed.

(** ** Repeating an update *)

Lemma model_copy_idemp it kw :
  Item.model_copy (Item.model_copy it kw) kw = Item.model_copy it kw.
Proof.
  destruct kw as [[n|] [d|] [p|]]; reflexivity.
Qed.

Lemma in_memory_update_idempotent :
  update_idempotent_contract InMemoryRepository.t.
Proof.
  intros s i d o s' Hupd. simpl in *. injection Hupd as Hupd. f_equal.
  destruct (InMemoryRepository.get_item i s) as [it|] eqn:Hget.
  - rewrite (in_memory_update_present _ _ _ _ Hget) in Hupd.
    injection Hupd as <- <-.
    erewrite in_memory_update_present;
      [|unfold InMemoryRepository.get_item; simpl; apply lookup_insert_eq].
    rewrite model_copy_idemp. simpl. by rewrite insert_insert_eq.
  - rewrite (in_memory_update_absent _ _ _ Hget) in Hupd.
    injection Hupd as <- <-. by apply in_memory_update_absent.
Qed.

Lemma sqlite_update_idempotent : update_idempotent_contract Sqlite.t.
Proof.
  intros db i d o db'. simpl. destruct (bind_int_cases i) as [->| ->]; [|done].
  simpl. intros [= Hupd]. f_equal.
  destruct (SQLiteRepository.get_item i db) as [it|] eqn:Hget.
  - rewrite (sqlite_update_present _ _ _ _ Hget) in Hupd.
    injection Hupd as <- <-.
    erewrite sqlite_update_present;
      [|rewrite sqlite_get_item_lookup; simpl; by rewrite lookup_insert_eq].
    simpl. by rewrite insert_insert_eq.
  - rewrite (sqlite_update_absent _ _ _ Hget) in Hupd.
    injection Hupd as <- <-. by apply sqlite_update_absent.
Qed.

Lemma redis_update_idempotent (db : Redis.t) i d o db' :
  storable d = true →
  update_item i d db = Ok (o, db') → update_item i d db' = Ok (o, db').
Proof.
  intros Hd Hupd. simpl in *.
  destruct (RedisRepository.get_item i db) as [[it|]|e] eqn:Hget.
  - rewrite (redis_update_present _ _ _ _ Hget) in Hupd.
    injection Hupd as <- <-.
    erewrite redis_update_present.
    2:{ apply redis_get_item_Json; [simpl; apply lookup_insert_eq|].
        apply model_copy_readable; [|done].
        by apply redis_get_item_Some in Hget as [_ ?]. }
    rewrite model_copy_idemp. simpl. by rewrite insert_insert_eq.
  - rewrite (redis_update_absent _ _ _ Hget) in Hupd.
    injection Hupd as <- <-. by apply redis_update_absent.
  - unfold RedisRepository.update_item in Hupd. by rewrite Hget in Hupd.
Qed.

(** X6: in each backend, sending the same update a second time returns the same
    record and leaves the store as the first update left it; in the Redis
    backend, for a draft that reads back as written. *)
Theorem update_twice_is_update_once :
  update_idempotent_contract InMemoryRepository.t
  ∧ update_idempotent_contract Sqlite.t
  ∧ ∀ (s : Redis.t) i d o s',
      storable d = true →
      update_item i d s = Ok (o, s') → update_item i d s' = Ok (o, s').
Proof.
  split_and!.
  - apply in_memory_update_idempotent.
  - apply sqlite_update_idempotent.
  - apply redis_update_idempotent.
Qed.

Lemma update_twice_is_update_once_witness :
  update_item 1 laptop_pro
    (SQLiteRepository.update_item 1 laptop_pro laptop_db).2
  = Ok (SQLiteRepository.update_item 1 laptop_pro laptop_db).
Proof.
  apply (proj1 (proj2 update_twice_is_update_once) laptop_db 1 laptop_pro).
  reflexivity.
Defined.

(** ** Calls on one id leave the other ids alone *)

Lemma in_memory_frame : frame_contract InMemoryRepository.t.
Proof.
  intros s i j d Hne. simpl. unfold InMemoryRepository.get_item. split_and!.
  - intros o s' [= Hupd]. f_equal. unfold InMemoryRepository.update_item in Hupd.
    destruct (InMemoryRepository.items s !! i); injection Hupd as <- <-;
      [|done]. simpl. by rewrite lookup_insert_ne.
  - intros b s' [= Hdel]. f_equal. unfold InMemoryRepository.delete_item in Hdel.
    destruct (InMemoryRepository.items s !! i); injection Hdel as <- <-;
      [|done]. simpl. by rewrite lookup_delete_ne.
  - intros it s' [= <- <-] Hid. f_equal. simpl in *.
    rewrite lookup_insert_ne; [done|]. by rewrite Hid.
Qed.

Lemma sqlite_frame : frame_contract Sqlite.t.
Proof.
  intros db i j d Hne. simpl.
  assert (∀ db', Sqlite.items db' !! j = Sqlite.items db !! j →
                 (item_id ← Sqlite.bind_int j;
                  Ok (SQLiteRepository.get_item item_id db'))
                 = (item_id ← Sqlite.bind_int j;
                    Ok (SQLiteRepository.get_item item_id db))) as Hsame.
  { intros db' Hj. destruct (bind_int_cases j) as [->| ->]; [|done]. simpl.
    by rewrite !sqlite_get_item_lookup, Hj. }
  split_and!.
  - intros o db'. destruct (bind_int_cases i) as [->| ->]; [|done]. simpl.
    intros [= Hupd]. apply Hsame.
    unfold SQLiteRepository.update_item, Sqlite.update_by_id in Hupd.
    destruct (Sqlite.items db !! i); simpl in Hupd; injection Hupd as <- <-;
      [|done]. simpl. by rewrite lookup_insert_ne.
  - intros b db'. destruct (bind_int_cases i) as [->| ->]; [|done]. simpl.
    intros [= Hdel]. apply Hsame.
    unfold SQLiteRepository.delete_item, Sqlite.delete_by_id in Hdel.
    destruct (Sqlite.items db !! i); simpl in Hdel; injection Hdel as <- <-;
      [|done]. simpl. by rewrite lookup_delete_ne.
  - intros it db' [= <- <-] Hid. apply Hsame. simpl in *.
    rewrite lookup_insert_ne; [done|]. by rewrite Hid.
Qed.

Lemma redis_frame : frame_contract Redis.t.
Proof.
  intros db i j d Hne. simpl.
  assert (RedisRepository.item_key i ≠ RedisRepository.item_key j) as Hkey.
  { by intros ->%(inj RedisRepository.item_key). }
  split_and!.
  - intros o db' Hupd. unfold RedisRepository.update_item in Hupd.
    destruct (RedisRepository.get_item i db) as [[it|]|e]; simpl in Hupd;
      [| |done]; injection Hupd as <- <-; [|done].
    apply redis_get_item_ext. simpl. by rewrite lookup_insert_ne.
  - intros b db' Hdel. unfold RedisRepository.delete_item, Redis.delete in Hdel.
    destruct (Redis.keys db !! RedisRepository.item_key i);
      injection Hdel as <- <-; [|done].
    apply redis_get_item_ext. simpl. by rewrite lookup_delete_ne.
  - intros it db' Hcreate Hid.
    unfold RedisRepository.create_item, RedisRepository._get_next_id,
      Redis.incr in Hcreate.
    destruct (Redis.keys db !! RedisRepository.next_id_key) as [[n|doc]|];
      simpl in Hcreate; [| done |]; injection Hcreate as <- <-;
      simpl in Hid; subst i; apply redis_get_item_ext; simpl;
      (rewrite lookup_insert_ne by done);
      (rewrite lookup_insert_ne; [done|]);
      intros Heq; by apply (item_key_not_counter j).
Qed.

(** X7: in each backend, updating, deleting or creating one id changes nothing
    in what [get] answers for any other id. *)
Theorem calls_on_one_id_leave_the_others :
  frame_contract InMemoryRepository.t
  ∧ frame_contract Sqlite.t
  ∧ frame_contract Redis.t.
Proof.
  split_and!.
  - apply in_memory_frame.
  - apply sqlite_frame.
  - apply redis_frame.
Qed.

Lemma filters_combine_by_intersection_witness :
  ∃ l, list_items (Some "apple") (Some 15%float) fruit_stand = Ok l
       ∧ ∀ it, it ∈ l
               ↔ it ∈ InMemoryRepository.list_items (Some "apple") None fruit_stand
                 ∧ it ∈ InMemoryRepository.list_items None (Some 15%float)
                          fruit_stand.
Proof.
  apply (proj1 filters_combine_by_intersection); reflexivity.
Defined.

Lemma calls_on_one_id_leave_the_others_witness :
  get_item 3 (SQLiteRepository.delete_item 2 fruit_db).2 = get_item 3 fruit_db.
Proof.
  apply (proj1 (proj2 (proj1 (proj2 calls_on_one_id_leave_the_others)
                         fruit_db 2 3 laptop ltac:(done)))
           (SQLiteRepository.delete_item 2 fruit_db).1).
  simpl. by destruct (SQLiteRepository.delete_item 2 fruit_db).
Defined.

(** ** Redis: a value under the item prefix that is not an item *)

Lemma redis_collect_raises (db : Redis.t) nf mp (ks : list string) k n :
  k ∈ ks → Redis.keys db !! k = Some (Redis.Int n) →
  RedisRepository.collect nf mp (Redis.mget ks db) = Raise ValidationError.
Proof.
  intros Hk Hn. induction ks as [|k' ks IH]; [by apply elem_of_nil in Hk|].
  simpl. fold (Redis.mget ks db).
  apply elem_of_cons in Hk as [<-|Hk].
  - by rewrite Hn.
  - rewrite (IH Hk). destruct (Redis.keys db !! k') as [[n'|it]|]; [done| |done].
    simpl. by destruct (Item.readable it).
Qed.

(** X8: when a key under the item prefix holds an integer, the value that INCR
    leaves, every listing raises [ValidationError]; and when that key is the key
    of an id, so do [get] and [update] on that id. None of them answers as if
    the id were absent. *)
Theorem redis_foreign_value_raises (db : Redis.t) key n :
  Redis.keys db !! key = Some (Redis.Int n) →
  String.prefix RedisRepository.key_prefix key = true →
  (∀ nf mp, RedisRepository.list_items nf mp db = Raise ValidationError)
  ∧ ∀ i, key = RedisRepository.item_key i →
         RedisRepository.get_item i db = Raise ValidationError
         ∧ ∀ d, RedisRepository.update_item i d db = Raise ValidationError.
Proof.
  intros Hkey Hp. split.
  - intros nf mp. unfold RedisRepository.list_items.
    assert (key ∈ Redis.scan_iter RedisRepository.key_prefix db) as Hin.
    { apply redis_scan_iter_elem. by rewrite Hkey. }
    destruct (Redis.scan_iter RedisRepository.key_prefix db) as [|k ks] eqn:Hs;
      [by apply elem_of_nil in Hin|].
    by apply (redis_collect_raises db nf mp (k :: ks) key n).
  - intros i ->.
    assert (RedisRepository.get_item i db = Raise ValidationError) as Hget.
    { unfold RedisRepository.get_item, Redis.get. by rewrite Hkey. }
    split; [done|]. intros d. unfold RedisRepository.update_item.
    by rewrite Hget.
Qed.

Lemma redis_foreign_value_raises_witness :
  RedisRepository.list_items None None foreign_keys = Raise ValidationError.
Proof.
  apply (proj1 (redis_foreign_value_raises foreign_keys "item:count" 5
                  eq_refl eq_refl)).
Defined.

(** ** Stored items satisfy the schema *)


Section valid_histories.

Context {R : Type} `{BackendLaws R}.

(** What the argument needs from a backend besides the laws: a property of
    stores that the empty store has and that every call from a valid draft
    keeps, under which [get] and the listings return valid items. *)
Variable stored_valid : R → Prop.

Hypothesis valid_init : stored_valid init.

Hypothesis valid_step : ∀ c (s : R) r s',
  valid_call c → stored_valid s → step c s = Ok (r, s') → stored_valid s'.

Hypothesis valid_get : ∀ (s : R) i it,
  stored_valid s → get_item i s = Ok (Some it) → Item.valid it = true.

Hypothesis valid_list : ∀ (s : R) nf mp l it,
  inv s → stored_valid s → list_items nf mp s = Ok l → it ∈ l →
  Item.valid it = true.

Lemma live_valid (cs : list call) (s : R) :
  Forall valid_call cs → inv s → stored_valid s →
  inv (live cs s).2 ∧ stored_valid (live cs s).2.
Proof.
  intros Hcs. revert s.
  induction Hcs as [|c cs Hc _ IH]; intros s Hinv Hs; simpl; [done|].
  destruct (step c s) as [[r s1]|e] eqn:Hstep; [|by apply IH].
  destruct (step_inv c s r s1 Hinv Hstep) as [Hinv1 _].
  specialize (IH s1 Hinv1 (valid_step c s r s1 Hc Hs Hstep)).
  by destruct (live cs s1) as [tr s2].
Qed.

Lemma lawful_validity_contract : validity_contract R.
Proof.
  intros cs Hcs. unfold valid_history.
  destruct (live_valid cs init Hcs inv_init valid_init) as [Hinv Hs].
  destruct (live cs init) as [tr s]. simpl in *. split.
  - intros i it. by apply valid_get.
  - intros nf mp l it. by apply valid_list.
Qed.

End valid_histories.

Lemma in_memory_validity : validity_contract InMemoryRepository.t.
Proof.
  apply (lawful_validity_contract
           (λ s, ∀ k it, InMemoryRepository.items s !! k = Some it →
                         Item.valid it = true)).
  - intros k it. simpl. by rewrite lookup_empty.
  - intros c s r s' Hc Hs Hstep%step_Ok.
    destruct c as [i|nf mp|d|i d|i]; simpl in *.
    + by destruct Hstep as (o & _ & _ & ->).
    + by destruct Hstep as (l & _ & _ & ->).
    + destruct Hstep as (it & [= <- <-] & _). intros k it'. simpl.
      destruct (decide (k = InMemoryRepository.next_id s)) as [->|Hk].
      * rewrite lookup_insert_eq. intros [= <-]. exact Hc.
      * rewrite lookup_insert_ne by done. apply Hs.
    + destruct Hstep as (o & [= Hupd] & _).
      destruct (InMemoryRepository.get_item i s) as [it|] eqn:Hget.
      * rewrite (in_memory_update_present _ _ _ _ Hget) in Hupd.
        injection Hupd as <- <-. intros k it'. simpl.
        destruct (decide (k = i)) as [->|Hk].
        -- rewrite lookup_insert_eq. intros [= <-].
           apply model_copy_valid; [|done]. by apply (Hs i).
        -- rewrite lookup_insert_ne by done. apply Hs.
      * rewrite (in_memory_update_absent _ _ _ Hget) in Hupd.
        by injection Hupd as <- <-.
    + destruct Hstep as (b & [= Hdel] & _).
      destruct (InMemoryRepository.get_item i s) as [it|] eqn:Hget.
      * rewrite (in_memory_delete_present _ _ _ Hget) in Hdel.
        injection Hdel as <- <-. intros k it'. simpl.
        intros [_ Hk]%lookup_delete_Some. by apply (Hs k).
      * rewrite (in_memory_delete_absent _ _ Hget) in Hdel.
        by injection Hdel as <- <-.
  - intros s i it Hs [= Hget]. by apply (Hs i).
  - intros s nf mp l it _ Hs [= <-] Hit.
    unfold InMemoryRepository.list_items, InMemoryRepository.values in Hit.
    apply elem_of_list_filter in Hit as [Hit _].
    apply list_elem_of_fmap in Hit as [[k it'] [-> Hk%elem_of_map_to_list]].
    by apply (Hs k).
Qed.

Lemma sqlite_validity : validity_contract Sqlite.t.
Proof.
  apply (lawful_validity_contract
           (λ db, ∀ k r, Sqlite.items db !! k = Some r →
                         Item.valid (SQLiteRepository.item_of_row (k, r)) = true)).
  - intros k r. simpl. by rewrite lookup_empty.
  - intros c db r db' Hc Hs Hstep%step_Ok.
    destruct c as [i|nf mp|d|i d|i]; simpl in *.
    + by destruct Hstep as (o & _ & _ & ->).
    + by destruct Hstep as (l & _ & _ & ->).
    + destruct Hstep as (it & [= <- <-] & _). intros k r'. simpl.
      destruct (decide (k = Z.max (Sqlite.sqlite_sequence db)
                               (Sqlite.max_rowid db) + 1)) as [->|Hk].
      * rewrite lookup_insert_eq. intros [= <-]. exact Hc.
      * rewrite lookup_insert_ne by done. apply Hs.
    + destruct Hstep as (o & Hupd & _).
      destruct (bind_int_cases i) as [Hi|Hi]; rewrite Hi in Hupd; [|done].
      simpl in Hupd. injection Hupd as Hupd.
      destruct (SQLiteRepository.get_item i db) as [it|] eqn:Hget.
      * rewrite (sqlite_update_present _ _ _ _ Hget) in Hupd.
        injection Hupd as <- <-. intros k r'. simpl.
        destruct (decide (k = i)) as [->|Hk].
        -- rewrite lookup_insert_eq. intros [= <-]. exact Hc.
        -- rewrite lookup_insert_ne by done. apply Hs.
      * rewrite (sqlite_update_absent _ _ _ Hget) in Hupd.
        by injection Hupd as <- <-.
    + destruct Hstep as (b & Hdel & _).
      destruct (bind_int_cases i) as [Hi|Hi]; rewrite Hi in Hdel; [|done].
      simpl in Hdel. injection Hdel as Hdel.
      destruct (SQLiteRepository.get_item i db) as [it|] eqn:Hget.
      * rewrite (sqlite_delete_present _ _ _ Hget) in Hdel.
        injection Hdel as <- <-. intros k r'. simpl.
        intros [_ Hk]%lookup_delete_Some. by apply (Hs k).
      * rewrite (sqlite_delete_absent _ _ Hget) in Hdel.
        by injection Hdel as <- <-.
  - intros db i it Hs. simpl.
    destruct (bind_int_cases i) as [->| ->]; [|done]. simpl.
    rewrite sqlite_get_item_lookup.
    destruct (Sqlite.items db !! i) as [r|] eqn:Hr; [|done].
    intros [= <-]. by apply (Hs i).
  - intros db nf mp l it _ Hs [_ ->]%sqlite_list_items_Ok Hit.
    apply sqlite_list_items_elem in Hit as (k & r & -> & Hr & _).
    by apply (Hs k).
Qed.

(** In the Redis backend an item is validated each time it is read. *)
Lemma redis_validity : validity_contract Redis.t.
Proof.
  apply (lawful_validity_contract (λ _, True)); [done..| |].
  - intros db i it _ [_ Hit]%redis_get_item_Some.
    by apply andb_true_iff in Hit as [? _].
  - intros db nf mp l it Hinv _ Hl Hit. simpl in *.
    rewrite (redis_list_items_scan nf mp) in Hl. simpl in Hl.
    destruct (RedisRepository.list_items None None db) as [all|e] eqn:Hall;
      simpl in Hl; [|done].
    injection Hl as <-. apply elem_of_list_filter in Hit as [Hit _].
    apply (redis_list_all db all it Hinv Hall) in Hit.
    apply redis_get_item_Some in Hit as [_ Hit].
    by apply andb_true_iff in Hit as [? _].
Qed.



(** ** The in-memory and Redis backends answer alike *)

Section simulation.

Context {R1 R2 : Type} `{BackendLaws R1} `{BackendLaws R2}.

Hypothesis update_alike : ∀ (s1 : R1) (s2 : R2) i d o1 s1' o2 s2',
  alike s1 s2 →
  update_item i d s1 = Ok (o1, s1') → update_item i d s2 = Ok (o2, s2') →
  o1 = o2.

Hypothesis list_alike : ∀ (s1 : R1) (s2 : R2) nf mp l1 l2,
  alike s1 s2 →
  list_items nf mp s1 = Ok l1 → list_items nf mp s2 = Ok l2 →
  l1 ≡ₚ l2.

(** Both backends accept the calls whose drafts read back as written. *)
Hypothesis accepts_left : ∀ c, storable_call c → accepts (R:=R1) c.
Hypothesis accepts_right : ∀ c, storable_call c → accepts (R:=R2) c.

(** One call on two stores that are alike and ready returns on both, with
    the same reply, and leaves them alike and ready. *)
Lemma step_alike c (s1 : R1) (s2 : R2) :
  storable_call c → alike s1 s2 → ready s1 → ready s2 →
  ∃ r1 s1' r2 s2',
    step c s1 = Ok (r1, s1') ∧ step c s2 = Ok (r2, s2')
    ∧ same_reply r1 r2 ∧ alike s1' s2' ∧ ready s1' ∧ ready s2'.
Proof.
  intros Hc Halike Hr1 Hr2.
  pose proof Halike as (Hinv1 & Hinv2 & Hlast & Hget).
  pose proof (accepts_left c Hc) as Ha1.
  pose proof (accepts_right c Hc) as Ha2.
  destruct c as [i|nf mp|d|i d|i]; simpl.
  - destruct (get_ok s1 i Hinv1 Hr1 Ha1) as [o1 Ho1].
    destruct (get_ok s2 i Hinv2 Hr2 Ha2) as [o2 Ho2].
    assert (o1 = o2) as <- by (rewrite (Hget i), Ho2 in Ho1; by injection Ho1).
    rewrite Ho1, Ho2. simpl. by exists (Got o1), s1, (Got o1), s2.
  - destruct (list_ok s1 nf mp Hinv1 Hr1 Ha1) as [l1 Hl1].
    destruct (list_ok s2 nf mp Hinv2 Hr2 Ha2) as [l2 Hl2].
    rewrite Hl1, Hl2. simpl. exists (Listed l1), s1, (Listed l2), s2.
    do 2 (split; [done|]). split; [|done].
    by apply (list_alike s1 s2 nf mp).
  - destruct (create_ok s1 d Hinv1 Ha1) as (it1 & t1 & Hc1 & Hready1 & Hnew1).
    destruct (create_ok s2 d Hinv2 Ha2) as (it2 & t2 & Hc2 & Hready2 & Hnew2).
    destruct (create_law s1 d it1 t1 Hinv1 Hc1) as (Hit1 & Ht1 & Hlast1 & Hold1).
    destruct (create_law s2 d it2 t2 Hinv2 Hc2) as (Hit2 & Ht2 & Hlast2 & Hold2).
    assert (it1 = it2) as <- by (by rewrite Hit1, Hit2, Hlast).
    assert (Item.id it1 = last_id s1 + 1) as Hid by (by rewrite Hit1).
    rewrite Hc1, Hc2. simpl. exists (Created it1), t1, (Created it1), t2.
    do 3 (split; [done|]). split; [|by auto].
    refine (conj Ht1 (conj Ht2 (conj _ _))); [lia|]. intros j.
    destruct (decide (j = last_id s1 + 1)) as [->|Hne].
    + rewrite <-Hid.
      rewrite (Hnew1 (accepts_left (Get _) I)).
      by rewrite (Hnew2 (accepts_right (Get _) I)).
    + rewrite (Hold1 j Hne), (Hold2 j) by lia. apply Hget.
  - destruct (update_ok s1 i d Hinv1 Hr1 Ha1) as (o1 & t1 & Hu1 & Hready1 & Hg1).
    destruct (update_ok s2 i d Hinv2 Hr2 Ha2) as (o2 & t2 & Hu2 & Hready2 & Hg2).
    destruct (update_law s1 i d o1 t1 Hinv1 Hu1)
      as (Ht1 & Hlast1 & _ & _ & _ & _ & Hold1).
    destruct (update_law s2 i d o2 t2 Hinv2 Hu2)
      as (Ht2 & Hlast2 & _ & _ & _ & _ & Hold2).
    assert (o1 = o2) as <- by (by apply (update_alike s1 s2 i d o1 t1 o2 t2)).
    rewrite Hu1, Hu2. simpl. exists (Updated o1), t1, (Updated o1), t2.
    do 3 (split; [done|]). split; [|done].
    refine (conj Ht1 (conj Ht2 (conj _ _))); [lia|]. intros j.
    destruct (decide (j = i)) as [->|Hne].
    + by rewrite Hg1, Hg2.
    + rewrite (Hold1 j Hne), (Hold2 j Hne). apply Hget.
  - destruct (delete_ok s1 i Hinv1 Ha1) as (b1 & t1 & Hd1 & Hready1).
    destruct (delete_ok s2 i Hinv2 Ha2) as (b2 & t2 & Hd2 & Hready2).
    destruct (delete_law s1 i b1 t1 Hinv1 Hd1)
      as (Ht1 & Hlast1 & Hb1 & _ & Hgone1 & Hold1).
    destruct (delete_law s2 i b2 t2 Hinv2 Hd2)
      as (Ht2 & Hlast2 & Hb2 & _ & Hgone2 & Hold2).
    assert (b1 = b2) as <-.
    { rewrite (Hget i) in Hb1.
      destruct b1, b2; tauto || (symmetry; tauto) || done. }
    rewrite Hd1, Hd2. simpl. exists (Deleted b1), t1, (Deleted b1), t2.
    do 3 (split; [done|]). split; [|by auto].
    refine (conj Ht1 (conj Ht2 (conj _ _))); [lia|]. intros j.
    destruct (decide (j = i)) as [->|Hne].
    + by rewrite Hgone1, Hgone2.
    + rewrite (Hold1 j Hne), (Hold2 j Hne). apply Hget.
Qed.

Lemma run_alike (cs : list call) (s1 : R1) (s2 : R2) :
  Forall storable_call cs → alike s1 s2 → ready s1 → ready s2 →
  ∃ tr1 s1' tr2 s2',
    run cs s1 = Ok (tr1, s1') ∧ run cs s2 = Ok (tr2, s2')
    ∧ Forall2 same_reply tr1.*2 tr2.*2.
Proof.
  intros Hcs. revert s1 s2.
  induction Hcs as [|c cs Hc _ IH]; intros s1 s2 Halike Hr1 Hr2.
  { exists [], s1, [], s2. do 2 (split; [done|]). constructor. }
  destruct (step_alike c s1 s2 Hc Halike Hr1 Hr2)
    as (r1 & t1 & r2 & t2 & Hs1 & Hs2 & Hr & Ht & Hrt1 & Hrt2).
  destruct (IH t1 t2 Ht Hrt1 Hrt2)
    as (tr1 & s1' & tr2 & s2' & Hrun1 & Hrun2 & Htr).
  exists ((c, r1) :: tr1), s1', ((c, r2) :: tr2), s2'.
  cbn [run]. rewrite Hs1, Hs2. cbn [mbind result_bind].
  rewrite Hrun1, Hrun2. do 2 (split; [done|]). by constructor.
Qed.

End simulation.

Lemma NoDup_list_filter {A} (f : A → bool) (l : list A) :
  NoDup l → NoDup (List.filter f l).
Proof.
  rewrite !NoDup_ListNoDup. apply List.NoDup_filter.
Qed.

Lemma in_memory_values_nodup (s : InMemoryRepository.t) :
  inv s → NoDup (InMemoryRepository.values s).
Proof.
  intros Hinv. unfold InMemoryRepository.values.
  apply NoDup_fmap_2_strong; [|apply NoDup_map_to_list].
  intros [k it] [k' it'] Hk%elem_of_map_to_list Hk'%elem_of_map_to_list.
  simpl. intros <-.
  destruct (Hinv k it Hk) as [<- _]. by destruct (Hinv k' it Hk') as [<- _].
Qed.

Lemma redis_collect_nodup (db : Redis.t) (ks : list string) l :
  inv db → NoDup ks →
  (∀ k, k ∈ ks → String.prefix RedisRepository.key_prefix k = true) →
  RedisRepository.collect None None (Redis.mget ks db) = Ok l →
  NoDup l.
Proof.
  intros [_ Hitems] Hnd. revert l.
  induction Hnd as [|k ks Hk Hnd IH]; intros l Hp Hl; simpl in Hl.
  { injection Hl as <-. constructor. }
  fold (Redis.mget ks db) in Hl.
  assert (∀ k', k' ∈ ks → String.prefix RedisRepository.key_prefix k' = true)
    as Hp' by (intros k' Hk'; apply Hp; by right).
  destruct (Redis.keys db !! k) as [[n|it]|] eqn:Hkv; simpl in Hl; [done|..].
  - destruct (Item.readable it) eqn:Hread; simpl in Hl; [|done].
    destruct (RedisRepository.collect None None (Redis.mget ks db))
      as [l'|] eqn:Hl'; simpl in Hl; [|done].
    injection Hl as <-. apply NoDup_cons. split; [|by apply IH].
    intros (k' & Hk' & Hit & _)%(redis_collect_elem db ks l' it Hl').
    destruct (Hitems _ _ Hkv (Hp k ltac:(left))) as (it1 & [= <-] & -> & _).
    destruct (Hitems _ _ Hit (Hp' k' Hk')) as (it2 & [= <-] & -> & _).
    done.
  - by apply IH.
Qed.

Lemma redis_scan_iter_nodup (db : Redis.t) prefix :
  NoDup (Redis.scan_iter prefix db).
Proof.
  unfold Redis.scan_iter. apply NoDup_list_filter, NoDup_fst_map_to_list.
Qed.

Lemma redis_list_all_nodup (db : Redis.t) l :
  inv db → RedisRepository.list_items None None db = Ok l → NoDup l.
Proof.
  intros Hinv Hl. unfold RedisRepository.list_items in Hl.
  destruct (Redis.scan_iter RedisRepository.key_prefix db) as [|k ks] eqn:Hs.
  { injection Hl as <-. constructor. }
  apply (redis_collect_nodup db (k :: ks) l Hinv); [| |done].
  - rewrite <-Hs. apply redis_scan_iter_nodup.
  - intros k' Hk'. rewrite <-Hs in Hk'.
    by apply redis_scan_iter_elem in Hk' as [_ ?].
Qed.

Lemma in_memory_redis_update_alike
    (s1 : InMemoryRepository.t) (s2 : Redis.t) i d o1 s1' o2 s2' :
  alike s1 s2 →
  update_item i d s1 = Ok (o1, s1') → update_item i d s2 = Ok (o2, s2') →
  o1 = o2.
Proof.
  intros (_ & _ & _ & Hget) Hu1 Hu2. specialize (Hget i). simpl in *.
  injection Hu1 as Hu1.
  destruct (InMemoryRepository.get_item i s1) as [it|] eqn:Hget1.
  - rewrite (in_memory_update_present _ _ _ _ Hget1) in Hu1.
    rewrite (redis_update_present _ _ _ it) in Hu2 by done.
    injection Hu1 as <- _. by injection Hu2 as <- _.
  - rewrite (in_memory_update_absent _ _ _ Hget1) in Hu1.
    rewrite redis_update_absent in Hu2 by done.
    injection Hu1 as <- _. by injection Hu2 as <- _.
Qed.

Lemma in_memory_redis_list_alike
    (s1 : InMemoryRepository.t) (s2 : Redis.t) nf mp l1 l2 :
  alike s1 s2 →
  list_items nf mp s1 = Ok l1 → list_items nf mp s2 = Ok l2 →
  l1 ≡ₚ l2.
Proof.
  intros (Hinv1 & Hinv2 & _ & Hget) Hl1 Hl2.
  rewrite (redis_list_items_scan nf mp) in Hl2. simpl in *.
  injection Hl1 as <-.
  destruct (RedisRepository.list_items None None s2) as [all|e] eqn:Hall;
    simpl in Hl2; [|done].
  injection Hl2 as <-. unfold InMemoryRepository.list_items.
  apply NoDup_Permutation.
  - by apply NoDup_list_filter, in_memory_values_nodup.
  - by apply NoDup_list_filter, (redis_list_all_nodup s2).
  - intros it. rewrite !elem_of_list_filter.
    assert (it ∈ InMemoryRepository.values s1 ↔ it ∈ all) as ->; [|done].
    rewrite (redis_list_all s2 all it Hinv2 Hall).
    rewrite <-(Hget (Item.id it)).
    pose proof (in_memory_list_all s1 it Hinv1) as Hmem.
    unfold InMemoryRepository.list_items in Hmem.
    rewrite elem_of_list_filter in Hmem. split.
    + intros Hv. f_equal. by apply Hmem.
    + intros [= Hg]. by apply Hmem in Hg as [? _].
Qed.



(** ** The shared client after startup *)

(** X11: in Redis mode, when a client can be built from [REDIS_URL], startup
    returns whatever the ping did and whatever client there was before; a
    failed ping leaves no shared client, and the first request still gets a
    Redis repository around a client for [REDIS_URL], which stays the shared
    client for the requests that follow.  When building the client raises,
    startup raises the same and leaves the shared client as it was. *)
Theorem redis_client_survives_a_failed_ping settings ping client :
  STORAGE_TYPE settings = StorageType.REDIS →
  let started := connect_to_redis settings ping client in
  (∀ c, from_url (REDIS_URL settings) = Ok c →
        started.1 = Ok tt
        ∧ (ping c = false → started.2 = None)
        ∧ get_repository settings started.2 = (Ok (RedisRepository_ c), Some c)
        ∧ get_repository settings (Some c) = (Ok (RedisRepository_ c), Some c))
  ∧ (∀ e, from_url (REDIS_URL settings) = Raise e →
          started = (Raise e, client)).
Proof.
  intros Hmode. unfold connect_to_redis, get_repository. rewrite Hmode. simpl.
  split.
  - intros c ->. simpl. split_and!; [done|by intros ->| |done].
    by destruct (ping c).
  - by intros e ->.
Qed.

Lemma redis_client_survives_a_failed_ping_witness :
  get_repository (config (fresh_process "redis"))
    (connect_to_redis (config (fresh_process "redis")) (λ _, false) None).2
  = (Ok (RedisRepository_ {| url := "redis://localhost:6379/0" |}),
     Some {| url := "redis://localhost:6379/0" |}).
Proof.
  apply (proj1 (proj2 (proj2 (proj1
           (redis_client_survives_a_failed_ping
              (config (fresh_process "redis")) (λ _, false) None eq_refl)
           {| url := "redis://localhost:6379/0" |} eq_refl)))).
Defined.

(** ** Requests *)

Lemma serve_in_memory req p :
  STORAGE_TYPE (config p) = StorageType.IN_MEMORY →
  serve req p
  = (if request_is_valid req
     then (route req InMemoryRepository.init).1
     else {| status_code := 422; body := Problem |}, p).
Proof.
  intros Hmode. unfold serve, get_repository. rewrite Hmode. simpl.
  destruct p. by destruct (request_is_valid req).
Qed.

Lemma serve_sqlite req p :
  STORAGE_TYPE (config p) = StorageType.SQLITE →
  serve req p
  = if request_is_valid req
    then if sqlite_opens p
         then ((route req (sqlite_file p)).1,
               {| config := config p; redis_client := redis_client p;
                  sqlite_opens := sqlite_opens p;
                  sqlite_file := (route req (sqlite_file p)).2;
                  redis_server := redis_server p |})
         else ({| status_code := 500; body := Problem |}, p)
    else ({| status_code := 422; body := Problem |}, p).
Proof.
  intros Hmode. unfold serve, get_repository. rewrite Hmode. simpl.
  destruct p as [cfg c o f r]. simpl.
  destruct (request_is_valid req); [|done]. destruct o; [|done].
  by destruct (route req f).
Qed.

Lemma serve_redis req p c :
  STORAGE_TYPE (config p) = StorageType.REDIS →
  client_of p c →
  serve req p
  = if request_is_valid req
    then ((route req (redis_server p)).1,
          {| config := config p; redis_client := Some c;
             sqlite_opens := sqlite_opens p;
             sqlite_file := sqlite_file p;
             redis_server := (route req (redis_server p)).2 |})
    else ({| status_code := 422; body := Problem |},
          {| config := config p; redis_client := Some c;
             sqlite_opens := sqlite_opens p;
             sqlite_file := sqlite_file p; redis_server := redis_server p |}).
Proof.
  intros Hmode Hc. destruct p as [cfg c0 o f r].
  unfold client_of in Hc. simpl in *.
  unfold serve, get_repository. simpl. rewrite Hmode. simpl.
  destruct Hc as [->|[-> ->]]; simpl;
    (destruct (request_is_valid req); [|done]); by destruct (route req r).
Qed.

Lemma serve_redis_raises req p e :
  STORAGE_TYPE (config p) = StorageType.REDIS →
  redis_client p = None → from_url (REDIS_URL (config p)) = Raise e →
  serve req p = ({| status_code := 500; body := Problem |}, p).
Proof.
  intros Hmode Hc He. unfold serve, get_repository. rewrite Hmode, Hc, He.
  simpl. destruct p. simpl in *. by subst.
Qed.

(** In Redis mode a request works with a client, or building one raises. *)
Lemma redis_client_cases p :
  (∃ c, client_of p c)
  ∨ (redis_client p = None ∧ ∃ e, from_url (REDIS_URL (config p)) = Raise e).
Proof.
  unfold client_of. destruct (redis_client p) as [c|]; [by eauto|].
  destruct (from_url (REDIS_URL (config p))) as [c|e]; by eauto.
Qed.

Lemma serve_unknown req p :
  STORAGE_TYPE (config p)
    ∉ [StorageType.IN_MEMORY; StorageType.SQLITE; StorageType.REDIS] →
  serve req p = ({| status_code := 500; body := Problem |}, p).
Proof.
  intros Hnot. unfold serve, get_repository.
  destruct (String.eqb_spec (STORAGE_TYPE (config p)) StorageType.IN_MEMORY)
    as [Heq|_]; [destruct Hnot; rewrite Heq; left|].
  destruct (String.eqb_spec (STORAGE_TYPE (config p)) StorageType.SQLITE)
    as [Heq|_]; [destruct Hnot; rewrite Heq; right; left|].
  destruct (String.eqb_spec (STORAGE_TYPE (config p)) StorageType.REDIS)
    as [Heq|_]; [destruct Hnot; rewrite Heq; right; right; left|].
  by destruct p.
Qed.

(** X12: in in-memory mode every request is served by a repository that is empty
    and is dropped afterwards. So no request changes the process, whatever came
    before: reading, updating or deleting any id answers 404, a listing is
    empty, and every creation of a draft with a finite price answers 201 with id
    1. *)
Theorem in_memory_mode_keeps_nothing p :
  STORAGE_TYPE (config p) = StorageType.IN_MEMORY →
  (∀ reqs, (serve_all reqs p).2 = p)
  ∧ (∀ i, (serve (GET_item i) p).1 = {| status_code := 404; body := Problem |})
  ∧ (∀ i, (serve (DELETE_item i) p).1
          = {| status_code := 404; body := Problem |})
  ∧ (∀ i d, ItemCreate.valid d = true →
            (serve (PUT_item i d) p).1
            = {| status_code := 404; body := Problem |})
  ∧ (∀ nf, (serve (GET_items nf None) p).1
           = {| status_code := 200; body := Items [] |})
  ∧ (∀ d, storable d = true →
          (serve (POST_items d) p).1
          = {| status_code := 201;
               body := OneItem (Item.of_dump 1 (ItemCreate.model_dump d)) |}).
Proof.
  intros Hmode. split_and!.
  - intros reqs. induction reqs as [|req reqs IH]; [done|]. simpl.
    rewrite (serve_in_memory req p Hmode).
    destruct (serve_all reqs p) as [resps p'] eqn:Hall. simpl in *. done.
  - intros i. by rewrite (serve_in_memory _ p Hmode).
  - intros i. by rewrite (serve_in_memory _ p Hmode).
  - intros i d Hd. rewrite (serve_in_memory _ p Hmode). simpl. by rewrite Hd.
  - intros nf. by rewrite (serve_in_memory _ p Hmode).
  - intros d [Hd _]%andb_true_iff. rewrite (serve_in_memory _ p Hmode).
    simpl. by rewrite Hd.
Qed.

Lemma in_memory_mode_keeps_nothing_witness :
  (serve_all [POST_items laptop; GET_item 1] (fresh_process "in_memory")).2
  = fresh_process "in_memory"
  ∧ (serve (GET_item 1) (fresh_process "in_memory")).1
    = {| status_code := 404; body := Problem |}.
Proof.
  destruct (in_memory_mode_keeps_nothing (fresh_process "in_memory") eq_refl)
    as (Hall & Hget & _).
  split; [apply Hall|apply Hget].
Defined.

(** X13: with a storage type that is none of the three, every request answers
    500 and changes nothing. *)
Theorem unknown_storage_type_answers_500 p reqs :
  STORAGE_TYPE (config p)
    ∉ [StorageType.IN_MEMORY; StorageType.SQLITE; StorageType.REDIS] →
  serve_all reqs p
  = ((λ _, {| status_code := 500; body := Problem |}) <$> reqs, p).
Proof.
  intros Hnot. induction reqs as [|req reqs IH]; [done|]. simpl.
  by rewrite (serve_unknown req p Hnot), IH.
Qed.

Lemma unknown_storage_type_answers_500_witness :
  serve_all [GET_items None None; POST_items laptop] (fresh_process "postgres")
  = ([{| status_code := 500; body := Problem |};
      {| status_code := 500; body := Problem |}], fresh_process "postgres").
Proof.
  apply (unknown_storage_type_answers_500 (fresh_process "postgres")
           [GET_items None None; POST_items laptop]).
  simpl. intros Hin.
  repeat (apply elem_of_cons in Hin as [Hin|Hin]; [discriminate Hin|]).
  by apply elem_of_nil in Hin.
Defined.

(** ** Requests against a store that outlives them *)

Lemma leb_not_ltb (m x : float) :
  PrimFloat.leb m x = true → PrimFloat.ltb x m = false.
Proof.
  rewrite ltb_spec, leb_spec. unfold SFltb, SFleb.
  rewrite (SFcompare_swap (Prim2SF m) (Prim2SF x)).
  by destruct (SFcompare (Prim2SF m) (Prim2SF x)) as [[]|].
Qed.

(** What the routes answer on a repository, by what the repository answers. *)
Lemma route_get_item {R} `{BaseRepository R} i (s : R) :
  route (GET_item i) s
  = (match get_item i s with
     | Ok (Some it) => {| status_code := 200; body := OneItem it |}
     | Ok None => {| status_code := 404; body := Problem |}
     | Raise _ => {| status_code := 500; body := Problem |}
     end, s).
Proof.
  unfold route, Main.get_item. by destruct (get_item i s) as [[it|]|e].
Qed.

Lemma route_error_unchanged {R} `{BaseRepository R} req (s : R) :
  (∀ i d s', update_item i d s = Ok (None, s') → s' = s) →
  (∀ i s', delete_item i s = Ok (false, s') → s' = s) →
  400 ≤ status_code (route req s).1 → (route req s).2 = s.
Proof.
  intros Hupd Hdel. destruct req as [d|nf mp|i|i d|i]; simpl.
  - unfold Main.create_item. destruct (create_item d s) as [[it s']|e]; simpl; [lia|done].
  - unfold Main.list_items. by destruct (list_items nf mp s).
  - unfold Main.get_item. by destruct (get_item i s) as [[it|]|e].
  - unfold Main.update_item.
    destruct (update_item i d s) as [[[it|] s']|e] eqn:Hu; simpl; [lia| |done].
    intros _. by apply (Hupd i d).
  - unfold Main.delete_item.
    destruct (delete_item i s) as [[[] s']|e] eqn:Hd; simpl; [lia| |done].
    intros _. by apply (Hdel i).
Qed.

Lemma sqlite_update_none i d (db db' : Sqlite.t) :
  update_item i d db = Ok (None, db') → db' = db.
Proof.
  simpl. destruct (bind_int_cases i) as [->| ->]; [|done]. simpl.
  destruct (SQLiteRepository.get_item i db) as [it|] eqn:Hget.
  - by rewrite (sqlite_update_present _ _ _ _ Hget).
  - rewrite (sqlite_update_absent _ _ _ Hget). by intros [= <-].
Qed.

Lemma sqlite_delete_false i (db db' : Sqlite.t) :
  delete_item i db = Ok (false, db') → db' = db.
Proof.
  simpl. destruct (bind_int_cases i) as [->| ->]; [|done]. simpl.
  destruct (SQLiteRepository.get_item i db) as [it|] eqn:Hget.
  - by rewrite (sqlite_delete_present _ _ _ Hget).
  - rewrite (sqlite_delete_absent _ _ Hget). by intros [= <-].
Qed.

Lemma redis_update_none i d (db db' : Redis.t) :
  update_item i d db = Ok (None, db') → db' = db.
Proof.
  simpl. destruct (RedisRepository.get_item i db) as [[it|]|e] eqn:Hget.
  - by rewrite (redis_update_present _ _ _ _ Hget).
  - rewrite (redis_update_absent _ _ _ Hget). by intros [= <-].
  - unfold RedisRepository.update_item. by rewrite Hget.
Qed.

Lemma redis_delete_false i (db db' : Redis.t) :
  delete_item i db = Ok (false, db') → db' = db.
Proof.
  simpl. unfold RedisRepository.delete_item, Redis.delete.
  destruct (Redis.keys db !! RedisRepository.item_key i); [done|].
  by intros [= <-].
Qed.


Section routes.

Context {R : Type} `{BaseRepository R}.

Lemma route_after_delete (s : R) i :
  delete_at R s i → update_absent_contract R →
  ((route (DELETE_item i) s).1 = {| status_code := 204; body := NoContent |}
   ∨ (route (DELETE_item i) s).1 = {| status_code := 404; body := Problem |})
  ∧ ∀ req,
      req = GET_item i ∨ req = DELETE_item i ∨ (∃ d, req = PUT_item i d) →
      route req (route (DELETE_item i) s).2
      = ({| status_code := 404; body := Problem |},
         (route (DELETE_item i) s).2).
Proof.
  intros (b & s' & Hdel & _ & Hgone & Hagain) Hupdate.
  assert (route (DELETE_item i) s
          = (if b then {| status_code := 204; body := NoContent |}
             else {| status_code := 404; body := Problem |}, s')) as ->.
  { simpl. unfold Main.delete_item. rewrite Hdel. by destruct b. }
  simpl. split.
  - destruct b; auto.
  - intros req [->|[->|[d ->]]]; simpl.
    + unfold Main.get_item. by rewrite Hgone.
    + unfold Main.delete_item. by rewrite Hagain.
    + unfold Main.update_item. by rewrite (Hupdate s' i d Hgone).
Qed.

Lemma route_post_then_get (P : Item.t → Prop) (s : R) d resp s' :
  (∀ it, create_item d s = Ok (it, s') →
         it = Item.of_dump (Item.id it) (ItemCreate.model_dump d)
         ∧ (P it → get_item (Item.id it) s' = Ok (Some it))) →
  route (POST_items d) s = (resp, s') →
  status_code resp = 201 →
  ∃ it,
    resp = {| status_code := 201; body := OneItem it |}
    ∧ it = Item.of_dump (Item.id it) (ItemCreate.model_dump d)
    ∧ (P it →
       route (GET_item (Item.id it)) s'
       = ({| status_code := 200; body := OneItem it |}, s')).
Proof.
  intros Hcreate. simpl. unfold Main.create_item.
  destruct (create_item d s) as [[it s1]|e] eqn:Hc; intros [= <- <-]; [|done].
  intros _. destruct (Hcreate it eq_refl) as [Hit Hget].
  exists it. split_and!; [done..|]. intros HP.
  simpl. unfold Main.get_item. by rewrite (Hget HP).
Qed.

Lemma route_put_then_get (s : R) i d resp s' :
  (∀ it, update_item i d s = Ok (Some it, s') →
         get_item i s' = Ok (Some it)) →
  route (PUT_item i d) s = (resp, s') →
  status_code resp = 200 →
  ∃ it,
    resp = {| status_code := 200; body := OneItem it |}
    ∧ route (GET_item i) s'
      = ({| status_code := 200; body := OneItem it |}, s').
Proof.
  intros Hupdate. simpl. unfold Main.update_item.
  destruct (update_item i d s) as [[[it|] s1]|e] eqn:Hu; intros [= <- <-];
    [|done..].
  intros _. exists it. split; [done|].
  simpl. unfold Main.get_item. by rewrite (Hupdate it eq_refl).
Qed.

End routes.

Lemma sqlite_delete_unbound (db : Sqlite.t) i :
  ¬ (- 2 ^ 63 ≤ i < 2 ^ 63) →
  route (DELETE_item i) db = ({| status_code := 500; body := Problem |}, db).
Proof.
  intros Hi. destruct (bind_int_cases i) as [Hb|Hb].
  - by apply bind_int_range in Hb.
  - simpl. unfold Main.delete_item. simpl. by rewrite Hb.
Qed.


Lemma sqlite_create_get (db : Sqlite.t) d it db' :
  create_item d db = Ok (it, db') →
  it = Item.of_dump (Item.id it) (ItemCreate.model_dump d)
  ∧ (- 2 ^ 63 ≤ Item.id it < 2 ^ 63 → get_item (Item.id it) db' = Ok (Some it)).
Proof.
  simpl. unfold SQLiteRepository.create_item, Sqlite.insert.
  intros [= <- <-]. split; [done|]. simpl. intros ->%bind_int_range. simpl.
  f_equal. rewrite sqlite_get_item_lookup. simpl. by rewrite lookup_insert_eq.
Qed.

Lemma sqlite_update_get (db : Sqlite.t) i d it db' :
  update_item i d db = Ok (Some it, db') → get_item i db' = Ok (Some it).
Proof.
  simpl. destruct (bind_int_cases i) as [->| ->]; [|done]. simpl.
  destruct (SQLiteRepository.get_item i db) as [it0|] eqn:Hget.
  - rewrite (sqlite_update_present _ _ _ _ Hget). intros [= <- <-]. f_equal.
    rewrite sqlite_get_item_lookup. simpl. by rewrite lookup_insert_eq.
  - by rewrite (sqlite_update_absent _ _ _ Hget).
Qed.

Lemma redis_create_get (db : Redis.t) d it db' :
  storable d = true →
  create_item d db = Ok (it, db') →
  it = Item.of_dump (Item.id it) (ItemCreate.model_dump d)
  ∧ get_item (Item.id it) db' = Ok (Some it).
Proof.
  intros Hd. simpl. unfold RedisRepository.create_item.
  destruct (RedisRepository._get_next_id db) as [[n db1]|e]; simpl; [|done].
  intros [= <- <-]. split; [done|].
  apply redis_get_item_Json; [simpl; apply lookup_insert_eq|].
  by apply of_dump_readable.
Qed.

Lemma redis_update_get (db : Redis.t) i d it db' :
  storable d = true →
  update_item i d db = Ok (Some it, db') → get_item i db' = Ok (Some it).
Proof.
  intros Hd. simpl.
  destruct (RedisRepository.get_item i db) as [[it0|]|e] eqn:Hget.
  - rewrite (redis_update_present _ _ _ _ Hget). intros [= <- <-].
    apply redis_get_item_Json; [simpl; apply lookup_insert_eq|].
    apply model_copy_readable; [|done].
    by apply redis_get_item_Some in Hget as [_ ?].
  - by rewrite (redis_update_absent _ _ _ Hget).
  - unfold RedisRepository.update_item. by rewrite Hget.
Qed.


Lemma scan_min_price_bound {R} `{BaseRepository R} (s : R) nf m l it :
  (∀ nf mp (s : R),
     list_items nf mp s
     = all ← list_items None None s; Ok (List.filter (item_matches nf mp) all)) →
  PrimFloat.ltb 0 m = true →
  list_items nf (Some m) s = Ok l → it ∈ l →
  PrimFloat.ltb (Item.price it) m = false.
Proof.
  intros Hscan Hm. rewrite Hscan.
  destruct (list_items None None s) as [all|e]; simpl; [|done].
  intros [= <-] [_ Hit]%elem_of_list_filter.
  rewrite item_matches_price, (positive_truthy m Hm) in Hit.
  apply andb_true_iff in Hit as [_ Hit]. simpl in Hit.
  by apply negb_true_iff in Hit.
Qed.

Lemma sqlite_min_price_bound (db : Sqlite.t) nf m l it :
  PrimFloat.ltb 0 m = true →
  list_items nf (Some m) db = Ok l → it ∈ l →
  PrimFloat.ltb (Item.price it) m = false.
Proof.
  intros Hm [_ ->]%sqlite_list_items_Ok
    (k & r & -> & _ & Hwhere)%sqlite_list_items_elem.
  rewrite (sqlite_conditions_positive nf m Hm) in Hwhere.
  apply where_snoc in Hwhere as [_ [= Hge]]. by apply leb_not_ltb.
Qed.

Lemma route_list_items {R} `{BaseRepository R} (s : R) nf mp l :
  body (route (GET_items nf mp) s).1 = Items l → list_items nf mp s = Ok l.
Proof.
  simpl. unfold Main.list_items.
  destruct (list_items nf mp s) as [l'|e]; simpl; [|done]. by intros [= ->].
Qed.

(** ** The minimum price over HTTP *)

Lemma storage_type_cases settings :
  STORAGE_TYPE settings = StorageType.IN_MEMORY
  ∨ STORAGE_TYPE settings = StorageType.SQLITE
  ∨ STORAGE_TYPE settings = StorageType.REDIS
  ∨ STORAGE_TYPE settings
      ∉ [StorageType.IN_MEMORY; StorageType.SQLITE; StorageType.REDIS].
Proof.
  destruct (decide (STORAGE_TYPE settings = StorageType.IN_MEMORY)); [auto|].
  destruct (decide (STORAGE_TYPE settings = StorageType.SQLITE)); [auto|].
  destruct (decide (STORAGE_TYPE settings = StorageType.REDIS)); [auto|].
  do 3 right. intros Hin.
  repeat (apply elem_of_cons in Hin as [Hin|Hin]; [done|]).
  by apply elem_of_nil in Hin.
Qed.

(** X17: over HTTP a minimum price is always a bound: when a listing request
    with [min_price] is answered with a list, the parameter is above zero (zero,
    a negative number and NaN are refused with 422 before the repository sees
    them), and no item of the list is priced below it. *)
Theorem min_price_over_http_is_a_bound p nf m resp p' l it :
  serve (GET_items nf (Some m)) p = (resp, p') →
  body resp = Items l → it ∈ l →
  PrimFloat.ltb 0 m = true ∧ PrimFloat.ltb (Item.price it) m = false.
Proof.
  destruct (storage_type_cases (config p)) as [Hmode|[Hmode|[Hmode|Hmode]]].
  - rewrite (serve_in_memory _ p Hmode). cbn [request_is_valid].
    destruct (PrimFloat.ltb 0 m) eqn:Hm; [|by intros [= <- <-]].
    intros Hresp%(f_equal fst). cbn [fst] in Hresp. rewrite <-Hresp.
    intros Hl%route_list_items Hit. split; [done|].
    by apply (scan_min_price_bound InMemoryRepository.init nf m l it
                in_memory_list_items_scan).
  - rewrite (serve_sqlite _ p Hmode). cbn [request_is_valid].
    destruct (PrimFloat.ltb 0 m) eqn:Hm; [|by intros [= <- <-]].
    destruct (sqlite_opens p); [|by intros [= <- <-]].
    intros Hresp%(f_equal fst). cbn [fst] in Hresp. rewrite <-Hresp.
    intros Hl%route_list_items Hit. split; [done|].
    by apply (sqlite_min_price_bound (sqlite_file p) nf m l it).
  - destruct (redis_client_cases p) as [[c Hc]|[Hnone [e He]]].
    2:{ rewrite (serve_redis_raises _ p e Hmode Hnone He).
        by intros [= <- <-]. }
    rewrite (serve_redis _ p c Hmode Hc). cbn [request_is_valid].
    destruct (PrimFloat.ltb 0 m) eqn:Hm; [|by intros [= <- <-]].
    intros Hresp%(f_equal fst). cbn [fst] in Hresp. rewrite <-Hresp.
    intros Hl%route_list_items Hit. split; [done|].
    by apply (scan_min_price_bound (redis_server p) nf m l it
                redis_list_items_scan).
  - rewrite (serve_unknown _ p Hmode). by intros [= <- <-].
Qed.




Lemma min_price_over_http_is_a_bound_witness :
  PrimFloat.ltb 0 15 = true
  ∧ PrimFloat.ltb
      (Item.price {| Item.id := 2; Item.name := "Orange";
                     Item.description := None; Item.price := 20 |}) 15
    = false.
Proof.
  apply (min_price_over_http_is_a_bound (fresh_process "sqlite") None 15
           (serve (GET_items None (Some 15%float)) (fresh_process "sqlite")).1
           (serve (GET_items None (Some 15%float)) (fresh_process "sqlite")).2
           [{| Item.id := 2; Item.name := "Orange";
               Item.description := None; Item.price := 20 |};
            {| Item.id := 3; Item.name := "Pineapple";
               Item.description := None; Item.price := 30 |}]).
  - apply surjective_pairing.
  - reflexivity.
  - left.
Defined.

(** ** Partial update in the in-memory and Redis backends *)

(** X1: in the in-memory backend, and in the Redis backend for a valid draft
    with a finite price, updating an existing id stores a record that takes the
    name and the price of the draft, takes its description when the draft sets
    one ([None] included) and keeps the stored description when the draft leaves
    it out; [update] returns that record and so does [get] afterwards. *)
Theorem partial_update_keeps_what_the_draft_leaves_out :
  (∀ (s : InMemoryRepository.t) i d it,
     get_item i s = Ok (Some it) → partially_updated _ s i d it)
  ∧ (∀ (s : Redis.t) i d it,
       storable d = true →
       get_item i s = Ok (Some it) → partially_updated _ s i d it).
Proof.
  split.
  - intros s i d it. apply in_memory_partial_update.
  - intros s i d it. apply redis_partial_update.
Qed.

Lemma partial_update_keeps_what_the_draft_leaves_out_witness :
  partially_updated _ laptop_keys 1 laptop_pro
    {| Item.id := 1; Item.name := "Laptop";
       Item.description := Some "Fast"; Item.price := 1200.5 |}.
Proof.
  apply (proj2 partial_update_keeps_what_the_draft_leaves_out);
    by vm_compute.
Defined.

(** ** The SQLite name filter on plain ASCII *)

(** X3: for a name filter of ASCII characters without [%], [_] and U+0000,
    whose pattern is within the limit of [LIKE], on a table whose names are
    ASCII without U+0000, the SQLite backend keeps the name-filter contract
    of the other two backends: the filtered listing returns, with exactly
    the items of the listing without the name filter whose lowercased name
    contains the lowercased filter. *)
Theorem sqlite_plain_name_filter_is_substring (db : Sqlite.t) f mp l0 :
  plain f = true →
  Sqlite.utf8_length ("%" +:+ f +:+ "%") ≤ Sqlite.like_pattern_limit →
  (∀ k r, Sqlite.items db !! k = Some r →
          all_chars text_char (Sqlite.name r) = true) →
  list_items None mp db = Ok l0 →
  ∃ l, list_items (Some f) mp db = Ok l
       ∧ ∀ it, it ∈ l
               ↔ it ∈ l0
                 ∧ Py.contains (Py.lower f) (Py.lower (Item.name it)) = true.
Proof.
  intros Hf Hlen Hrows [_ ->]%sqlite_list_items_Ok.
  rewrite (sqlite_list_items_passes (Some f) mp db).
  2:{ rewrite <-(sqlite_like_fails_name (Some f) mp).
      by apply sqlite_like_passes. }
  eexists; split; [reflexivity|]. intros it.
  by apply sqlite_plain_name_filter.
Qed.

Lemma sqlite_plain_name_filter_is_substring_witness :
  ∃ l, list_items (Some "APPLE") None fruit_db = Ok l
       ∧ ∀ it, it ∈ l
               ↔ it ∈ SQLiteRepository.list_items None None fruit_db
                 ∧ Py.contains (Py.lower "APPLE") (Py.lower (Item.name it))
                   = true.
Proof.
  apply (sqlite_plain_name_filter_is_substring fruit_db "APPLE" None).
  - reflexivity.
  - by vm_compute.
  - apply (map_Forall_to_list (λ k r, _)).
    vm_compute map_to_list. repeat constructor.
  - reflexivity.
Defined.
